(** * detect_cutout: interior holes of an RGBA image

    A shallow embedding of [scripts/detect_cutout.py] and the proofs of its
    specification.  The script thresholds the alpha channel, flood-fills the
    transparent pixels reachable from the image border, labels the remaining
    transparent pixels by 4-connected component, and prints the largest
    components.

    Conventions:
    - the decoder is outside the model: a run starts from the decoded
      image, its size and its RGBA data, and yields the printed lines;
    - numpy arrays of shape (h, w) are lists of rows; an index outside the
      axis raises [IndexError], a negative index counts from the end;
    - coordinates and sizes are Python integers, modelled in [Z];
    - a pixel is queued as the pair (x, y), and read as [array[y, x]];
    - each [while queue:] loop is given [fuel] iterations, one per
      [popleft]; running out of them is the outcome [OutOfFuel]. *)

From stdpp Require Import base list list_numbers numbers strings pretty.

Local Open Scope Z_scope.

(** ** Outcomes of running a fragment of the script *)

Inductive exn := IndexError | OverflowError.

Inductive outcome (A : Type) :=
  | Done (a : A)
  | Raise (e : exn)
  | OutOfFuel.
Arguments Done {A} a.
Arguments Raise {A} e.
Arguments OutOfFuel {A}.

Global Instance exn_eq_dec : EqDecision exn.
Proof. solve_decision. Defined.
Global Instance outcome_eq_dec `{EqDecision A} : EqDecision (outcome A).
Proof. solve_decision. Defined.

Global Instance outcome_ret : MRet outcome := @Done.
Global Instance outcome_bind : MBind outcome := λ A B f m,
  match m with
  | Done a => f a
  | Raise e => Raise e
  | OutOfFuel => OutOfFuel
  end.

Global Instance outcome_fmap : FMap outcome := λ A B f m,
  match m with
  | Done a => Done (f a)
  | Raise e => Raise e
  | OutOfFuel => OutOfFuel
  end.

(** [for a in l: body] *)
Fixpoint for_ {A S} (l : list A) (body : A → S → outcome S) (s : S) : outcome S :=
  match l with
  | [] => Done s
  | a :: l => s' ← body a s; for_ l body s'
  end.

(** ** numpy arrays of shape (h, w) *)

Module ndarray.

Abbreviation t A := (list (list A)) (only parsing).

(** Index [i] on an axis of size [n]: [-n <= i < n], negative from the end. *)
Definition axis_index (n : nat) (i : Z) : outcome nat :=
  if bool_decide (0 ≤ i < Z.of_nat n) then Done (Z.to_nat i)
  else if bool_decide (- Z.of_nat n ≤ i < 0) then Done (Z.to_nat (i + Z.of_nat n))
  else Raise IndexError.

Definition lookup_or_raise {A} (l : list A) (i : nat) : outcome A :=
  match l !! i with
  | Some a => Done a
  | None => Raise IndexError
  end.

(** [a[y, x]] *)
Definition getitem {A} (a : t A) (y x : Z) : outcome A :=
  i ← axis_index (length a) y;
  row ← lookup_or_raise a i;
  j ← axis_index (length row) x;
  lookup_or_raise row j.

(** [a[y, x] = v] *)
Definition setitem {A} (a : t A) (y x : Z) (v : A) : outcome (t A) :=
  i ← axis_index (length a) y;
  row ← lookup_or_raise a i;
  j ← axis_index (length row) x;
  Done (<[i := <[j := v]> row]> a).

(** [np.zeros((h, w))] *)
Definition zeros (h w : Z) : t Z :=
  replicate (Z.to_nat h) (replicate (Z.to_nat w) 0).

(** Elementwise operations on arrays of one shape. *)
Definition elementwise {A B} (f : A → B) (a : t A) : t B :=
  (λ row : list A, f <$> row) <$> a.
Definition elementwise2 {A B C} (f : A → B → C) (a : t A) (b : t B) : t C :=
  zip_with (zip_with f) a b.

(** [a] has [h] rows of [w] entries. *)
Definition shape {A} (a : t A) (h w : Z) : Prop :=
  length a = Z.to_nat h ∧ Forall (λ row, length row = Z.to_nat w) a.

End ndarray.

(** ** The script *)

(** One RGBA pixel of [np.array(img)]; channel 3 is alpha. *)
Record rgba := RGBA { red : Z; green : Z; blue : Z; alpha : Z }.

(** The decoded image: [img.size] is (w, h), [np.array(img)] has shape
    (h, w, 4). *)
Record image := Image { size : Z * Z; data : ndarray.t rgba }.

(** A queued pixel, (x, y). *)
Abbreviation pixel := (Z * Z)%type.

(** An entry of [components]: (area, min_x, min_y, width, height). *)
Record component := Component {
  c_area : Z; c_x : Z; c_y : Z; c_w : Z; c_h : Z
}.

Global Instance component_eq_dec : EqDecision component.
Proof. solve_decision. Defined.

(** [for dx, dy in [(-1, 0), (1, 0), (0, -1), (0, 1)]] *)
Definition dirs : list (Z * Z) := [(-1, 0); (1, 0); (0, -1); (0, 1)].

(** [labeled] has dtype int32: storing a Python integer outside the int32
    range raises [OverflowError] (older numpy versions wrap around
    instead); labels stay below the number of cells, so no run on an image
    of fewer than 2^31 pixels gets there. *)
Definition setitem_int32 (a : ndarray.t Z) (y x v : Z) : outcome (ndarray.t Z) :=
  if bool_decide (- 2 ^ 31 ≤ v < 2 ^ 31) then ndarray.setitem a y x v
  else Raise OverflowError.

(** *** Border flood fill (lines 16-40) *)

Section flood.
Context (w h : Z) (transparent : ndarray.t bool).

(** The state of the pass: [(visited, queue)]. *)
Definition flood_state : Type := ndarray.t Z * list pixel.

(** [if transparent[y, x] and visited[y, x] == 0:
         visited[y, x] = 1; queue.append((x, y))] *)
Definition seed (x y : Z) (st : flood_state) : outcome flood_state :=
  let '(visited, queue) := st in
  t ← ndarray.getitem transparent y x;
  if t : bool then
    v ← ndarray.getitem visited y x;
    if bool_decide (v = 0) then
      visited ← ndarray.setitem visited y x 1;
      Done (visited, queue ++ [(x, y)])
    else Done st
  else Done st.

(** The two seeding loops: top and bottom rows, then left and right
    columns of the rows in between. *)
Definition seed_border (st : flood_state) : outcome flood_state :=
  st ← for_ (seqZ 0 w) (λ x st,
          st ← seed x 0 st;
          seed x (h - 1) st) st;
  for_ (seqZ 1 (h - 1 - 1)) (λ y st,
          st ← seed 0 y st;
          seed (w - 1) y st) st.

(** The body of the [for dx, dy] loop of the border fill. *)
Definition visit_neighbor (cx cy : Z) (d : Z * Z) (st : flood_state)
    : outcome flood_state :=
  let '(visited, queue) := st in
  let nx := cx + d.1 in
  let ny := cy + d.2 in
  if bool_decide (0 ≤ nx < w) && bool_decide (0 ≤ ny < h) then
    v ← ndarray.getitem visited ny nx;
    if bool_decide (v = 0) then
      t ← ndarray.getitem transparent ny nx;
      if t : bool then
        visited ← ndarray.setitem visited ny nx 1;
        Done (visited, queue ++ [(nx, ny)])
      else Done st
    else Done st
  else Done st.

(** [while queue: cx, cy = queue.popleft(); for dx, dy in ds: ...] *)
Fixpoint flood_loop (ds : list (Z * Z)) (fuel : nat) (st : flood_state)
    : outcome flood_state :=
  let '(visited, queue) := st in
  match queue with
  | [] => Done st
  | (cx, cy) :: queue =>
      match fuel with
      | O => OutOfFuel
      | S fuel =>
          st ← for_ ds (visit_neighbor cx cy) (visited, queue);
          flood_loop ds fuel st
      end
  end.

(** The pixels the loop pops, in order. *)
Fixpoint flood_dequeued (ds : list (Z * Z)) (fuel : nat) (st : flood_state)
    : list pixel :=
  let '(visited, queue) := st in
  match queue with
  | [] => []
  | (cx, cy) :: queue =>
      match fuel with
      | O => []
      | S fuel =>
          (cx, cy) ::
          match for_ ds (visit_neighbor cx cy) (visited, queue) with
          | Done st => flood_dequeued ds fuel st
          | _ => []
          end
      end
  end.

(** Lines 16-40: the visited mask once the queue is empty. *)
Definition border_flood_fill (fuel : nat) : outcome (ndarray.t Z) :=
  st ← seed_border (ndarray.zeros h w, []);
  st ← flood_loop dirs fuel st;
  Done st.1.

(** The same pass with the candidate seeds and the neighbour directions
    taken in a given order. *)
Definition flood_from (cands : list pixel) (ds : list (Z * Z)) (fuel : nat)
    : outcome (ndarray.t Z) :=
  st ← for_ cands (λ p, seed p.1 p.2) (ndarray.zeros h w, []);
  st ← flood_loop ds fuel st;
  Done st.1.

(** The candidates in the order the two seeding loops visit them. *)
Definition border_scan : list pixel :=
  (seqZ 0 w ≫= λ x, [(x, 0); (x, h - 1)])
  ++ (seqZ 1 (h - 1 - 1) ≫= λ y, [(0, y); (w - 1, y)]).

End flood.

(** *** Interior labelling (lines 42-68) *)

(** The state of one component fill. *)
Record fill_state := FillState {
  labeled : ndarray.t Z;
  comp_queue : list pixel;
  min_x : Z; min_y : Z; max_x : Z; max_y : Z;
  area : Z
}.

Section labeler.
Context (w h : Z) (interior : ndarray.t bool).

(** The body of the [for dx, dy] loop of a component fill, on
    [(labeled, comp_queue)]. *)
Definition label_neighbor (label cx cy : Z) (d : Z * Z)
    (st : ndarray.t Z * list pixel) : outcome (ndarray.t Z * list pixel) :=
  let '(labeled, comp_queue) := st in
  let nx := cx + d.1 in
  let ny := cy + d.2 in
  if bool_decide (0 ≤ nx < w) && bool_decide (0 ≤ ny < h) then
    i ← ndarray.getitem interior ny nx;
    if i : bool then
      l ← ndarray.getitem labeled ny nx;
      if bool_decide (l = 0) then
        labeled ← setitem_int32 labeled ny nx label;
        Done (labeled, comp_queue ++ [(nx, ny)])
      else Done st
    else Done st
  else Done st.

(** [while comp_queue: ...] *)
Fixpoint fill (label : Z) (fuel : nat) (st : fill_state) : outcome fill_state :=
  match comp_queue st with
  | [] => Done st
  | (cx, cy) :: queue =>
      match fuel with
      | O => OutOfFuel
      | S fuel =>
          let area := area st + 1 in
          let min_x := Z.min (min_x st) cx in
          let min_y := Z.min (min_y st) cy in
          let max_x := Z.max (max_x st) cx in
          let max_y := Z.max (max_y st) cy in
          '(lab, queue) ← for_ dirs (label_neighbor label cx cy)
                               (labeled st, queue);
          fill label fuel
            {| labeled := lab; comp_queue := queue;
               min_x := min_x; min_y := min_y; max_x := max_x; max_y := max_y;
               area := area |}
      end
  end.

(** The state of the scan: [(labeled, label, components)]. *)
Definition scan_state : Type := ndarray.t Z * Z * list component.

(** The body of the [for y ... for x] scan. *)
Definition scan_cell (fuel : nat) (x y : Z) (st : scan_state)
    : outcome scan_state :=
  let '(lab, label, components) := st in
  i ← ndarray.getitem interior y x;
  if i : bool then
    l ← ndarray.getitem lab y x;
    if bool_decide (l = 0) then
      let label := label + 1 in
      lab ← setitem_int32 lab y x label;
      st ← fill label fuel
             {| labeled := lab; comp_queue := [(x, y)];
                min_x := x; min_y := y; max_x := x; max_y := y;
                area := 0 |};
      Done (labeled st, label,
            components ++ [Component (area st) (min_x st) (min_y st)
                                     (max_x st - min_x st + 1)
                                     (max_y st - min_y st + 1)])
    else Done st
  else Done st.

(** Lines 44-68: the label grid, the last label and the components in
    label order. *)
Definition label_interior (fuel : nat) : outcome scan_state :=
  for_ (seqZ 0 h) (λ y st,
    for_ (seqZ 0 w) (λ x st, scan_cell fuel x y st) st)
    (ndarray.zeros h w, 0, []).

End labeler.

(** *** Reporting (lines 70-73) *)

(** [components.sort(key=lambda c: c[0], reverse=True)]: Python's sort is
    stable, also under [reverse=True]; entries of equal area keep their
    order. *)
Fixpoint insert_by_area (c : component) (l : list component) : list component :=
  match l with
  | [] => [c]
  | d :: l' =>
      if bool_decide (c_area d ≤ c_area c) then c :: d :: l'
      else d :: insert_by_area c l'
  end.

Definition sort_by_area (l : list component) : list component :=
  foldr insert_by_area [] l.

(** What one [Hole] line reports: the rank [i + 1] and the entry. *)
Definition hole_entries (limit : nat) (components : list component)
    : list (Z * component) :=
  imap (λ i c, (Z.of_nat i + 1, c)) (take limit components).

Definition hole_line (e : Z * component) : string :=
  let '(rank, c) := e in
  "  Hole " +:+ pretty rank +:+ ": area=" +:+ pretty (c_area c)
  +:+ ", x=" +:+ pretty (c_x c) +:+ ", y=" +:+ pretty (c_y c)
  +:+ ", w=" +:+ pretty (c_w c) +:+ ", h=" +:+ pretty (c_h c).

(** Lines 70-73: the sorted list and the lines printed after the
    dimensions. *)
Definition report (limit : nat) (components : list component)
    : list component * list string :=
  let components := sort_by_area components in
  (components,
   ("Found " +:+ pretty (Z.of_nat (length components)) +:+ " interior holes")
   :: (hole_line <$> hole_entries limit components)).

(** *** The whole run *)

(** Everything the run computes, for a threshold and a report limit. *)
Record analysis := Analysis {
  transparent : ndarray.t bool;
  visited : ndarray.t Z;
  interior : ndarray.t bool;
  label_grid : ndarray.t Z;
  labeler_output : list component;
  components : list component;
  stdout : list string
}.

Definition analyse (threshold : Z) (limit : nat) (fuel : nat) (img : image)
    : outcome analysis :=
  let '(w, h) := size img in
  let line1 := "Dimensions: " +:+ pretty w +:+ "x" +:+ pretty h in
  let alpha := ndarray.elementwise alpha (data img) in
  let transparent := ndarray.elementwise (λ a, bool_decide (a < threshold)) alpha in
  visited ← border_flood_fill w h transparent fuel;
  let interior :=
    ndarray.elementwise2 andb transparent
      (ndarray.elementwise (λ v, bool_decide (v = 0)) visited) in
  '(lab, _, comps) ← label_interior w h interior fuel;
  let '(components, lines) := report limit comps in
  Done {| transparent := transparent; visited := visited; interior := interior;
          label_grid := lab; labeler_output := comps; components := components;
          stdout := line1 :: lines |}.

(** The script: [threshold = 16], the five largest holes. *)
Definition detect_cutout : nat → image → outcome analysis := analyse 16 5.

(** ** Test images *)

Definition opaque_px : rgba := RGBA 0 0 0 255.
Definition clear_px : rgba := RGBA 0 0 0 0.

(** The image of size (w, h) that is transparent where [rows] is true. *)
Definition image_of_rows (w h : Z) (rows : list (list bool)) : image :=
  Image (w, h)
    (ndarray.elementwise (λ b : bool, if b then clear_px else opaque_px) rows).

Definition tr := true.
Definition op := false.

(** Scenario 3: an opaque ring around a 3x3 hole. *)
Definition ring5 : image := image_of_rows 5 5
  [ [op; op; op; op; op];
    [op; tr; tr; tr; op];
    [op; tr; tr; tr; op];
    [op; tr; tr; tr; op];
    [op; op; op; op; op] ].

(** Scenario 4: two separate interior pixels. *)
Definition two_dots : image := image_of_rows 5 5
  [ [op; op; op; op; op];
    [op; tr; op; op; op];
    [op; op; op; op; op];
    [op; op; op; tr; op];
    [op; op; op; op; op] ].

(** A 3x5 mask: the transparent cell (1, 1) reaches the border through
    (1, 0); the transparent cell (1, 3) is enclosed. *)
Definition notch : ndarray.t bool :=
  [ [op; tr; op];
    [op; tr; op];
    [op; op; op];
    [op; tr; op];
    [op; op; op] ].

Definition notch_image : image := image_of_rows 3 5 notch.

(** A grid of width 0 and height 2. *)
Definition no_columns_image : image := Image (0, 2) [ []; [] ].

(** A grid of width 3 and height 0, and one of width 0 and height 3. *)
Definition no_rows_image : image := Image (3, 0) [].
Definition no_columns_image3 : image := Image (0, 3) [ []; []; [] ].

(** A column of three cells: the left and right scans both offer the
    transparent cell (0, 1). *)
Definition column : ndarray.t bool := [ [op]; [tr]; [op] ].

(** The ring with other colours under the same alpha values. *)
Definition ring5_red : image :=
  Image (5, 5)
    (ndarray.elementwise (λ px, RGBA 255 0 0 (alpha px)) (data ring5)).

(** Three holes, the first and the last of area 1, the middle one of
    area 2. *)
Definition three_holes : image := image_of_rows 7 5
  [ [op; op; op; op; op; op; op];
    [op; tr; op; tr; op; tr; op];
    [op; op; op; tr; op; op; op];
    [op; op; op; op; op; op; op];
    [op; op; op; op; op; op; op] ].

(** ** Vocabulary of the specification *)

Definition in_bounds (w h : Z) (p : pixel) : Prop :=
  0 ≤ p.1 < w ∧ 0 ≤ p.2 < h.

(** Top row, bottom row, left column or right column. *)
Definition on_border (w h : Z) (p : pixel) : Prop :=
  in_bounds w h p ∧ (p.2 = 0 ∨ p.2 = h - 1 ∨ p.1 = 0 ∨ p.1 = w - 1).

(** 4-connectivity: the two cells share an edge. *)
Definition adjacent (p q : pixel) : Prop :=
  Z.abs (q.1 - p.1) + Z.abs (q.2 - p.2) = 1.

(** The boolean mask [m] is true at [p]. *)
Definition holds (m : ndarray.t bool) (p : pixel) : Prop :=
  ndarray.getitem m p.2 p.1 = Done true.

(** The integer array [a] reads [v] at [p]. *)
Definition reads (a : ndarray.t Z) (p : pixel) (v : Z) : Prop :=
  ndarray.getitem a p.2 p.1 = Done v.

(** [a[y, x]] is truthy. *)
Definition marked (a : ndarray.t Z) (p : pixel) : Prop :=
  ∃ v, reads a p v ∧ v ≠ 0.

(** A path of 4-connected cells of the mask [m] leads from [p] to [q]
    (both ends included). *)
Inductive connected (w h : Z) (m : ndarray.t bool) : pixel → pixel → Prop :=
  | connected_refl p :
      in_bounds w h p → holds m p → connected w h m p p
  | connected_step p q r :
      connected w h m p q → adjacent q r → in_bounds w h r → holds m r →
      connected w h m p r.

(** Exterior transparency: a path of transparent cells leads to a
    transparent border cell. *)
Definition exterior (w h : Z) (transparent : ndarray.t bool) (p : pixel) : Prop :=
  ∃ b, on_border w h b ∧ connected w h transparent p b.

(** The cells of the grid in row-major order, the order of the labelling
    scan. *)
Definition cells (w h : Z) : list pixel :=
  seqZ 0 h ≫= λ y, seqZ 0 w ≫= λ x, [(x, y)].

(** The cells of the grid that carry label [k], in row-major order. *)
Definition cells_labeled (w h : Z) (lab : ndarray.t Z) (k : Z) : list pixel :=
  filter (λ p, ndarray.getitem lab p.2 p.1 = Done k) (cells w h).

Definition count_labeled (w h : Z) (lab : ndarray.t Z) (k : Z) : Z :=
  Z.of_nat (length (cells_labeled w h lab k)).

(** The cells where the integer array [a] is not 0, and the cells where
    the mask [m] is true, in row-major order. *)
Definition cells_marked (w h : Z) (a : ndarray.t Z) : list pixel :=
  filter (λ p, ndarray.getitem a p.2 p.1 ≠ Done 0) (cells w h).

Definition cells_holding (w h : Z) (m : ndarray.t bool) : list pixel :=
  filter (λ p, ndarray.getitem m p.2 p.1 = Done true) (cells w h).

(** The areas of the entries, summed. *)
Definition total_area (l : list component) : Z :=
  foldr (λ c n, c_area c + n) 0 l.

(** The entry [c] describes the cells labeled [k]: their number and their
    tight bounding box. *)
Definition describes (w h : Z) (lab : ndarray.t Z) (k : Z) (c : component) : Prop :=
  c_area c = count_labeled w h lab k
  ∧ (∀ p, in_bounds w h p → reads lab p k →
       c_x c ≤ p.1 < c_x c + c_w c ∧ c_y c ≤ p.2 < c_y c + c_h c)
  ∧ (∃ p, in_bounds w h p ∧ reads lab p k ∧ p.1 = c_x c)
  ∧ (∃ p, in_bounds w h p ∧ reads lab p k ∧ p.1 = c_x c + c_w c - 1)
  ∧ (∃ p, in_bounds w h p ∧ reads lab p k ∧ p.2 = c_y c)
  ∧ (∃ p, in_bounds w h p ∧ reads lab p k ∧ p.2 = c_y c + c_h c - 1).

(** The areas never increase along the list. *)
Definition non_increasing (l : list component) : Prop :=
  ∀ i j ci cj, (i ≤ j)%nat → l !! i = Some ci → l !! j = Some cj →
    c_area cj ≤ c_area ci.

(** The position, in row-major order, of the first cell labeled [k]. *)
Definition first_index (w h : Z) (lab : ndarray.t Z) (k : Z) : option nat :=
  fst <$> list_find (λ p, ndarray.getitem lab p.2 p.1 = Done k) (cells w h).

(** The three classes of a pixel: opaque, exterior transparency, and
    component [k] of the interior. *)
Definition is_opaque (a : analysis) (p : pixel) : Prop :=
  ¬ holds (transparent a) p.

Definition is_exterior (a : analysis) (p : pixel) : Prop :=
  holds (transparent a) p ∧ marked (visited a) p.

Definition in_component (a : analysis) (k : Z) (p : pixel) : Prop :=
  1 ≤ k ≤ Z.of_nat (length (labeler_output a)) ∧ reads (label_grid a) p k.

(** A well-formed decoded image: non-negative size, pixel data of that
    shape, and fewer than 2^31 pixels (the decoder refuses larger ones). *)
Definition well_formed (img : image) : Prop :=
  0 ≤ (size img).1 ∧ 0 ≤ (size img).2
  ∧ ndarray.shape (data img) (size img).2 (size img).1
  ∧ (size img).1 * (size img).2 < 2 ^ 31.

(** ** Facts about arrays *)

Import ndarray.

Section array_facts.
Context {A : Type}.
Implicit Types (a : t A) (h w x y : Z).

Lemma axis_index_in (n : nat) i :
  0 ≤ i < Z.of_nat n → axis_index n i = Done (Z.to_nat i).
Proof. intros ?. unfold axis_index. by rewrite bool_decide_eq_true_2. Qed.

Lemma shape_row a h w i row :
  shape a h w → a !! i = Some row → length row = Z.to_nat w.
Proof.
  intros [_ Hall] Hrow. rewrite Forall_lookup in Hall. exact (Hall _ _ Hrow).
Qed.

Lemma getitem_in a h w y x :
  shape a h w → 0 ≤ x < w → 0 ≤ y < h →
  ∃ row v, a !! Z.to_nat y = Some row ∧ row !! Z.to_nat x = Some v
           ∧ getitem a y x = Done v.
Proof.
  intros Hs Hx Hy. pose proof Hs as [Hlen _].
  destruct (lookup_lt_is_Some_2 a (Z.to_nat y)) as [row Hrow]; [lia|].
  pose proof (shape_row _ _ _ _ _ Hs Hrow) as Hrl.
  destruct (lookup_lt_is_Some_2 row (Z.to_nat x)) as [v Hv]; [lia|].
  exists row, v. split_and!; [done..|].
  unfold getitem, lookup_or_raise. rewrite axis_index_in by lia. cbn.
  rewrite Hrow. cbn. rewrite axis_index_in by lia. cbn. by rewrite Hv.
Qed.

Lemma getitem_is_Done a h w y x :
  shape a h w → 0 ≤ x < w → 0 ≤ y < h → ∃ v, getitem a y x = Done v.
Proof.
  intros Hs Hx Hy.
  destruct (getitem_in _ _ _ _ _ Hs Hx Hy) as (?&v&?&?&?). eauto.
Qed.

Lemma setitem_in a h w y x v :
  shape a h w → 0 ≤ x < w → 0 ≤ y < h →
  ∃ row, a !! Z.to_nat y = Some row
         ∧ setitem a y x v
           = Done (<[Z.to_nat y := <[Z.to_nat x := v]> row]> a).
Proof.
  intros Hs Hx Hy.
  destruct (getitem_in _ _ _ _ _ Hs Hx Hy) as (row&u&Hrow&Hu&_).
  pose proof Hs as [Hlen _].
  pose proof (shape_row _ _ _ _ _ Hs Hrow) as Hrl.
  exists row. split; [done|].
  unfold setitem, lookup_or_raise. rewrite axis_index_in by lia. cbn.
  rewrite Hrow. cbn. by rewrite axis_index_in by lia.
Qed.

Lemma shape_insert a h w i row :
  shape a h w → length row = Z.to_nat w → shape (<[i := row]> a) h w.
Proof.
  intros [Hlen Hall] Hrow. split; [by rewrite length_insert|].
  apply Forall_insert; done.
Qed.

Lemma setitem_shape a a' h w y x v :
  shape a h w → 0 ≤ x < w → 0 ≤ y < h →
  setitem a y x v = Done a' → shape a' h w.
Proof.
  intros Hs Hx Hy Hset.
  destruct (setitem_in _ _ _ _ _ v Hs Hx Hy) as (row&Hrow&Heq).
  rewrite Heq in Hset. injection Hset as <-.
  apply shape_insert; [done|]. rewrite length_insert.
  by eapply shape_row.
Qed.

Lemma getitem_setitem_eq a a' h w y x v :
  shape a h w → 0 ≤ x < w → 0 ≤ y < h →
  setitem a y x v = Done a' → getitem a' y x = Done v.
Proof.
  intros Hs Hx Hy Hset.
  pose proof (setitem_shape _ _ _ _ _ _ _ Hs Hx Hy Hset) as Hs'.
  destruct (setitem_in _ _ _ _ _ v Hs Hx Hy) as (row&Hrow&Heq).
  rewrite Heq in Hset. injection Hset as <-.
  destruct (getitem_in _ _ _ _ _ Hs' Hx Hy) as (row'&u&Hrow'&Hu&->).
  pose proof Hs as [Hlen _].
  pose proof (shape_row _ _ _ _ _ Hs Hrow) as Hrl.
  rewrite list_lookup_insert_eq in Hrow' by lia.
  injection Hrow' as <-.
  rewrite list_lookup_insert_eq in Hu by lia. congruence.
Qed.

Lemma getitem_setitem_ne a a' h w y x y' x' v :
  shape a h w → 0 ≤ x < w → 0 ≤ y < h → 0 ≤ x' < w → 0 ≤ y' < h →
  (x', y') ≠ (x, y) →
  setitem a y x v = Done a' → getitem a' y' x' = getitem a y' x'.
Proof.
  intros Hs Hx Hy Hx' Hy' Hne Hset.
  pose proof (setitem_shape _ _ _ _ _ _ _ Hs Hx Hy Hset) as Hs'.
  destruct (setitem_in _ _ _ _ _ v Hs Hx Hy) as (row&Hrow&Heq).
  rewrite Heq in Hset. injection Hset as <-.
  destruct (getitem_in _ _ _ _ _ Hs' Hx' Hy') as (r1&u1&Hr1&Hu1&->).
  destruct (getitem_in _ _ _ _ _ Hs Hx' Hy') as (r2&u2&Hr2&Hu2&->).
  f_equal.
  destruct (decide (Z.to_nat y = Z.to_nat y')) as [Hyy|Hyy].
  - rewrite <- Hyy in *. pose proof Hs as [Hlen _].
    rewrite list_lookup_insert_eq in Hr1 by lia.
    injection Hr1 as <-. assert (r2 = row) as -> by congruence.
    rewrite list_lookup_insert_ne in Hu1; [congruence|].
    intros Hxx. apply Hne. f_equal; lia.
  - rewrite list_lookup_insert_ne in Hr1 by done. congruence.
Qed.

Lemma shape_ext a b h w :
  0 ≤ w → 0 ≤ h → shape a h w → shape b h w →
  (∀ x y, 0 ≤ x < w → 0 ≤ y < h → getitem a y x = getitem b y x) →
  a = b.
Proof.
  intros Hw Hh Ha Hb Hext. pose proof Ha as [Hla _]. pose proof Hb as [Hlb _].
  apply list_eq_same_length with (length a); [lia|done|].
  intros i ra rb Hi Hra Hrb.
  pose proof (shape_row _ _ _ _ _ Ha Hra) as Hlra.
  pose proof (shape_row _ _ _ _ _ Hb Hrb) as Hlrb.
  apply list_eq_same_length with (length ra); [lia|done|].
  intros j u v Hj Hu Hv.
  assert (0 ≤ Z.of_nat j < w) as Hjx by lia.
  assert (0 ≤ Z.of_nat i < h) as Hiy by lia.
  specialize (Hext _ _ Hjx Hiy).
  destruct (getitem_in _ _ _ _ _ Ha Hjx Hiy) as (r1&u1&Hr1&Hu1&E1).
  destruct (getitem_in _ _ _ _ _ Hb Hjx Hiy) as (r2&u2&Hr2&Hu2&E2).
  rewrite !Nat2Z.id in *. congruence.
Qed.

End array_facts.

Lemma zeros_shape h w : shape (zeros h w) h w.
Proof.
  split; [apply length_replicate|].
  apply Forall_replicate, length_replicate.
Qed.

Lemma getitem_zeros h w y x :
  0 ≤ x < w → 0 ≤ y < h → getitem (zeros h w) y x = Done 0.
Proof.
  intros Hx Hy.
  destruct (getitem_in _ _ _ _ _ (zeros_shape h w) Hx Hy) as (row&v&Hr&Hv&->).
  apply lookup_replicate in Hr as [-> _].
  apply lookup_replicate in Hv as [-> _]. done.
Qed.

Lemma elementwise_shape {A B} (f : A → B) a h w : shape a h w → shape (elementwise f a) h w.
Proof.
  intros [Hl Hall]. unfold elementwise. split; [by rewrite length_fmap|].
  apply Forall_fmap. eapply Forall_impl; [exact Hall|].
  intros row Hr. unfold compose. by rewrite length_fmap.
Qed.

Lemma getitem_elementwise {A B} (f : A → B) a h w y x v :
  shape a h w → 0 ≤ x < w → 0 ≤ y < h →
  getitem a y x = Done v → getitem (elementwise f a) y x = Done (f v).
Proof.
  intros Hs Hx Hy Hget.
  destruct (getitem_in _ _ _ _ _ Hs Hx Hy) as (row&u&Hr&Hu&E).
  destruct (getitem_in _ _ _ _ _ (elementwise_shape f _ _ _ Hs) Hx Hy)
    as (row'&u'&Hr'&Hu'&->).
  unfold elementwise in Hr'. rewrite list_lookup_fmap, Hr in Hr'. simpl in Hr'.
  injection Hr' as <-. rewrite list_lookup_fmap, Hu in Hu'. simpl in Hu'.
  congruence.
Qed.

Lemma elementwise2_shape {A B C} (f : A → B → C) a b h w :
  shape a h w → shape b h w → shape (elementwise2 f a b) h w.
Proof.
  intros [Hla Ha] [Hlb Hb]. split.
  - unfold elementwise2. rewrite length_zip_with. lia.
  - unfold elementwise2. apply Forall_lookup. intros i row Hrow.
    apply lookup_zip_with_Some in Hrow as (ra&rb&->&Hra&Hrb).
    rewrite Forall_lookup in Ha. rewrite Forall_lookup in Hb.
    rewrite length_zip_with, (Ha _ _ Hra), (Hb _ _ Hrb). lia.
Qed.

Lemma getitem_elementwise2 {A B C} (f : A → B → C) a b h w y x u v :
  shape a h w → shape b h w → 0 ≤ x < w → 0 ≤ y < h →
  getitem a y x = Done u → getitem b y x = Done v →
  getitem (elementwise2 f a b) y x = Done (f u v).
Proof.
  intros Ha Hb Hx Hy Hu Hv.
  destruct (getitem_in _ _ _ _ _ Ha Hx Hy) as (ra&u1&Hra&Hu1&E1).
  destruct (getitem_in _ _ _ _ _ Hb Hx Hy) as (rb&v1&Hrb&Hv1&E2).
  destruct (getitem_in _ _ _ _ _ (elementwise2_shape f _ _ _ _ Ha Hb) Hx Hy)
    as (rc&c&Hrc&Hc&->).
  unfold elementwise2 in Hrc.
  apply lookup_zip_with_Some in Hrc as (ra'&rb'&->&Hra'&Hrb').
  apply lookup_zip_with_Some in Hc as (u'&v'&->&Hu'&Hv').
  congruence.
Qed.

(** ** Facts about loops *)

Section loop_facts.
Context {A S : Type}.
Implicit Types (l : list A) (body : A → S → outcome S) (s : S).

Lemma for_app l1 l2 body s :
  for_ (l1 ++ l2) body s = s' ← for_ l1 body s; for_ l2 body s'.
Proof.
  revert s. induction l1 as [|a l1 IH]; intros s; [done|].
  cbn. destruct (body a s) as [s1| |]; cbn; [apply IH|done..].
Qed.

Lemma for_ext l body1 body2 s :
  (∀ a s, a ∈ l → body1 a s = body2 a s) →
  for_ l body1 s = for_ l body2 s.
Proof.
  revert s. induction l as [|a l IH]; intros s Hext; [done|].
  cbn. rewrite Hext by left.
  destruct (body2 a s) as [s1| |]; cbn; [|done..].
  apply IH. intros ???. apply Hext. by right.
Qed.

(** The invariant rule: [P pre s] holds once the items [pre] are done. *)
Lemma for_invariant (P : list A → S → Prop) l body s :
  P [] s →
  (∀ pre a post s, l = pre ++ a :: post → P pre s →
     ∃ s', body a s = Done s' ∧ P (pre ++ [a]) s') →
  ∃ s', for_ l body s = Done s' ∧ P l s'.
Proof.
  revert P s. induction l as [|a l IH]; intros P s H0 Hstep.
  - exists s. done.
  - destruct (Hstep [] a l s eq_refl H0) as (s1 & Hb & H1).
    cbn. rewrite Hb. cbn.
    apply (IH (λ pre, P (a :: pre))); [done|].
    intros pre b post s2 -> HP.
    apply (Hstep (a :: pre) b post s2); done.
Qed.

End loop_facts.

Lemma for_bind {A B S} (l : list A) (f : A → list B)
    (body : B → S → outcome S) (s : S) :
  for_ (l ≫= f) body s = for_ l (λ a, for_ (f a) body) s.
Proof.
  revert s. induction l as [|a l IH]; intros s; [done|].
  cbn. rewrite for_app.
  destruct (for_ (f a) body s) as [s1| |]; cbn; [apply IH|done..].
Qed.

(** ** Facts about the grid *)

Lemma adjacent_dirs p q :
  adjacent p q ↔ ∃ d, d ∈ dirs ∧ q = (p.1 + d.1, p.2 + d.2).
Proof.
  destruct p as [px py], q as [qx qy]. unfold adjacent, dirs. cbn. split.
  - intros H.
    assert ((qx - px = -1 ∧ qy - py = 0) ∨ (qx - px = 1 ∧ qy - py = 0)
            ∨ (qx - px = 0 ∧ qy - py = -1) ∨ (qx - px = 0 ∧ qy - py = 1))
      as Hcases by lia.
    destruct Hcases as [[??]|[[??]|[[??]|[??]]]].
    + exists (-1, 0). split; [repeat constructor|]. cbn. f_equal; lia.
    + exists (1, 0). split; [repeat constructor|]. cbn. f_equal; lia.
    + exists (0, -1). split; [repeat constructor|]. cbn. f_equal; lia.
    + exists (0, 1). split; [repeat constructor|]. cbn. f_equal; lia.
  - intros ([dx dy] & Hd & Heq). injection Heq as -> ->. cbn.
    repeat (apply elem_of_cons in Hd as [Hd|Hd]; [injection Hd as -> ->; lia|]).
    by apply elem_of_nil in Hd.
Qed.

Lemma adjacent_sym p q : adjacent p q → adjacent q p.
Proof. unfold adjacent. lia. Qed.

Lemma elem_of_cells w h p : p ∈ cells w h ↔ in_bounds w h p.
Proof.
  unfold cells, in_bounds. destruct p as [x y]. cbn.
  rewrite list_elem_of_bind. split.
  - intros (y' & Hin & Hy). apply list_elem_of_bind in Hin as (x' & Hin & Hx).
    apply list_elem_of_singleton in Hin as [= -> ->].
    apply elem_of_seqZ in Hx, Hy. lia.
  - intros [Hx Hy]. exists y. split; [|apply elem_of_seqZ; lia].
    apply list_elem_of_bind. exists x. split; [by left|apply elem_of_seqZ; lia].
Qed.

Lemma NoDup_cells w h : NoDup (cells w h).
Proof.
  unfold cells. apply NoDup_bind.
  - intros y1 y2 p _ _ H1 H2.
    apply list_elem_of_bind in H1 as (x1 & H1 & _).
    apply list_elem_of_bind in H2 as (x2 & H2 & _).
    apply list_elem_of_singleton in H1, H2. congruence.
  - intros y _. apply NoDup_bind.
    + intros x1 x2 p _ _ H1 H2.
      apply list_elem_of_singleton in H1, H2. congruence.
    + intros x _. apply NoDup_singleton.
    + apply NoDup_seqZ.
  - apply NoDup_seqZ.
Qed.

Lemma length_cells w h : 0 ≤ w → 0 ≤ h → Z.of_nat (length (cells w h)) = w * h.
Proof.
  intros Hw Hh. unfold cells.
  assert (∀ (ys : list Z), Z.of_nat (length (ys ≫= λ y, seqZ 0 w ≫= λ x, [(x, y)]))
                           = w * Z.of_nat (length ys)) as Hrows.
  { induction ys as [|y ys IH]; cbn; [lia|].
    rewrite length_app, Nat2Z.inj_add, IH.
    assert (∀ (xs : list Z), length (xs ≫= λ x, [(x, y)]) = length xs) as Hrow.
    { induction xs as [|x xs IHx]; cbn; [done|]. by rewrite IHx. }
    rewrite Hrow, length_seqZ. lia. }
  rewrite Hrows, length_seqZ. lia.
Qed.

(** At most [w * h] distinct cells are in bounds. *)
Lemma NoDup_in_bounds_length w h (l : list pixel) :
  0 ≤ w → 0 ≤ h → NoDup l → (∀ p, p ∈ l → in_bounds w h p) →
  Z.of_nat (length l) ≤ w * h.
Proof.
  intros Hw Hh Hnd Hin. rewrite <- length_cells by done.
  apply inj_le, submseteq_length, NoDup_submseteq; [done|].
  intros p Hp. apply elem_of_cells. auto.
Qed.

Section connectivity.
Context (w h : Z) (m : ndarray.t bool).

Lemma connected_ends p q :
  connected w h m p q →
  in_bounds w h p ∧ holds m p ∧ in_bounds w h q ∧ holds m q.
Proof.
  induction 1 as [p Hin Hm|p q r Hpq IH Hadj Hin Hm]; [done|].
  destruct IH as (? & ? & _). done.
Qed.

Lemma connected_trans p q r :
  connected w h m p q → connected w h m q r → connected w h m p r.
Proof.
  intros Hpq Hqr. induction Hqr as [q|q r s Hqr IH Hadj Hin Hm]; [done|].
  exact (connected_step _ _ _ _ _ _ (IH Hpq) Hadj Hin Hm).
Qed.

Lemma connected_sym p q : connected w h m p q → connected w h m q p.
Proof.
  induction 1 as [p|p q r Hpq IH Hadj Hin Hm]; [by constructor|].
  apply connected_ends in Hpq as (_ & _ & Hq & Hmq).
  eapply connected_trans; [|exact IH].
  eapply connected_step; [by apply connected_refl| |done|done].
  by apply adjacent_sym.
Qed.

End connectivity.

(** ** The border flood fill *)

Section flood_facts.
Context (w h : Z) (T : ndarray.t bool).
Context (Hw : 0 ≤ w) (Hh : 0 ≤ h) (HT : ndarray.shape T h w).
(** The candidate seeds. *)
Context (S : pixel → Prop).

(** A path of transparent cells leads from a candidate seed to [p]. *)
Definition reach (p : pixel) : Prop := ∃ s, S s ∧ connected w h T s p.

(** [all] lists the cells marked so far, each once, in marking order. *)
Definition flood_core (all : list pixel) (vis : ndarray.t Z) : Prop :=
  ndarray.shape vis h w
  ∧ (∀ p, in_bounds w h p → reads vis p (if bool_decide (p ∈ all) then 1 else 0))
  ∧ NoDup all
  ∧ (∀ p, p ∈ all → reach p).

(** Every transparent neighbour of [p] is marked. *)
Definition closed_in (all : list pixel) (p : pixel) : Prop :=
  ∀ q, adjacent p q → in_bounds w h q → holds T q → q ∈ all.

(** The loop invariant: [done] are the cells dequeued so far. *)
Definition flood_inv (done : list pixel) (st : flood_state) : Prop :=
  flood_core (done ++ st.2) st.1
  ∧ (∀ p, p ∈ done → closed_in (done ++ st.2) p)
  ∧ (∀ s, S s → in_bounds w h s → holds T s → s ∈ done ++ st.2).

Lemma reach_in_bounds p : reach p → in_bounds w h p ∧ holds T p.
Proof. intros (s & _ & Hc). apply connected_ends in Hc. tauto. Qed.

Lemma flood_core_mark all vis n :
  flood_core all vis → n ∉ all → reach n →
  ∃ vis', ndarray.setitem vis n.2 n.1 1 = Done vis'
          ∧ flood_core (all ++ [n]) vis'.
Proof.
  intros (Hs & Hrd & Hnd & Hsound) Hn Hreach.
  destruct (reach_in_bounds _ Hreach) as [[Hx Hy] _].
  destruct (setitem_in vis h w n.2 n.1 1 Hs Hx Hy) as (row & _ & Hset).
  eexists. split; [exact Hset|]. split_and!.
  - eapply setitem_shape; eauto.
  - intros p Hp. unfold reads. destruct (decide (p = n)) as [->|Hne].
    + rewrite bool_decide_eq_true_2 by (apply elem_of_app; right; by left).
      eapply getitem_setitem_eq; eauto.
    + destruct Hp as [Hpx Hpy].
      erewrite getitem_setitem_ne; [|exact Hs|exact Hx|exact Hy|done|done| |exact Hset].
      * rewrite (bool_decide_ext (p ∈ all ++ [n]) (p ∈ all)).
        { apply Hrd. by split. }
        rewrite elem_of_app, list_elem_of_singleton. tauto.
      * intros Heq. apply Hne. destruct p, n. cbn in *. congruence.
  - apply NoDup_app. split_and!; [done| |apply NoDup_singleton].
    intros p Hp Hp'. apply list_elem_of_singleton in Hp' as ->. done.
  - intros p [Hp|Hp]%elem_of_app; [by apply Hsound|].
    apply list_elem_of_singleton in Hp as ->. done.
Qed.

Lemma seed_spec all vis Q x y :
  flood_core all vis → in_bounds w h (x, y) → S (x, y) →
  ∃ vis' extra,
    seed T x y (vis, Q) = Done (vis', Q ++ extra)
    ∧ flood_core (all ++ extra) vis'
    ∧ (holds T (x, y) → (x, y) ∈ all ++ extra).
Proof.
  intros Hcore Hin HS. pose proof Hcore as (Hs & Hrd & Hnd & Hsound).
  pose proof Hin as [Hx Hy]. cbn in Hx, Hy.
  unfold seed.
  destruct (getitem_is_Done T h w y x HT Hx Hy) as [t Ht]. rewrite Ht. cbn.
  destruct t.
  - pose proof (Hrd (x, y) Hin) as Hv. unfold reads in Hv. cbn in Hv.
    rewrite Hv. cbn. case_bool_decide as Hmem; cbn.
    + exists vis, []. rewrite !app_nil_r. done.
    + destruct (flood_core_mark all vis (x, y) Hcore Hmem) as (vis' & Hset & Hcore').
      { exists (x, y). split; [done|]. by apply connected_refl. }
      cbn in Hset. rewrite Hset. cbn.
      exists vis', [(x, y)]. split_and!; [done..|].
      intros _. apply elem_of_app. right. by left.
  - exists vis, []. rewrite !app_nil_r. split_and!; [done..|].
    intros Hh'. unfold holds in Hh'. cbn in Hh'. congruence.
Qed.

Lemma visit_neighbor_spec all vis Q cx cy d :
  flood_core all vis → (cx, cy) ∈ all →
  adjacent (cx, cy) (cx + d.1, cy + d.2) →
  ∃ vis' extra,
    visit_neighbor w h T cx cy d (vis, Q) = Done (vis', Q ++ extra)
    ∧ flood_core (all ++ extra) vis'
    ∧ (in_bounds w h (cx + d.1, cy + d.2) → holds T (cx + d.1, cy + d.2) →
       (cx + d.1, cy + d.2) ∈ all ++ extra).
Proof.
  intros Hcore Hc Hadj. pose proof Hcore as (Hs & Hrd & Hnd & Hsound).
  unfold visit_neighbor. cbn.
  set (nx := cx + d.1) in *. set (ny := cy + d.2) in *.
  destruct (decide (in_bounds w h (nx, ny))) as [Hin|Hout].
  - pose proof Hin as [Hx Hy]. cbn in Hx, Hy.
    rewrite !bool_decide_eq_true_2 by done. cbn.
    pose proof (Hrd (nx, ny) Hin) as Hv. unfold reads in Hv. cbn in Hv.
    rewrite Hv. cbn. case_bool_decide as Hmem; cbn.
    + exists vis, []. rewrite !app_nil_r. done.
    + destruct (getitem_is_Done T h w ny nx HT Hx Hy) as [t Ht]. rewrite Ht. cbn.
      destruct t.
      * destruct (flood_core_mark all vis (nx, ny) Hcore Hmem) as (vis' & Hset & Hcore').
        { destruct (Hsound _ Hc) as (s & HS & Hconn). exists s. split; [done|].
          eapply connected_step; eauto. }
        cbn in Hset. rewrite Hset. cbn.
        exists vis', [(nx, ny)]. split_and!; [done..|].
        intros _ _. apply elem_of_app. right. by left.
      * exists vis, []. rewrite !app_nil_r. split_and!; [done..|].
        intros _ Hh'. unfold holds in Hh'. cbn in Hh'. congruence.
  - assert (bool_decide (0 ≤ nx < w) && bool_decide (0 ≤ ny < h) = false) as ->.
    { apply andb_false_iff. unfold in_bounds in Hout. cbn in Hout.
      destruct (decide (0 ≤ nx < w)); [right|left];
        apply bool_decide_eq_false_2; tauto. }
    exists vis, []. rewrite !app_nil_r. split_and!; [done..|]. tauto.
Qed.

Lemma visit_all_spec ds all vis Q cx cy :
  (∀ d, d ∈ ds ↔ d ∈ dirs) →
  flood_core all vis → (cx, cy) ∈ all →
  ∃ vis' extra,
    for_ ds (visit_neighbor w h T cx cy) (vis, Q) = Done (vis', Q ++ extra)
    ∧ flood_core (all ++ extra) vis'
    ∧ closed_in (all ++ extra) (cx, cy).
Proof.
  intros Hds Hcore Hc.
  destruct (for_invariant
    (λ pre (st : flood_state), ∃ extra,
       st.2 = Q ++ extra ∧ flood_core (all ++ extra) st.1
       ∧ ∀ d, d ∈ pre → in_bounds w h (cx + d.1, cy + d.2) →
              holds T (cx + d.1, cy + d.2) → (cx + d.1, cy + d.2) ∈ all ++ extra)
    ds (visit_neighbor w h T cx cy) (vis, Q)) as ([vis' Q'] & Hrun & extra & HQ & Hcore' & Hcl).
  - exists []. rewrite !app_nil_r. split_and!; [done..|].
    intros d Hd. by apply elem_of_nil in Hd.
  - intros pre d post [vis1 Q1] -> (extra & HQ1 & Hcore1 & Hcl1). cbn in HQ1. subst Q1.
    destruct (visit_neighbor_spec (all ++ extra) vis1 (Q ++ extra) cx cy d)
      as (vis2 & extra2 & Hrun & Hcore2 & Hnew); [done| | |].
    + apply elem_of_app. by left.
    + apply adjacent_dirs. exists d. split; [|done].
      apply Hds. apply elem_of_app. right. by left.
    + eexists. split; [exact Hrun|]. exists (extra ++ extra2). cbn.
      rewrite !app_assoc. split_and!; [done..|].
      intros d' [Hd'|Hd']%elem_of_app Hin Hh'.
      * apply elem_of_app. left. by apply Hcl1.
      * apply list_elem_of_singleton in Hd' as ->. by apply Hnew.
  - cbn in HQ. subst Q'. exists vis', extra. split_and!; [done..|].
    intros q Hadj Hin Hh'.
    apply adjacent_dirs in Hadj as (d & Hd & ->). cbn in *.
    apply Hcl; [by apply Hds|done..].
Qed.

Lemma flood_core_bound all vis :
  flood_core all vis → Z.of_nat (length all) ≤ w * h.
Proof.
  intros (_ & _ & Hnd & Hsound).
  apply NoDup_in_bounds_length; [done..|].
  intros p Hp. by apply reach_in_bounds, Hsound.
Qed.

(** Either the fuel is less than the cells left to dequeue, or the loop
    ends with an empty queue, having dequeued [flood_dequeued]. *)
Lemma flood_loop_spec ds fuel done vis Q :
  (∀ d, d ∈ ds ↔ d ∈ dirs) →
  flood_inv done (vis, Q) →
  (flood_loop w h T ds fuel (vis, Q) = OutOfFuel
   ∧ Z.of_nat fuel + Z.of_nat (length done) < w * h)
  ∨ (∃ vis',
       flood_loop w h T ds fuel (vis, Q) = Done (vis', [])
       ∧ flood_inv (done ++ flood_dequeued w h T ds fuel (vis, Q)) (vis', [])).
Proof.
  intros Hds. revert done vis Q.
  induction fuel as [|fuel IH]; intros done vis Q Hinv.
  - destruct Q as [|[cx cy] Q]; cbn.
    + right. exists vis. by rewrite app_nil_r.
    + left. split; [done|]. destruct Hinv as (Hcore & _).
      apply flood_core_bound in Hcore. cbn in Hcore.
      rewrite length_app in Hcore. cbn in Hcore. lia.
  - destruct Q as [|[cx cy] Q]; cbn.
    + right. exists vis. by rewrite app_nil_r.
    + destruct Hinv as (Hcore & Hclosed & Hseeds). cbn in *.
      destruct (visit_all_spec ds (done ++ (cx, cy) :: Q) vis Q cx cy Hds Hcore)
        as (vis' & extra & Hrun & Hcore' & Hcl).
      { apply elem_of_app. right. by left. }
      rewrite Hrun. cbn.
      assert ((done ++ (cx, cy) :: Q) ++ extra = (done ++ [(cx, cy)]) ++ (Q ++ extra))
        as Heq by (by rewrite <- !app_assoc).
      rewrite Heq in Hcore', Hcl.
      destruct (IH (done ++ [(cx, cy)]) vis' (Q ++ extra)) as [[Hout Hlt]|Hok].
      * split_and!; cbn; [done| |].
        -- intros p [Hp|Hp]%elem_of_app.
           ++ intros q Hadj Hin Hq. rewrite <- Heq.
              apply elem_of_app. left. by eapply Hclosed.
           ++ apply list_elem_of_singleton in Hp as ->. done.
        -- intros s HS Hin Hs. rewrite <- Heq. apply elem_of_app. left. by apply Hseeds.
      * left. split; [done|]. rewrite length_app in Hlt. cbn in Hlt. lia.
      * right. destruct Hok as (vis2 & Hrun2 & Hinv2).
        exists vis2. split; [done|]. by rewrite <- app_assoc in Hinv2.
Qed.

(** What an empty queue means for the mask. *)
Lemma flood_inv_final done vis p :
  flood_inv done (vis, []) → in_bounds w h p →
  (reads vis p 1 ∨ reads vis p 0)
  ∧ (reads vis p 1 ↔ ∃ s, S s ∧ connected w h T s p).
Proof.
  intros (Hcore & Hclosed & Hseeds) Hin. cbn in *. rewrite app_nil_r in *.
  destruct Hcore as (Hs & Hrd & Hnd & Hsound).
  pose proof (Hrd p Hin) as Hv. split.
  - case_bool_decide; auto.
  - split.
    + intros H1. case_bool_decide as Hmem; [by apply Hsound|].
      unfold reads in *. congruence.
    + intros (s & HS & Hconn).
      assert (∀ q, connected w h T s q → q ∈ done) as Hcomplete.
      { clear p Hin Hv Hconn. intros q Hconn.
        induction Hconn as [s Hins Hms|s q r Hsq IH Hadj Hinr Hmr].
        - by apply Hseeds.
        - apply (Hclosed q); [by apply IH|done..]. }
      by rewrite bool_decide_eq_true_2 in Hv by auto.
Qed.

End flood_facts.

Lemma bind_Done_r {A} (m : outcome A) : (m ≫= Done) = m.
Proof. by destruct m. Qed.

Lemma seed_border_scan w h T st :
  seed_border w h T st = for_ (border_scan w h) (λ p, seed T p.1 p.2) st.
Proof.
  unfold seed_border, border_scan. rewrite for_app, !for_bind.
  assert (∀ l st, for_ l (λ x st, st ← seed T x 0 st; seed T x (h - 1) st) st
                  = for_ l (λ x, for_ [(x, 0); (x, h - 1)] (λ p, seed T p.1 p.2)) st)
    as ->.
  { intros l st'. apply for_ext. intros x s _. cbn.
    destruct (seed T x 0 s); cbn; [|done..]. by rewrite bind_Done_r. }
  destruct (for_ _ _ st) as [st1| |]; cbn; [|done..].
  rewrite for_bind. apply for_ext. intros y s _. cbn.
  destruct (seed T 0 y s); cbn; [|done..]. by rewrite bind_Done_r.
Qed.

Lemma border_flood_fill_scan w h T fuel :
  border_flood_fill w h T fuel = flood_from w h T (border_scan w h) dirs fuel.
Proof. unfold border_flood_fill, flood_from. by rewrite seed_border_scan. Qed.

Lemma elem_of_border_scan w h p :
  0 < w → 0 < h → p ∈ border_scan w h ↔ on_border w h p.
Proof.
  intros Hw Hh. destruct p as [x y].
  unfold border_scan, on_border, in_bounds. cbn.
  rewrite elem_of_app, !list_elem_of_bind. split.
  - intros [(x' & Hp & Hx)|(y' & Hp & Hy)].
    + apply elem_of_seqZ in Hx.
      apply elem_of_cons in Hp as [Hp|Hp]; [injection Hp as -> ->; lia|].
      apply list_elem_of_singleton in Hp. injection Hp as -> ->. lia.
    + apply elem_of_seqZ in Hy.
      apply elem_of_cons in Hp as [Hp|Hp]; [injection Hp as -> ->; lia|].
      apply list_elem_of_singleton in Hp. injection Hp as -> ->. lia.
  - intros [[Hx Hy] Hb].
    destruct (decide (y = 0)) as [->|Hy0].
    { left. exists x. split; [by left|apply elem_of_seqZ; lia]. }
    destruct (decide (y = h - 1)) as [->|Hy1].
    { left. exists x. split; [right; by left|apply elem_of_seqZ; lia]. }
    right. exists y. split; [|apply elem_of_seqZ; lia].
    destruct Hb as [?|[?|[->| ->]]]; [lia|lia|by left|right; by left].
Qed.

Lemma flood_core_zeros w h T (S : pixel → Prop) :
  flood_core w h T S [] (ndarray.zeros h w).
Proof.
  split_and!.
  - apply zeros_shape.
  - intros p [Hx Hy]. unfold reads. cbn. by apply getitem_zeros.
  - apply NoDup_nil_2.
  - intros p Hp. by apply elem_of_nil in Hp.
Qed.

Lemma seed_all_spec w h T (cands : list pixel) :
  ndarray.shape T h w → (∀ c, c ∈ cands → in_bounds w h c) →
  ∃ vis Q,
    for_ cands (λ p, seed T p.1 p.2) (ndarray.zeros h w, []) = Done (vis, Q)
    ∧ flood_inv w h T (λ p, p ∈ cands) [] (vis, Q).
Proof.
  intros HT Hc.
  destruct (for_invariant
    (λ pre (st : flood_state),
       flood_core w h T (λ p, p ∈ cands) st.2 st.1
       ∧ ∀ s, s ∈ pre → holds T s → s ∈ st.2)
    cands (λ p, seed T p.1 p.2) (ndarray.zeros h w, []))
    as ([vis Q] & Hrun & Hcore & Hseeds).
  - split; [apply flood_core_zeros|]. intros s Hs. by apply elem_of_nil in Hs.
  - intros pre [x y] post [vis Q] -> [Hcore Hseeds]. cbn in *.
    destruct (seed_spec w h T HT (λ p, p ∈ pre ++ (x, y) :: post) Q vis Q x y Hcore)
      as (vis' & extra & Hrun & Hcore' & Hnew).
    + apply Hc. apply elem_of_app. right. by left.
    + apply elem_of_app. right. by left.
    + eexists. split; [exact Hrun|]. cbn. split; [done|].
      intros s [Hs|Hs]%elem_of_app Hh.
      * apply elem_of_app. left. by apply Hseeds.
      * apply list_elem_of_singleton in Hs as ->. by apply Hnew.
  - exists vis, Q. split; [done|]. cbn in *. split_and!; cbn.
    + done.
    + intros p Hp. by apply elem_of_nil in Hp.
    + intros s Hs _ Hh. by apply Hseeds.
Qed.

(** The mask the fill computes from any in-bounds candidates [cands] and
    any order [ds] of the four directions. *)
Lemma flood_from_spec w h T cands ds fuel :
  0 ≤ w → 0 ≤ h → ndarray.shape T h w →
  (∀ c, c ∈ cands → in_bounds w h c) → (∀ d, d ∈ ds ↔ d ∈ dirs) →
  (flood_from w h T cands ds fuel = OutOfFuel ∧ Z.of_nat fuel < w * h)
  ∨ (∃ vis,
       flood_from w h T cands ds fuel = Done vis
       ∧ ndarray.shape vis h w
       ∧ ∀ p, in_bounds w h p →
           (reads vis p 1 ∨ reads vis p 0)
           ∧ (reads vis p 1 ↔ ∃ s, s ∈ cands ∧ connected w h T s p)).
Proof.
  intros Hw Hh HT Hc Hds. unfold flood_from.
  destruct (seed_all_spec w h T cands HT Hc) as (vis & Q & -> & Hinv). cbn.
  destruct (flood_loop_spec w h T Hw Hh HT _ ds fuel [] vis Q Hds Hinv)
    as [[-> Hlt]|(vis' & -> & Hinv')]; cbn.
  - left. split; [done|]. cbn in Hlt. lia.
  - right. exists vis'. split_and!; [done|apply Hinv'|].
    intros p Hp. by eapply flood_inv_final.
Qed.

(** ** The component fill *)

Global Arguments for_ : simpl never.

Lemma reads_fun a p v1 v2 : reads a p v1 → reads a p v2 → v1 = v2.
Proof. unfold reads. congruence. Qed.

Lemma reads_total a h w p :
  ndarray.shape a h w → in_bounds w h p → ∃ v, reads a p v.
Proof. intros Hs [Hx Hy]. by eapply getitem_is_Done. Qed.

(** A labeled cell and an interior neighbour carry the same label. *)
Definition labels_closed (w h : Z) (I : ndarray.t bool) (lab : ndarray.t Z) : Prop :=
  ∀ p q v, in_bounds w h p → in_bounds w h q → adjacent p q →
    reads lab p v → v ≠ 0 → holds I q → reads lab q v.

Section fill_facts.
Context (w h : Z) (I : ndarray.t bool) (lab0 : ndarray.t Z) (L : Z) (s : pixel).
Context (Hw : 0 ≤ w) (Hh : 0 ≤ h).
Context (HI : ndarray.shape I h w) (Hlab0 : ndarray.shape lab0 h w).
Context (HL : 1 ≤ L < 2 ^ 31).
Context (Hclosed0 : labels_closed w h I lab0).

(** [all] lists the cells given label [L] so far, each once; the other cells
    read as in [lab0], the grid before this fill. *)
Definition fill_core (all : list pixel) (lab : ndarray.t Z) : Prop :=
  ndarray.shape lab h w
  ∧ (∀ p, in_bounds w h p →
       if bool_decide (p ∈ all) then reads lab p L
       else ∀ v, reads lab0 p v → reads lab p v)
  ∧ NoDup all
  ∧ (∀ p, p ∈ all →
       in_bounds w h p ∧ holds I p ∧ reads lab0 p 0 ∧ connected w h I s p).

Definition fill_inv (done : list pixel) (st : fill_state) : Prop :=
  fill_core (done ++ comp_queue st) (labeled st)
  ∧ (∀ p q, p ∈ done → adjacent p q → in_bounds w h q → holds I q →
       q ∈ done ++ comp_queue st)
  ∧ area st = Z.of_nat (length done)
  ∧ (∀ p, p ∈ done →
       min_x st ≤ p.1 ≤ max_x st ∧ min_y st ≤ p.2 ≤ max_y st)
  ∧ (∃ p, p ∈ done ++ comp_queue st ∧ p.1 = min_x st)
  ∧ (∃ p, p ∈ done ++ comp_queue st ∧ p.1 = max_x st)
  ∧ (∃ p, p ∈ done ++ comp_queue st ∧ p.2 = min_y st)
  ∧ (∃ p, p ∈ done ++ comp_queue st ∧ p.2 = max_y st)
  ∧ s ∈ done ++ comp_queue st.

Lemma fill_core_mark all lab n :
  fill_core all lab → n ∉ all →
  in_bounds w h n → holds I n → reads lab0 n 0 → connected w h I s n →
  ∃ lab', setitem_int32 lab n.2 n.1 L = Done lab'
          ∧ fill_core (all ++ [n]) lab'.
Proof.
  intros (Hs & Hrd & Hnd & Hsound) Hn [Hx Hy] HIn H0 Hconn.
  destruct (setitem_in lab h w n.2 n.1 L Hs Hx Hy) as (row & _ & Hset).
  unfold setitem_int32. rewrite bool_decide_eq_true_2 by lia.
  eexists. split; [exact Hset|]. split_and!.
  - eapply setitem_shape; eauto.
  - intros p Hp. destruct (decide (p = n)) as [->|Hne].
    + rewrite bool_decide_eq_true_2 by (apply elem_of_app; right; by left).
      eapply getitem_setitem_eq; eauto.
    + rewrite (bool_decide_ext (p ∈ all ++ [n]) (p ∈ all)).
      2:{ rewrite elem_of_app, list_elem_of_singleton. tauto. }
      assert (∀ v, reads lab p v → reads (<[Z.to_nat n.2:=<[Z.to_nat n.1:=L]> row]> lab) p v)
        as Hsame.
      { intros v Hv. unfold reads in *. destruct Hp as [Hpx Hpy].
        erewrite getitem_setitem_ne; [exact Hv|exact Hs|exact Hx|exact Hy|done|done| |exact Hset].
        intros Heq. apply Hne. destruct p, n. cbn in *. congruence. }
      specialize (Hrd p Hp). case_bool_decide; auto.
  - apply NoDup_app. split_and!; [done| |apply NoDup_singleton].
    intros p Hp Hp'. apply list_elem_of_singleton in Hp' as ->. done.
  - intros p [Hp|Hp]%elem_of_app; [by apply Hsound|].
    apply list_elem_of_singleton in Hp as ->. done.
Qed.

Lemma label_neighbor_spec all lab Q cx cy d :
  fill_core all lab → (cx, cy) ∈ all →
  adjacent (cx, cy) (cx + d.1, cy + d.2) →
  ∃ lab' extra,
    label_neighbor w h I L cx cy d (lab, Q) = Done (lab', Q ++ extra)
    ∧ fill_core (all ++ extra) lab'
    ∧ (in_bounds w h (cx + d.1, cy + d.2) → holds I (cx + d.1, cy + d.2) →
       (cx + d.1, cy + d.2) ∈ all ++ extra).
Proof.
  intros Hcore Hc Hadj. pose proof Hcore as (Hs & Hrd & Hnd & Hsound).
  unfold label_neighbor. cbn.
  set (nx := cx + d.1) in *. set (ny := cy + d.2) in *.
  destruct (decide (in_bounds w h (nx, ny))) as [Hin|Hout].
  - pose proof Hin as [Hx Hy]. cbn in Hx, Hy.
    rewrite !bool_decide_eq_true_2 by done. cbn.
    destruct (getitem_is_Done I h w ny nx HI Hx Hy) as [i Hi]. rewrite Hi. cbn.
    destruct i.
    + destruct (getitem_is_Done lab h w ny nx Hs Hx Hy) as [l Hl]. rewrite Hl. cbn.
      destruct (reads_total lab0 h w (nx, ny) Hlab0 Hin) as [v0 Hv0].
      case_bool_decide as Hl0; cbn;
        pose proof (Hrd (nx, ny) Hin) as Hv.
      * subst l. case_bool_decide as Hmem.
        { assert (L = 0) by (eapply reads_fun; [exact Hv|exact Hl]). lia. }
        specialize (Hv _ Hv0).
        assert (v0 = 0) as -> by (eapply reads_fun; [exact Hv|exact Hl]).
        destruct (fill_core_mark all lab (nx, ny) Hcore Hmem Hin Hi Hv0)
          as (lab' & Hset & Hcore').
        { destruct (Hsound _ Hc) as (_ & _ & _ & Hconn).
          eapply connected_step; eauto. }
        cbn in Hset. rewrite Hset. cbn.
        exists lab', [(nx, ny)]. split_and!; [done..|].
        intros _ _. apply elem_of_app. right. by left.
      * exists lab, []. rewrite !app_nil_r. split_and!; [done..|].
        intros _ _. case_bool_decide as Hmem; [done|]. exfalso.
        specialize (Hv _ Hv0).
        assert (v0 = l) as -> by (eapply reads_fun; [exact Hv|exact Hl]).
        destruct (Hsound _ Hc) as (Hcin & HIc & Hc0 & _).
        assert (reads lab0 (cx, cy) l) as Hcl.
        { exact (Hclosed0 (nx, ny) (cx, cy) l Hin Hcin (adjacent_sym _ _ Hadj) Hv0 Hl0 HIc). }
        apply Hl0. eapply reads_fun; [exact Hcl|exact Hc0].
    + exists lab, []. rewrite !app_nil_r. split_and!; [done..|].
      intros _ Hh'. unfold holds in Hh'. cbn in Hh'. congruence.
  - assert (bool_decide (0 ≤ nx < w) && bool_decide (0 ≤ ny < h) = false) as ->.
    { apply andb_false_iff. unfold in_bounds in Hout. cbn in Hout.
      destruct (decide (0 ≤ nx < w)); [right|left];
        apply bool_decide_eq_false_2; tauto. }
    exists lab, []. rewrite !app_nil_r. split_and!; [done..|]. tauto.
Qed.

Lemma label_all_spec all lab Q cx cy :
  fill_core all lab → (cx, cy) ∈ all →
  ∃ lab' extra,
    for_ dirs (label_neighbor w h I L cx cy) (lab, Q) = Done (lab', Q ++ extra)
    ∧ fill_core (all ++ extra) lab'
    ∧ (∀ q, adjacent (cx, cy) q → in_bounds w h q → holds I q → q ∈ all ++ extra).
Proof.
  intros Hcore Hc.
  destruct (for_invariant
    (λ pre (st : ndarray.t Z * list pixel), ∃ extra,
       st.2 = Q ++ extra ∧ fill_core (all ++ extra) st.1
       ∧ ∀ d, d ∈ pre → in_bounds w h (cx + d.1, cy + d.2) →
              holds I (cx + d.1, cy + d.2) → (cx + d.1, cy + d.2) ∈ all ++ extra)
    dirs (label_neighbor w h I L cx cy) (lab, Q)) as ([lab' Q'] & Hrun & extra & HQ & Hcore' & Hcl).
  - exists []. rewrite !app_nil_r. split_and!; [done..|].
    intros d Hd. by apply elem_of_nil in Hd.
  - intros pre d post [lab1 Q1] Hdirs (extra & HQ1 & Hcore1 & Hcl1). cbn in HQ1. subst Q1.
    destruct (label_neighbor_spec (all ++ extra) lab1 (Q ++ extra) cx cy d)
      as (lab2 & extra2 & Hrun & Hcore2 & Hnew); [done| | |].
    + apply elem_of_app. by left.
    + apply adjacent_dirs. exists d. split; [|done].
      rewrite Hdirs. apply elem_of_app. right. by left.
    + eexists. split; [exact Hrun|]. exists (extra ++ extra2). cbn.
      rewrite !app_assoc. split_and!; [done..|].
      intros d' [Hd'|Hd']%elem_of_app Hin Hh'.
      * apply elem_of_app. left. by apply Hcl1.
      * apply list_elem_of_singleton in Hd' as ->. by apply Hnew.
  - cbn in HQ. subst Q'. exists lab', extra. split_and!; [done..|].
    intros q Hadj Hin Hh'.
    apply adjacent_dirs in Hadj as (d & Hd & ->). cbn in *.
    by apply Hcl.
Qed.

Lemma fill_core_bound all lab :
  fill_core all lab → Z.of_nat (length all) ≤ w * h.
Proof.
  intros (_ & _ & Hnd & Hsound).
  apply NoDup_in_bounds_length; [done..|].
  intros p Hp. by apply Hsound.
Qed.

Lemma fill_spec fuel done st :
  fill_inv done st →
  (fill w h I L fuel st = OutOfFuel
   ∧ Z.of_nat fuel + Z.of_nat (length done) < w * h)
  ∨ (∃ st' done',
       fill w h I L fuel st = Done st'
       ∧ comp_queue st' = []
       ∧ fill_inv done' st').
Proof.
  revert done st.
  induction fuel as [|fuel IH]; intros done [lab Q x0 y0 x1 y1 a] Hinv.
  - destruct Q as [|[cx cy] Q]; cbn.
    + right. eexists _, done. split_and!; [done..].
    + left. split; [done|]. destruct Hinv as (Hcore & _).
      apply fill_core_bound in Hcore. cbn in Hcore.
      rewrite length_app in Hcore. cbn in Hcore. lia.
  - destruct Q as [|[cx cy] Q]; cbn.
    + right. eexists _, done. split_and!; [done..].
    + destruct Hinv as (Hcore & Hclosed & Harea & Hbox & Hx0 & Hx1 & Hy0 & Hy1 & Hseed).
      cbn in *.
      destruct (label_all_spec (done ++ (cx, cy) :: Q) lab Q cx cy Hcore)
        as (lab' & extra & Hrun & Hcore' & Hcl).
      { apply elem_of_app. right. by left. }
      rewrite Hrun. cbn.
      assert ((done ++ (cx, cy) :: Q) ++ extra = (done ++ [(cx, cy)]) ++ (Q ++ extra))
        as Heq by (by rewrite <- !app_assoc).
      assert (∀ p, p ∈ done ++ (cx, cy) :: Q → p ∈ (done ++ [(cx, cy)]) ++ (Q ++ extra))
        as Hmono.
      { intros p Hp. rewrite <- Heq. apply elem_of_app. by left. }
      assert ((cx, cy) ∈ (done ++ [(cx, cy)]) ++ (Q ++ extra)) as Hcmem.
      { apply Hmono, elem_of_app. right. by left. }
      rewrite Heq in Hcore', Hcl.
      match goal with |- context [fill w h I L fuel ?st] =>
        destruct (IH (done ++ [(cx, cy)]) st) as [[Hout Hlt]|Hok] end.
      * split_and!; cbn.
        -- done.
        -- intros p q [Hp|Hp]%elem_of_app Hadj Hin Hq.
           ++ apply Hmono. by eapply Hclosed.
           ++ apply list_elem_of_singleton in Hp as ->. by apply Hcl.
        -- rewrite length_app. cbn. lia.
        -- intros p [Hp|Hp]%elem_of_app.
           ++ specialize (Hbox p Hp). lia.
           ++ apply list_elem_of_singleton in Hp as ->. cbn. lia.
        -- destruct (decide (cx < x0)).
           ++ exists (cx, cy). split; [done|cbn; lia].
           ++ destruct Hx0 as (p & Hp & Hpx). exists p. split; [by apply Hmono|lia].
        -- destruct (decide (x1 < cx)).
           ++ exists (cx, cy). split; [done|cbn; lia].
           ++ destruct Hx1 as (p & Hp & Hpx). exists p. split; [by apply Hmono|lia].
        -- destruct (decide (cy < y0)).
           ++ exists (cx, cy). split; [done|cbn; lia].
           ++ destruct Hy0 as (p & Hp & Hpx). exists p. split; [by apply Hmono|lia].
        -- destruct (decide (y1 < cy)).
           ++ exists (cx, cy). split; [done|cbn; lia].
           ++ destruct Hy1 as (p & Hp & Hpx). exists p. split; [by apply Hmono|lia].
        -- by apply Hmono.
      * left. split; [done|]. rewrite length_app in Hlt. cbn in Hlt. lia.
      * right. done.
Qed.

End fill_facts.

(** ** The labelling scan *)

Lemma elem_of_cells_labeled w h lab k p :
  p ∈ cells_labeled w h lab k ↔ in_bounds w h p ∧ reads lab p k.
Proof.
  unfold cells_labeled. rewrite list_elem_of_filter, elem_of_cells.
  unfold reads. tauto.
Qed.

Lemma NoDup_cells_labeled w h lab k : NoDup (cells_labeled w h lab k).
Proof. apply NoDup_filter, NoDup_cells. Qed.

(** The cells labeled [k], listed once each in any order, number
    [count_labeled]. *)
Lemma count_labeled_list w h lab k (l : list pixel) :
  NoDup l → (∀ p, p ∈ l ↔ in_bounds w h p ∧ reads lab p k) →
  count_labeled w h lab k = Z.of_nat (length l).
Proof.
  intros Hnd Hl. unfold count_labeled. f_equal.
  apply Permutation_length, NoDup_Permutation;
    [apply NoDup_cells_labeled|done|].
  intros p. rewrite elem_of_cells_labeled, Hl. done.
Qed.

Lemma describes_ext w h lab lab' k c :
  (∀ p, in_bounds w h p → reads lab p k ↔ reads lab' p k) →
  describes w h lab k c → describes w h lab' k c.
Proof.
  intros Hext (Harea & Hbox & Hx0 & Hx1 & Hy0 & Hy1).
  split_and!.
  - rewrite Harea.
    apply count_labeled_list; [apply NoDup_cells_labeled|].
    intros p. rewrite elem_of_cells_labeled. split; intros [? ?]; split; try done;
      by apply Hext.
  - intros p Hp Hr. apply Hbox; [done|]. by apply Hext.
  - destruct Hx0 as (p & ? & ? & ?). exists p. split_and!; [done| |done]. by apply Hext.
  - destruct Hx1 as (p & ? & ? & ?). exists p. split_and!; [done| |done]. by apply Hext.
  - destruct Hy0 as (p & ? & ? & ?). exists p. split_and!; [done| |done]. by apply Hext.
  - destruct Hy1 as (p & ? & ? & ?). exists p. split_and!; [done| |done]. by apply Hext.
Qed.

Lemma elem_of_cells_marked w h a p :
  ndarray.shape a h w →
  p ∈ cells_marked w h a ↔ in_bounds w h p ∧ marked a p.
Proof.
  intros Hs. unfold cells_marked. rewrite list_elem_of_filter, elem_of_cells.
  split.
  - intros [Hne Hp]. split; [done|].
    destruct (reads_total a h w p Hs Hp) as [v Hv]. exists v. split; [done|].
    intros ->. done.
  - intros [Hp (v & Hv & Hv0)]. split; [|done].
    unfold reads in Hv. rewrite Hv. congruence.
Qed.

Lemma total_area_snoc l c : total_area (l ++ [c]) = total_area l + c_area c.
Proof. unfold total_area. induction l as [|d l IH]; cbn; lia. Qed.

Section scan_facts.
Context (w h : Z) (I : ndarray.t bool).
Context (Hw : 0 ≤ w) (Hh : 0 ≤ h) (HI : ndarray.shape I h w).
Context (Hsmall : w * h < 2 ^ 31).

(** Labels are 0 or one of 1..[label], and only interior cells are labeled. *)
Definition labels_ok (lab : ndarray.t Z) (label : Z) : Prop :=
  ∀ p, in_bounds w h p →
    ∃ v, reads lab p v ∧ 0 ≤ v ≤ label ∧ (v ≠ 0 → holds I p).

(** Cells of one label are connected through interior cells. *)
Definition labels_connected (lab : ndarray.t Z) : Prop :=
  ∀ p q v, in_bounds w h p → in_bounds w h q →
    reads lab p v → v ≠ 0 → reads lab q v → connected w h I p q.

(** The first cell of each label comes after the first cells of the
    smaller labels: before the [i]-th scanned cell, where label [k] starts,
    all labels are smaller than [k]. *)
Definition labels_ordered (pre : list pixel) (lab : ndarray.t Z) (label : Z) : Prop :=
  ∀ k, 1 ≤ k ≤ label →
    ∃ i p, pre !! i = Some p ∧ reads lab p k
           ∧ ∀ j q, (j < i)%nat → pre !! j = Some q → ∃ v, reads lab q v ∧ v < k.

(** The invariant of the scan once the cells [pre] are done. *)
Definition scan_inv (pre : list pixel) (st : scan_state) : Prop :=
  let '(lab, label, comps) := st in
  ndarray.shape lab h w
  ∧ labels_ok lab label
  ∧ labels_closed w h I lab
  ∧ labels_connected lab
  ∧ (∀ p, p ∈ pre → holds I p → marked lab p)
  ∧ Z.of_nat (length comps) = label
  ∧ label ≤ Z.of_nat (length pre)
  ∧ (∀ k c, comps !! k = Some c → describes w h lab (Z.of_nat k + 1) c)
  ∧ labels_ordered pre lab label
  ∧ total_area comps = Z.of_nat (length (cells_marked w h lab)).

Lemma scan_inv_skip pre p st :
  scan_inv pre st → (holds I p → marked st.1.1 p) → scan_inv (pre ++ [p]) st.
Proof.
  destruct st as [[lab label] comps]. cbn.
  intros (Hs & Hok & Hcl & Hconn & Hpre & Hlen & Hle & Hdesc & Hord & Htotal) Hp.
  split_and!; [done|done|done|done| |done| |done| |done].
  - intros q [Hq|Hq]%elem_of_app; [by apply Hpre|].
    apply list_elem_of_singleton in Hq as ->. done.
  - rewrite length_app. cbn. lia.
  - intros k Hk. destruct (Hord k Hk) as (i & q & Hi & Hq & Hbefore).
    pose proof (lookup_lt_Some _ _ _ Hi) as Hlt.
    exists i, q. split_and!; [by rewrite lookup_app_l|done|].
    intros j r Hj Hr. rewrite lookup_app_l in Hr by lia. eauto.
Qed.

Lemma scan_inv_fill pre x y post lab0 label comps done st :
  cells w h = pre ++ (x, y) :: post →
  scan_inv pre (lab0, label, comps) →
  holds I (x, y) → reads lab0 (x, y) 0 →
  fill_inv w h I lab0 (label + 1) (x, y) done st → comp_queue st = [] →
  scan_inv (pre ++ [(x, y)])
    (labeled st, label + 1,
     comps ++ [Component (area st) (min_x st) (min_y st)
                         (max_x st - min_x st + 1) (max_y st - min_y st + 1)]).
Proof.
  intros Hcells
    (Hs0 & Hok0 & Hcl0 & Hconn0 & Hpre0 & Hlen0 & Hle0 & Hdesc0 & Hord0 & Htotal0)
    HIs Hs0' Hfill HQ.
  assert (∀ p, p ∈ pre → in_bounds w h p) as Hpre_in.
  { intros p Hp. apply elem_of_cells. rewrite Hcells. apply elem_of_app. by left. }
  destruct Hfill as (Hcore & Hclosed & Harea & Hbox & Hx0 & Hx1 & Hy0 & Hy1 & Hseed).
  rewrite HQ, app_nil_r in *.
  destruct Hcore as (Hs & Hrd & Hnd & Hsound).
  set (lab := labeled st) in *. clearbody lab.
  set (L := label + 1) in *.
  assert (L = label + 1) as HLdef by done. clearbody L.
  assert (0 ≤ label) as Hlabel0 by lia.
  (* how [lab] reads *)
  assert (∀ p, p ∈ done → reads lab p L) as Hnew.
  { intros p Hp. destruct (Hsound p Hp) as (Hpin & _).
    specialize (Hrd p Hpin). by rewrite bool_decide_eq_true_2 in Hrd. }
  assert (∀ p v, in_bounds w h p → p ∉ done → reads lab0 p v ↔ reads lab p v) as Hkeep.
  { intros p v Hpin Hp. specialize (Hrd p Hpin).
    rewrite bool_decide_eq_false_2 in Hrd by done. split; [by apply Hrd|].
    intros Hv. destruct (reads_total lab0 h w p Hs0 Hpin) as [v0 Hv0].
    by rewrite (reads_fun _ _ _ _ Hv (Hrd _ Hv0)). }
  assert (∀ p v, in_bounds w h p → reads lab0 p v → v ≤ label) as Hold.
  { intros p v Hpin Hv. destruct (Hok0 p Hpin) as (v' & Hv' & ? & _).
    rewrite (reads_fun _ _ _ _ Hv Hv'). lia. }
  assert (∀ p, in_bounds w h p → reads lab p L → p ∈ done) as HL.
  { intros p Hpin Hv. destruct (decide (p ∈ done)) as [|Hp]; [done|].
    apply (Hkeep p L Hpin Hp) in Hv. apply Hold in Hv; [|done]. lia. }
  assert (∀ p v, in_bounds w h p → v ≠ 0 → reads lab0 p v → p ∉ done) as Hfresh.
  { intros p v Hpin Hv0 Hv Hp. destruct (Hsound p Hp) as (_ & _ & H0 & _).
    apply Hv0. eapply reads_fun; eauto. }
  assert (∀ p, p ∈ pre → p ∉ done) as Hscanned.
  { intros p Hp Hd. destruct (Hsound p Hd) as (Hpin & HIp & H0 & _).
    destruct (Hpre0 p Hp HIp) as (v & Hv & Hv0).
    by apply (Hfresh p v Hpin Hv0 Hv). }
  split_and!.
  - done.
  - intros p Hpin. destruct (decide (p ∈ done)) as [Hp|Hp].
    + exists L. split_and!; [by apply Hnew|lia|lia|].
      intros _. by apply Hsound.
    + destruct (Hok0 p Hpin) as (v & Hv & Hrange & Hint).
      exists v. split_and!; [by apply Hkeep|lia|lia|done].
  - intros p q v Hpin Hqin Hadj Hv Hv0 HIq.
    destruct (decide (p ∈ done)) as [Hp|Hp].
    + rewrite (reads_fun _ _ _ _ Hv (Hnew p Hp)). apply Hnew. by eapply Hclosed.
    + apply Hkeep in Hv; [|done..].
      pose proof (Hcl0 p q v Hpin Hqin Hadj Hv Hv0 HIq) as Hq.
      apply Hkeep; [done| |done]. by eapply Hfresh.
  - intros p q v Hpin Hqin Hv Hv0 Hq.
    destruct (decide (p ∈ done)) as [Hp|Hp].
    + pose proof (reads_fun _ _ _ _ Hv (Hnew p Hp)) as ->.
      apply HL in Hq; [|done].
      destruct (Hsound p Hp) as (_ & _ & _ & Hsp).
      destruct (Hsound q Hq) as (_ & _ & _ & Hsq).
      eapply connected_trans; [|exact Hsq]. by apply connected_sym.
    + apply Hkeep in Hv; [|done..].
      assert (q ∉ done) as Hqd.
      { intros Hqd. pose proof (reads_fun _ _ _ _ Hq (Hnew q Hqd)) as ->.
        apply Hold in Hv; [|done]. lia. }
      apply Hkeep in Hq; [|done..]. by eapply Hconn0.
  - intros p [Hp|Hp]%elem_of_app HIp.
    + destruct (Hpre0 p Hp HIp) as (v & Hv & Hv0).
      exists v. split; [|done]. apply Hkeep; [by apply Hpre_in|by apply Hscanned|done].
    + apply list_elem_of_singleton in Hp as ->. exists L. split; [by apply Hnew|lia].
  - rewrite length_app. cbn. lia.
  - rewrite length_app. cbn. lia.
  - intros k c Hk. apply lookup_snoc_Some in Hk as [[Hlt Hk]|[Hk <-]].
    + apply (describes_ext w h lab0); [|by eapply Hdesc0].
      intros p Hpin. destruct (decide (p ∈ done)) as [Hp|Hp].
      * split; intros Hv.
        -- exfalso. destruct (Hsound p Hp) as (_ & _ & H0 & _).
           pose proof (reads_fun _ _ _ _ Hv H0). lia.
        -- exfalso. pose proof (reads_fun _ _ _ _ Hv (Hnew p Hp)). lia.
      * by apply Hkeep.
    + replace (Z.of_nat k + 1) with L by lia. split_and!; cbn.
      * rewrite Harea. symmetry. apply count_labeled_list; [done|].
        intros p. split; [intros Hp|intros [? ?]; by apply HL].
        split; [by apply Hsound|by apply Hnew].
      * intros p Hpin Hv. apply HL in Hv; [|done]. specialize (Hbox p Hv). lia.
      * destruct Hx0 as (p & Hp & Hpx). exists p.
        split_and!; [by apply Hsound|by apply Hnew|done].
      * destruct Hx1 as (p & Hp & Hpx). exists p.
        split_and!; [by apply Hsound|by apply Hnew|lia].
      * destruct Hy0 as (p & Hp & Hpx). exists p.
        split_and!; [by apply Hsound|by apply Hnew|done].
      * destruct Hy1 as (p & Hp & Hpx). exists p.
        split_and!; [by apply Hsound|by apply Hnew|lia].
  - assert (∀ j q, pre !! j = Some q → in_bounds w h q ∧ q ∉ done) as Hat.
    { intros j q Hq. apply list_elem_of_lookup_2 in Hq. auto. }
    intros k Hk. destruct (decide (k = L)) as [->|Hne].
    + exists (length pre), (x, y). split_and!.
      * by rewrite list_lookup_middle.
      * by apply Hnew.
      * intros j q Hj Hq. rewrite lookup_app_l in Hq by done.
        destruct (Hat j q Hq) as [Hqin Hqd].
        destruct (Hok0 q Hqin) as (v & Hv & Hrange & _).
        exists v. split; [by apply Hkeep|lia].
    + destruct (Hord0 k) as (i & p & Hi & Hp & Hbefore); [lia|].
      pose proof (lookup_lt_Some _ _ _ Hi) as Hlt.
      exists i, p. split_and!; [by rewrite lookup_app_l| |].
      * destruct (Hat i p Hi) as [Hpin Hpd]. by apply Hkeep.
      * intros j q Hj Hq. rewrite lookup_app_l in Hq by lia.
        destruct (Hat j q Hq) as [Hqin Hqd].
        destruct (Hbefore j q Hj Hq) as (v & Hv & Hvk).
        exists v. split; [by apply Hkeep|done].
  - rewrite total_area_snoc, Htotal0, Harea. cbn. rewrite <- Nat2Z.inj_add, <- length_app.
    f_equal. apply Permutation_length. symmetry.
    assert (∀ p, p ∈ cells_marked w h lab0 → p ∉ done) as Hdisj.
    { intros p [Hpin (v & Hv & Hv0)]%elem_of_cells_marked; [|done]. by eapply Hfresh. }
    apply NoDup_Permutation.
    + apply NoDup_filter, NoDup_cells.
    + apply NoDup_app. split_and!; [apply NoDup_filter, NoDup_cells| |done].
      intros p Hp Hd. by apply (Hdisj p).
    + intros p. rewrite elem_of_app, !elem_of_cells_marked by done. split.
      * intros [Hpin (v & Hv & Hv0)].
        destruct (decide (p ∈ done)) as [|Hp]; [by right|]. left.
        split; [done|]. exists v. split; [|done]. by apply Hkeep.
      * intros [[Hpin (v & Hv & Hv0)]|Hp].
        -- split; [done|]. exists v. split; [|done].
           apply Hkeep; [done| |done]. by eapply Hfresh.
        -- split; [by apply Hsound|]. exists L. split; [by apply Hnew|lia].
Qed.

Lemma scan_cell_spec fuel pre x y post st :
  w * h ≤ Z.of_nat fuel →
  cells w h = pre ++ (x, y) :: post → scan_inv pre st →
  ∃ st', scan_cell w h I fuel x y st = Done st'
         ∧ scan_inv (pre ++ [(x, y)]) st'.
Proof.
  intros Hfuel Hcells Hinv. destruct st as [[lab label] comps].
  assert (in_bounds w h (x, y)) as Hin.
  { apply elem_of_cells. rewrite Hcells. apply elem_of_app. right. by left. }
  assert (Z.of_nat (length pre) < w * h) as Hroom.
  { rewrite <- length_cells, Hcells, length_app by done. cbn. lia. }
  pose proof Hinv as (Hs & Hok & Hcl & Hconn & Hpre & Hlen & Hle & Hdesc & Hord & _).
  pose proof Hin as [Hx Hy]. cbn in Hx, Hy.
  unfold scan_cell.
  destruct (getitem_is_Done I h w y x HI Hx Hy) as [i Hi]. rewrite Hi. cbn.
  destruct i.
  - destruct (getitem_is_Done lab h w y x Hs Hx Hy) as [l Hl]. rewrite Hl. cbn.
    case_bool_decide as Hl0; cbn.
    + subst l.
      assert (1 ≤ label + 1 < 2 ^ 31) as HL by lia.
      destruct (fill_core_mark w h I lab (label + 1) (x, y) HL [] lab (x, y))
        as (lab1 & Hset & Hcore1); [|by apply not_elem_of_nil|done|done|done| |].
      { split_and!; [done| |apply NoDup_nil_2|].
        - intros p _. by rewrite bool_decide_eq_false_2 by apply not_elem_of_nil.
        - intros p Hp. by apply elem_of_nil in Hp. }
      { by apply connected_refl. }
      cbn in Hset. rewrite Hset. cbn.
      match goal with |- context [fill w h I ?L fuel ?st0] =>
        destruct (fill_spec w h I lab L (x, y) Hw Hh HI Hs HL Hcl fuel [] st0)
          as [[_ Hlt]|(st' & done' & Hrun & HQ & Hfill)] end.
      * split_and!; cbn; [done| |done| | | | | |].
        -- intros p q Hp. by apply elem_of_nil in Hp.
        -- intros p Hp. by apply elem_of_nil in Hp.
        -- exists (x, y). split; [by left|done].
        -- exists (x, y). split; [by left|done].
        -- exists (x, y). split; [by left|done].
        -- exists (x, y). split; [by left|done].
        -- by left.
      * cbn in Hlt. lia.
      * rewrite Hrun. cbn. eexists. split; [done|].
        by eapply scan_inv_fill.
    + eexists. split; [done|]. apply scan_inv_skip; [done|].
      intros _. exists l. done.
  - eexists. split; [done|]. apply scan_inv_skip; [done|].
    intros HIp. unfold holds in HIp. cbn in HIp. congruence.
Qed.

Lemma scan_inv_zeros : scan_inv [] (ndarray.zeros h w, 0, []).
Proof.
  assert (∀ p v, in_bounds w h p → reads (ndarray.zeros h w) p v → v = 0) as Hz.
  { intros p v [Hx Hy] Hv. unfold reads in Hv.
    rewrite getitem_zeros in Hv by done. congruence. }
  split_and!.
  - apply zeros_shape.
  - intros p [Hx Hy]. exists 0. split_and!; [by apply getitem_zeros|lia|lia|done].
  - intros p q v Hp _ _ Hv Hv0. by apply Hz in Hv.
  - intros p q v Hp _ Hv Hv0. by apply Hz in Hv.
  - intros p Hp. by apply elem_of_nil in Hp.
  - done.
  - done.
  - intros k c Hk. by rewrite lookup_nil in Hk.
  - intros k Hk. lia.
  - cbn. destruct (cells_marked w h (ndarray.zeros h w)) as [|p l] eqn:Hc; [done|].
    assert (p ∈ cells_marked w h (ndarray.zeros h w)) as Hp by (rewrite Hc; by left).
    apply elem_of_cells_marked in Hp as [Hp (v & Hv & Hv0)]; [|apply zeros_shape].
    by apply Hz in Hv.
Qed.

Lemma label_interior_cells fuel :
  label_interior w h I fuel
  = for_ (cells w h) (λ p, scan_cell w h I fuel p.1 p.2) (ndarray.zeros h w, 0, []).
Proof.
  unfold label_interior, cells. rewrite for_bind.
  apply for_ext. intros y st _. rewrite for_bind.
  apply for_ext. intros x st' _. unfold for_. cbn.
  by rewrite bind_Done_r.
Qed.

Lemma label_interior_spec fuel :
  w * h ≤ Z.of_nat fuel →
  ∃ st, label_interior w h I fuel = Done st ∧ scan_inv (cells w h) st.
Proof.
  intros Hfuel. rewrite label_interior_cells.
  apply (for_invariant scan_inv); [apply scan_inv_zeros|].
  intros pre [x y] post st Hcells Hinv. cbn.
  by eapply scan_cell_spec.
Qed.

End scan_facts.

(** ** The report *)

Lemma insert_by_area_perm c l : insert_by_area c l ≡ₚ c :: l.
Proof.
  induction l as [|d l IH]; cbn; [done|].
  case_bool_decide; [done|]. rewrite IH. apply Permutation_swap.
Qed.

Lemma sort_by_area_perm l : sort_by_area l ≡ₚ l.
Proof.
  induction l as [|c l IH]; cbn; [done|].
  rewrite insert_by_area_perm. by rewrite IH.
Qed.

Lemma non_increasing_cons c l :
  non_increasing (c :: l)
  ↔ (∀ d, d ∈ l → c_area d ≤ c_area c) ∧ non_increasing l.
Proof.
  split.
  - intros Hni. split.
    + intros d Hd. apply list_elem_of_lookup in Hd as [j Hj].
      apply (Hni 0%nat (S j) c d); [lia|done|done].
    + intros i j ci cj Hij Hi Hj. apply (Hni (S i) (S j)); [lia|done|done].
  - intros [Hhead Htail] i j ci cj Hij Hi Hj.
    destruct i as [|i], j as [|j]; cbn in *; simplify_eq; try lia.
    + apply Hhead. by eapply list_elem_of_lookup_2.
    + apply (Htail i j); [lia|done|done].
Qed.

Lemma insert_by_area_sorted c l :
  non_increasing l → non_increasing (insert_by_area c l).
Proof.
  induction l as [|d l IH]; intros Hni; cbn.
  - apply non_increasing_cons. split; [|done].
    intros d Hd. by apply elem_of_nil in Hd.
  - pose proof Hni as [Hd Hl]%non_increasing_cons.
    case_bool_decide as Hdc.
    + apply non_increasing_cons. split; [|done].
      intros e [->|He]%elem_of_cons; [done|]. specialize (Hd e He). lia.
    + apply non_increasing_cons. split; [|by apply IH].
      intros e He. rewrite insert_by_area_perm in He.
      apply elem_of_cons in He as [->|He]; [lia|by apply Hd].
Qed.

Lemma sort_by_area_sorted l : non_increasing (sort_by_area l).
Proof.
  induction l as [|c l IH]; cbn.
  - intros i j ci cj _ Hi. by rewrite lookup_nil in Hi.
  - by apply insert_by_area_sorted.
Qed.

(** Stability: the entries of any one area keep their order. *)
Lemma insert_by_area_stable a c l :
  filter (λ d, c_area d = a) (insert_by_area c l)
  = filter (λ d, c_area d = a) (c :: l).
Proof.
  induction l as [|d l IH]; cbn; [done|].
  case_bool_decide as Hdc; [done|].
  rewrite !filter_cons in *.
  destruct (decide (c_area d = a)) as [Hd|Hd];
    destruct (decide (c_area c = a)) as [Hc|Hc]; try lia; by rewrite IH.
Qed.

Lemma sort_by_area_stable a l :
  filter (λ d, c_area d = a) (sort_by_area l) = filter (λ d, c_area d = a) l.
Proof.
  unfold sort_by_area. induction l as [|c l IH]; cbn; [done|].
  rewrite insert_by_area_stable, !filter_cons, IH. done.
Qed.

Lemma length_hole_entries limit l :
  length (hole_entries limit l) = (limit `min` length l)%nat.
Proof. unfold hole_entries. by rewrite length_imap, length_take. Qed.

Lemma lookup_hole_entries limit l i c :
  (i < limit)%nat → l !! i = Some c →
  hole_entries limit l !! i = Some (Z.of_nat i + 1, c).
Proof.
  intros Hi Hc. unfold hole_entries.
  rewrite list_lookup_imap, lookup_take_lt, Hc by done. done.
Qed.

(** The report has the [Found] line and one line per hole entry. *)
Lemma length_report limit comps :
  length (report limit comps).2 = S (limit `min` length comps).
Proof.
  unfold report. cbn.
  by rewrite length_fmap, length_hole_entries,
    (Permutation_length (sort_by_area_perm comps)).
Qed.

Lemma lookup_report_found limit comps :
  (report limit comps).2 !! 0%nat
  = Some ("Found " +:+ pretty (Z.of_nat (length comps)) +:+ " interior holes").
Proof.
  unfold report. cbn.
  by rewrite (Permutation_length (sort_by_area_perm comps)).
Qed.

(** The text of the hole line of rank [i + 1]. *)
Lemma lookup_report_hole limit comps i c :
  (i < limit)%nat → sort_by_area comps !! i = Some c →
  (report limit comps).2 !! S i
  = Some ("  Hole " +:+ pretty (Z.of_nat i + 1)
          +:+ ": area=" +:+ pretty (c_area c)
          +:+ ", x=" +:+ pretty (c_x c) +:+ ", y=" +:+ pretty (c_y c)
          +:+ ", w=" +:+ pretty (c_w c) +:+ ", h=" +:+ pretty (c_h c)).
Proof.
  intros Hi Hc. unfold report. cbn [snd].
  rewrite lookup_cons_ne_0, Nat.pred_succ by done.
  by rewrite list_lookup_fmap, (lookup_hole_entries _ _ _ _ Hi Hc).
Qed.

(** ** More fuel changes nothing *)

Lemma bind_Done_inv {A B} (m : outcome A) (f : A → outcome B) r :
  m ≫= f = Done r → ∃ a, m = Done a ∧ f a = Done r.
Proof. destruct m as [a| |]; cbn; [eauto|done..]. Qed.

Lemma for_Done_impl {A S} (l : list A) (body body' : A → S → outcome S) s r :
  (∀ a s r, body a s = Done r → body' a s = Done r) →
  for_ l body s = Done r → for_ l body' s = Done r.
Proof.
  intros Himpl. revert s. induction l as [|a l IH]; intros s; [done|].
  unfold for_; fold (@for_ A S). intros (s1 & Hb & Hrest)%bind_Done_inv.
  rewrite (Himpl _ _ _ Hb). cbn. by apply IH.
Qed.

Lemma flood_loop_mono w h T ds fuel fuel' st r :
  (fuel ≤ fuel')%nat →
  flood_loop w h T ds fuel st = Done r → flood_loop w h T ds fuel' st = Done r.
Proof.
  revert fuel' st. induction fuel as [|fuel IH]; intros fuel' [vis Q] Hle;
    destruct Q as [|[cx cy] Q], fuel' as [|fuel']; cbn; try done; try lia.
  intros (st1 & Hb & Hrest)%bind_Done_inv. rewrite Hb. cbn.
  apply IH; [lia|done].
Qed.

Lemma border_flood_fill_mono w h T fuel fuel' r :
  (fuel ≤ fuel')%nat →
  border_flood_fill w h T fuel = Done r → border_flood_fill w h T fuel' = Done r.
Proof.
  intros Hle. unfold border_flood_fill.
  intros (st1 & Hb & (st2 & Hl & Hr)%bind_Done_inv)%bind_Done_inv.
  rewrite Hb. cbn. by rewrite (flood_loop_mono _ _ _ _ _ _ _ _ Hle Hl).
Qed.

Lemma fill_mono w h I L fuel fuel' st r :
  (fuel ≤ fuel')%nat →
  fill w h I L fuel st = Done r → fill w h I L fuel' st = Done r.
Proof.
  revert fuel' st. induction fuel as [|fuel IH];
    intros fuel' [lab Q x0 y0 x1 y1 a] Hle;
    destruct Q as [|[cx cy] Q], fuel' as [|fuel']; cbn; try done; try lia.
  intros ([lab' Q'] & Hb & Hrest)%bind_Done_inv. rewrite Hb. cbn.
  apply IH; [lia|done].
Qed.

Lemma scan_cell_mono w h I fuel fuel' x y st r :
  (fuel ≤ fuel')%nat →
  scan_cell w h I fuel x y st = Done r → scan_cell w h I fuel' x y st = Done r.
Proof.
  intros Hle. unfold scan_cell. destruct st as [[lab label] comps].
  destruct (ndarray.getitem I y x) as [[]| |]; cbn; try done.
  destruct (ndarray.getitem lab y x) as [l| |]; cbn; try done.
  case_bool_decide; [|done].
  destruct (setitem_int32 lab y x (label + 1)) as [lab1| |]; cbn; try done.
  intros (st1 & Hf & Hr)%bind_Done_inv.
  by rewrite (fill_mono _ _ _ _ _ _ _ _ Hle Hf).
Qed.

Lemma label_interior_mono w h I fuel fuel' r :
  (fuel ≤ fuel')%nat →
  label_interior w h I fuel = Done r → label_interior w h I fuel' = Done r.
Proof.
  intros Hle. unfold label_interior. apply for_Done_impl.
  intros y s r'. apply for_Done_impl.
  intros x s' r''. by apply scan_cell_mono.
Qed.

Lemma analyse_mono threshold limit fuel fuel' img a :
  (fuel ≤ fuel')%nat →
  analyse threshold limit fuel img = Done a →
  analyse threshold limit fuel' img = Done a.
Proof.
  intros Hle. unfold analyse. destruct (size img) as [w h].
  intros (vis & Hv & ([[lab label] comps] & Hl & Hr)%bind_Done_inv)%bind_Done_inv.
  rewrite (border_flood_fill_mono _ _ _ _ _ _ Hle Hv). cbn.
  by rewrite (label_interior_mono _ _ _ _ _ _ Hle Hl).
Qed.

(** Two completed runs agree, whatever their fuel. *)
Lemma analyse_fuel_irrelevant threshold limit fuel1 fuel2 img a1 a2 :
  analyse threshold limit fuel1 img = Done a1 →
  analyse threshold limit fuel2 img = Done a2 →
  a1 = a2.
Proof.
  intros H1 H2.
  apply (analyse_mono _ _ _ (fuel1 `max` fuel2)%nat) in H1; [|lia].
  apply (analyse_mono _ _ _ (fuel1 `max` fuel2)%nat) in H2; [|lia].
  congruence.
Qed.

(** ** The interior mask *)

Lemma interior_holds w h T vis p :
  ndarray.shape T h w → ndarray.shape vis h w → in_bounds w h p →
  holds (ndarray.elementwise2 andb T
           (ndarray.elementwise (λ v, bool_decide (v = 0)) vis)) p
  ↔ holds T p ∧ reads vis p 0.
Proof.
  intros HT Hvis [Hx Hy]. unfold holds, reads.
  destruct (getitem_is_Done T h w p.2 p.1 HT Hx Hy) as [t Ht].
  destruct (getitem_is_Done vis h w p.2 p.1 Hvis Hx Hy) as [v Hv].
  erewrite getitem_elementwise2; [|exact HT|by apply elementwise_shape|done|done|exact Ht|].
  2:{ eapply getitem_elementwise; eauto. }
  rewrite Ht, Hv. destruct t; cbn.
  - case_bool_decide as Hv0; [subst v; tauto|].
    split; [done|]. intros [_ [= ?]]. done.
  - split; [done|]. intros [[= ?] _].
Qed.

Lemma interior_shape w h T vis :
  ndarray.shape T h w → ndarray.shape vis h w →
  ndarray.shape (ndarray.elementwise2 andb T
           (ndarray.elementwise (λ v, bool_decide (v = 0)) vis)) h w.
Proof. intros. apply elementwise2_shape; [done|]. by apply elementwise_shape. Qed.

(** ** Grids without cells *)

Lemma cells_empty w h : w ≤ 0 ∨ h ≤ 0 → cells w h = [].
Proof.
  intros Hwh. destruct (cells w h) as [|p l] eqn:Hc; [done|].
  assert (p ∈ cells w h) as [Hx Hy]%elem_of_cells by (rewrite Hc; by left). lia.
Qed.

Lemma seqZ_nil m n : n ≤ 0 → seqZ m n = [].
Proof.
  intros Hn. apply length_zero_iff_nil. rewrite length_seqZ. lia.
Qed.

Lemma seed_raises (T : ndarray.t bool) x y st :
  ndarray.getitem T y x = Raise IndexError → seed T x y st = Raise IndexError.
Proof. intros HT. unfold seed. destruct st. by rewrite HT. Qed.

Lemma getitem_no_row {A} (a : ndarray.t A) y x :
  a = [] → ndarray.getitem a y x = Raise IndexError.
Proof.
  intros ->. unfold ndarray.getitem, ndarray.axis_index. cbn.
  rewrite !bool_decide_eq_false_2 by lia. done.
Qed.

Lemma getitem_no_column {A} (a : ndarray.t A) h y x :
  ndarray.shape a h 0 → 0 ≤ y < h → ndarray.getitem a y x = Raise IndexError.
Proof.
  intros Hs Hy. pose proof Hs as [Hlen _].
  destruct (lookup_lt_is_Some_2 a (Z.to_nat y)) as [row Hrow]; [lia|].
  pose proof (shape_row _ _ _ _ _ Hs Hrow) as Hrl.
  unfold ndarray.getitem, ndarray.lookup_or_raise.
  rewrite axis_index_in by lia. cbn. rewrite Hrow. cbn.
  unfold ndarray.axis_index. rewrite !bool_decide_eq_false_2 by lia. done.
Qed.

(** Without rows the first seeding loop fails at its first column. *)
Lemma seed_border_no_rows w T st :
  0 < w → T = [] → seed_border w 0 T st = Raise IndexError.
Proof.
  intros Hw HT. unfold seed_border. rewrite (seqZ_cons 0 w) by done.
  unfold for_ at 2; fold (@for_ Z flood_state).
  rewrite (seed_raises T 0 0) by (by apply getitem_no_row). done.
Qed.

(** Without columns the second seeding loop fails at row 1, if there is
    a row strictly between the first and the last. *)
Lemma seed_border_no_columns h T st :
  3 ≤ h → ndarray.shape T h 0 → seed_border 0 h T st = Raise IndexError.
Proof.
  intros Hh HT. unfold seed_border. rewrite (seqZ_nil 0 0) by done.
  unfold for_ at 2. cbn. rewrite (seqZ_cons 1) by lia.
  unfold for_; fold (@for_ Z flood_state).
  rewrite (seed_raises T 0 1) by (eapply getitem_no_column; [done|lia]). done.
Qed.

(** With no column and at most two rows, or no cell at all, nothing is
    seeded. *)
Lemma seed_border_nothing w h T st :
  w ≤ 0 → h ≤ 2 → seed_border w h T st = Done st.
Proof.
  intros Hw Hh. unfold seed_border.
  rewrite (seqZ_nil 0 w), (seqZ_nil 1) by lia. done.
Qed.

(** ** The whole run *)

Lemma border_flood_fill_total w h T fuel :
  0 < w → 0 < h → ndarray.shape T h w → w * h ≤ Z.of_nat fuel →
  ∃ vis, border_flood_fill w h T fuel = Done vis.
Proof.
  intros Hw Hh HT Hfuel. rewrite border_flood_fill_scan.
  destruct (flood_from_spec w h T (border_scan w h) dirs fuel)
    as [[_ Hlt]|(vis & Hrun & _)]; [lia|lia|done| |done|lia|eauto].
  intros c Hc. by apply elem_of_border_scan in Hc as [? _].
Qed.

Lemma border_flood_fill_spec w h T fuel vis :
  0 ≤ w → 0 ≤ h → ndarray.shape T h w →
  border_flood_fill w h T fuel = Done vis →
  ndarray.shape vis h w
  ∧ ∀ p, in_bounds w h p →
      (reads vis p 1 ∨ reads vis p 0)
      ∧ (reads vis p 1 ↔ ∃ s, on_border w h s ∧ connected w h T s p).
Proof.
  intros Hw Hh HT Hrun.
  destruct (decide (0 < w ∧ 0 < h)) as [[Hw' Hh']|Hdeg].
  - rewrite border_flood_fill_scan in Hrun.
    destruct (flood_from_spec w h T (border_scan w h) dirs fuel)
      as [[Hout _]|(vis' & Hrun' & Hs & Hchar)]; [done|done|done| |done|congruence|].
    { intros c Hc. by apply elem_of_border_scan in Hc as [? _]. }
    assert (vis' = vis) as -> by congruence.
    split; [done|]. intros p Hp. destruct (Hchar p Hp) as [H01 Hiff].
    split; [done|]. rewrite Hiff. split.
    + intros (s & Hs' & Hc). exists s. split; [|done]. by apply elem_of_border_scan.
    + intros (s & Hs' & Hc). exists s. split; [|done]. by apply elem_of_border_scan.
  - assert (vis = ndarray.zeros h w) as ->.
    { unfold border_flood_fill in Hrun.
      apply bind_Done_inv in Hrun as (st1 & Hseed & (st2 & Hloop & Hr)%bind_Done_inv).
      destruct (decide (h = 0)) as [->|Hh0].
      - destruct (decide (w = 0)) as [->|Hw0].
        + rewrite seed_border_nothing in Hseed by lia.
          injection Hseed as <-. destruct fuel; cbn in Hloop; by simplify_eq.
        + rewrite seed_border_no_rows in Hseed; [done|lia|].
          destruct HT as [HT _]. by apply length_zero_iff_nil.
      - assert (w = 0) as -> by lia.
        destruct (decide (h ≤ 2)).
        + rewrite seed_border_nothing in Hseed by lia.
          injection Hseed as <-. destruct fuel; cbn in Hloop; by simplify_eq.
        + rewrite seed_border_no_columns in Hseed; [done|lia|done]. }
    split; [apply zeros_shape|]. intros p [Hx Hy]. lia.
Qed.

(** What a completed run has computed. *)
Definition analysis_ok (threshold : Z) (limit : nat) (img : image) (a : analysis)
    : Prop :=
  let w := (size img).1 in
  let h := (size img).2 in
  transparent a
  = ndarray.elementwise (λ v, bool_decide (v < threshold))
      (ndarray.elementwise alpha (data img))
  ∧ ndarray.shape (transparent a) h w
  ∧ ndarray.shape (visited a) h w
  ∧ (∀ p, in_bounds w h p →
       (reads (visited a) p 1 ∨ reads (visited a) p 0)
       ∧ (reads (visited a) p 1
          ↔ ∃ s, on_border w h s ∧ connected w h (transparent a) s p))
  ∧ ndarray.shape (interior a) h w
  ∧ (∀ p, in_bounds w h p →
       holds (interior a) p ↔ holds (transparent a) p ∧ reads (visited a) p 0)
  ∧ scan_inv w h (interior a) (cells w h)
      (label_grid a, Z.of_nat (length (labeler_output a)), labeler_output a)
  ∧ components a = sort_by_area (labeler_output a)
  ∧ stdout a
    = ("Dimensions: " +:+ pretty w +:+ "x" +:+ pretty h)
      :: (report limit (labeler_output a)).2.

Lemma analyse_sound_enough_fuel threshold limit fuel img a :
  well_formed img →
  (size img).1 * (size img).2 ≤ Z.of_nat fuel →
  analyse threshold limit fuel img = Done a →
  analysis_ok threshold limit img a.
Proof.
  intros (Hw & Hh & Hdata & Hsmall) Hfuel. unfold analyse, analysis_ok.
  destruct (size img) as [w h]. cbn in *.
  set (T := ndarray.elementwise _ (ndarray.elementwise alpha (data img))).
  assert (ndarray.shape T h w) as HT.
  { unfold T. apply elementwise_shape. by apply elementwise_shape. }
  intros (vis & Hvis & ([[lab label] comps] & Hlab & Hr)%bind_Done_inv)%bind_Done_inv.
  injection Hr as <-. cbn.
  destruct (border_flood_fill_spec w h T fuel vis Hw Hh HT Hvis) as [Hsv Hchar].
  pose proof (interior_shape w h T vis HT Hsv) as HsI.
  destruct (label_interior_spec w h _ Hw Hh HsI Hsmall fuel Hfuel) as (st & Hrun & Hinv).
  rewrite Hlab in Hrun. injection Hrun as <-.
  destruct Hinv as (? & ? & ? & ? & ? & Hlen & ? & ? & ? & ?). subst label.
  split_and!; try done.
  intros p Hp. by apply (interior_holds w h).
Qed.

Lemma analyse_sound threshold limit fuel img a :
  well_formed img →
  analyse threshold limit fuel img = Done a →
  analysis_ok threshold limit img a.
Proof.
  intros Hwf Hrun.
  apply (analyse_sound_enough_fuel _ _
           (fuel `max` Z.to_nat ((size img).1 * (size img).2))%nat); [done|lia|].
  eapply analyse_mono; [|exact Hrun]. lia.
Qed.

Lemma analyse_total threshold limit fuel img :
  well_formed img → 0 < (size img).1 → 0 < (size img).2 →
  (size img).1 * (size img).2 ≤ Z.of_nat fuel →
  ∃ a, analyse threshold limit fuel img = Done a.
Proof.
  intros (Hw & Hh & Hdata & Hsmall) Hw' Hh' Hfuel. unfold analyse.
  destruct (size img) as [w h]. cbn in *.
  set (T := ndarray.elementwise _ (ndarray.elementwise alpha (data img))).
  assert (ndarray.shape T h w) as HT.
  { unfold T. apply elementwise_shape. by apply elementwise_shape. }
  destruct (border_flood_fill_total w h T fuel Hw' Hh' HT Hfuel) as [vis Hvis].
  rewrite Hvis. cbn.
  destruct (border_flood_fill_spec w h T fuel vis Hw Hh HT Hvis) as [Hsv _].
  pose proof (interior_shape w h T vis HT Hsv) as HsI.
  destruct (label_interior_spec w h _ Hw Hh HsI Hsmall fuel Hfuel)
    as ([[lab label] comps] & Hrun & _).
  rewrite Hrun. cbn. eauto.
Qed.

(** ** The specification *)

Lemma marked_bit vis p :
  reads vis p 1 ∨ reads vis p 0 → marked vis p ↔ reads vis p 1.
Proof.
  intros H01. split.
  - intros (v & Hv & Hv0). destruct H01 as [H1|H0]; [done|].
    by rewrite (reads_fun _ _ _ _ Hv H0) in Hv0.
  - intros H1. by exists 1.
Qed.

Lemma labels_closed_connected w h I lab p q v :
  labels_closed w h I lab → connected w h I p q →
  reads lab p v → v ≠ 0 → reads lab q v.
Proof.
  intros Hcl Hconn Hv Hv0.
  induction Hconn as [p|p q r Hpq IH Hadj Hin Hm]; [done|].
  apply connected_ends in Hpq as (_ & _ & Hq & _).
  apply (Hcl q r v); auto.
Qed.

Lemma describes_area_bounds w h lab k c :
  describes w h lab k c → 1 ≤ c_area c ≤ c_w c * c_h c.
Proof.
  intros (Harea & Hbox & (p0 & Hp0 & Hr0 & _) & _).
  pose proof (Hbox p0 Hp0 Hr0) as Hbox0.
  rewrite Harea. unfold count_labeled. split.
  - assert (p0 ∈ cells_labeled w h lab k) as Hmem by (by apply elem_of_cells_labeled).
    destruct (cells_labeled w h lab k); [by apply elem_of_nil in Hmem|cbn; lia].
  - set (f := λ p : pixel, (p.1 - c_x c, p.2 - c_y c)).
    rewrite <- (length_fmap f).
    apply NoDup_in_bounds_length; [lia|lia| |].
    + apply NoDup_fmap_2_strong; [|apply NoDup_cells_labeled].
      intros [x1 y1] [x2 y2] _ _ [= ??]. f_equal; lia.
    + intros q (p & -> & Hp)%list_elem_of_fmap.
      apply elem_of_cells_labeled in Hp as [Hp Hr].
      specialize (Hbox p Hp Hr). unfold in_bounds, f. cbn. lia.
Qed.

(** C1: once the border flood fill has completed, [visited[y][x]] is true
    iff the pixel (x, y) is transparent and a path of 4-connected
    transparent pixels leads from it to a transparent border pixel; on a
    grid with at least one cell the fill completes within [w * h]
    dequeues. *)
Theorem border_flood_fill_exterior w h T fuel :
  0 ≤ w → 0 ≤ h → ndarray.shape T h w →
  (0 < w → 0 < h → w * h ≤ Z.of_nat fuel →
     ∃ visited, border_flood_fill w h T fuel = Done visited)
  ∧ (∀ visited, border_flood_fill w h T fuel = Done visited →
       ∀ x y, in_bounds w h (x, y) →
         marked visited (x, y) ↔ holds T (x, y) ∧ exterior w h T (x, y)).
Proof.
  intros Hw Hh HT. split.
  - intros Hw' Hh' Hfuel. by apply border_flood_fill_total.
  - intros vis Hrun x y Hin.
    destruct (border_flood_fill_spec w h T fuel vis Hw Hh HT Hrun) as [_ Hchar].
    destruct (Hchar (x, y) Hin) as [H01 Hiff].
    rewrite (marked_bit _ _ H01), Hiff. split.
    + intros (s & Hs & Hc). split.
      * apply connected_ends in Hc. tauto.
      * exists s. split; [done|]. by apply connected_sym.
    + intros [_ (b & Hb & Hc)]. exists b. split; [done|]. by apply connected_sym.
Qed.

Lemma notch_shape : ndarray.shape notch 5 3.
Proof. split; [reflexivity|]. repeat constructor. Qed.

Lemma border_flood_fill_exterior_witness :
  (0 < 3 → 0 < 5 → 3 * 5 ≤ Z.of_nat 15 →
     ∃ visited, border_flood_fill 3 5 notch 15 = Done visited)
  ∧ (∀ visited, border_flood_fill 3 5 notch 15 = Done visited →
       ∀ x y, in_bounds 3 5 (x, y) →
         marked visited (x, y) ↔ holds notch (x, y) ∧ exterior 3 5 notch (x, y)).
Proof.
  apply (border_flood_fill_exterior 3 5 notch 15); [lia|lia|exact notch_shape].
Defined.

Example border_flood_fill_notch :
  border_flood_fill 3 5 notch 15
  = Done [ [0; 1; 0]; [0; 1; 0]; [0; 0; 0]; [0; 0; 0]; [0; 0; 0] ].
Proof. reflexivity. Qed.

Lemma image_of_rows_wf w h rows :
  0 ≤ w → 0 ≤ h → w * h < 2 ^ 31 → ndarray.shape rows h w →
  well_formed (image_of_rows w h rows).
Proof.
  intros Hw Hh Hsmall Hs. split_and!; cbn; [done|done| |done].
  by apply elementwise_shape.
Qed.

Lemma notch_image_wf : well_formed notch_image.
Proof. apply image_of_rows_wf; [lia|lia|done|exact notch_shape]. Qed.

Example detect_cutout_notch :
  stdout <$> detect_cutout 15 notch_image
  = Done [ "Dimensions: 3x5"; "Found 1 interior holes";
           "  Hole 1: area=1, x=1, y=3, w=1, h=1" ].
Proof. vm_compute. reflexivity. Qed.

Lemma border_labels_zero threshold limit img a p :
  well_formed img → analysis_ok threshold limit img a →
  on_border (size img).1 (size img).2 p →
  reads (label_grid a) p 0
  ∧ (holds (transparent a) p → reads (visited a) p 1).
Proof.
  intros Hwf (_ & HT & Hvis & Hchar & HI & Hint & Hscan & _) Hb.
  destruct Hscan as (_ & Hok & _).
  pose proof Hb as [Hin _].
  assert (holds (transparent a) p → reads (visited a) p 1) as H1.
  { intros Hp. apply Hchar; [done|]. exists p. split; [done|].
    by apply connected_refl. }
  split; [|done].
  destruct (Hok p Hin) as (v & Hv & _ & Hv0).
  destruct (decide (v = 0)) as [->|Hne]; [done|]. exfalso.
  apply Hv0, Hint in Hne as [Hp H0]; [|done].
  pose proof (reads_fun _ _ _ _ (H1 Hp) H0). done.
Qed.

(** C3: a transparent pixel on the top or bottom row or the left or right
    column is marked visited, is not interior and carries no label; a 1x1
    grid has no interior hole. *)
Theorem border_pixels_are_exterior threshold limit fuel img a :
  well_formed img → analyse threshold limit fuel img = Done a →
  (∀ p, on_border (size img).1 (size img).2 p → holds (transparent a) p →
     marked (visited a) p ∧ ¬ holds (interior a) p ∧ reads (label_grid a) p 0)
  ∧ (size img = (1, 1) →
     labeler_output a = [] ∧ components a = []
     ∧ stdout a = ["Dimensions: 1x1"; "Found 0 interior holes"]).
Proof.
  intros Hwf Hrun. pose proof (analyse_sound _ _ _ _ _ Hwf Hrun) as Hok.
  split.
  - intros p Hb Hp.
    destruct (border_labels_zero _ _ _ _ p Hwf Hok Hb) as [Hl H1].
    destruct Hok as (_ & _ & _ & _ & _ & Hint & _).
    split_and!; [exists 1; auto|
                 |done].
    intros [_ H0]%Hint; [|apply Hb].
    pose proof (reads_fun _ _ _ _ (H1 Hp) H0). done.
  - intros Hsize.
    assert (labeler_output a = []) as Hnone.
    { destruct (labeler_output a) as [|c comps] eqn:Hc; [done|]. exfalso.
      pose proof Hok as (_ & _ & _ & _ & _ & _ & Hscan & _).
      destruct Hscan as (_ & _ & _ & _ & _ & _ & _ & Hdesc & _).
      destruct (Hdesc 0%nat c) as (_ & _ & (p & Hin & Hr & _) & _);
        [by rewrite Hc|].
      destruct (border_labels_zero _ _ _ _ p Hwf Hok) as [H0 _].
      - rewrite Hsize in *. split; [done|]. destruct Hin as [? ?]. cbn in *. lia.
      - pose proof (reads_fun _ _ _ _ Hr H0). done. }
    destruct Hok as (_ & _ & _ & _ & _ & _ & _ & Hsort & Hout).
    split_and!; [done|by rewrite Hsort, Hnone|].
    rewrite Hout, Hnone, Hsize. unfold report, hole_entries. cbn.
    by rewrite take_nil.
Qed.

Lemma border_pixels_are_exterior_witness :
  ∃ a, detect_cutout 15 notch_image = Done a
    ∧ (∀ p, on_border 3 5 p → holds (transparent a) p →
         marked (visited a) p ∧ ¬ holds (interior a) p ∧ reads (label_grid a) p 0)
    ∧ ((3, 5) = (1, 1) →
       labeler_output a = [] ∧ components a = []
       ∧ stdout a = ["Dimensions: 1x1"; "Found 0 interior holes"]).
Proof.
  eexists. split; [vm_compute; reflexivity|].
  apply (border_pixels_are_exterior 16 5 15 notch_image);
    [exact notch_image_wf|vm_compute; reflexivity].
Defined.

(** Scenario 5: a single transparent pixel. *)
Example detect_cutout_1x1 :
  (λ a, (visited a, components a, stdout a))
    <$> detect_cutout 1 (image_of_rows 1 1 [[tr]])
  = Done ([[1]], [], ["Dimensions: 1x1"; "Found 0 interior holes"]).
Proof. vm_compute. reflexivity. Qed.

(** C2: every pixel is in exactly one class: opaque, exterior, or exactly
    one interior component; the labeled cells are exactly the interior mask
    (transparent and not visited); every label 1..n is used; two interior
    cells carry one label iff a path of 4-connected interior cells joins
    them, so the components are the maximal 4-connected interior regions;
    and the areas sum to the number of interior cells. *)
Theorem interior_labels_partition threshold limit fuel img a :
  well_formed img → analyse threshold limit fuel img = Done a →
  let w := (size img).1 in
  let h := (size img).2 in
  (∀ p, in_bounds w h p →
     (is_opaque a p ∧ ¬ is_exterior a p ∧ ∀ k, ¬ in_component a k p)
     ∨ (¬ is_opaque a p ∧ is_exterior a p ∧ ∀ k, ¬ in_component a k p)
     ∨ (¬ is_opaque a p ∧ ¬ is_exterior a p
        ∧ ∃ k, in_component a k p ∧ ∀ k', in_component a k' p → k' = k))
  ∧ (∀ p, in_bounds w h p →
       holds (interior a) p ↔ holds (transparent a) p ∧ ¬ marked (visited a) p)
  ∧ (∀ p, in_bounds w h p → marked (label_grid a) p ↔ holds (interior a) p)
  ∧ (∀ k, 1 ≤ k ≤ Z.of_nat (length (labeler_output a)) →
       ∃ p, in_bounds w h p ∧ reads (label_grid a) p k)
  ∧ (∀ p q, in_bounds w h p → in_bounds w h q →
       holds (interior a) p → holds (interior a) q →
       connected w h (interior a) p q
       ↔ ∃ k, reads (label_grid a) p k ∧ reads (label_grid a) q k)
  ∧ total_area (labeler_output a)
    = Z.of_nat (length (cells_holding w h (interior a))).
Proof.
  intros Hwf Hrun w h. pose proof (analyse_sound _ _ _ _ _ Hwf Hrun) as Hok.
  destruct Hok as (_ & HT & Hvis & Hchar & HI & Hint & Hscan & _).
  fold w h in HT, Hvis, Hchar, HI, Hint, Hscan.
  destruct Hscan as (Hslab & Hok & Hcl & Hconn & Hpre & _ & _ & Hdesc & _ & Htotal).
  assert (∀ p, in_bounds w h p → reads (visited a) p 0 ↔ ¬ marked (visited a) p)
    as Hunmarked.
  { intros p Hp. destruct (Hchar p Hp) as [H01 _]. rewrite (marked_bit _ _ H01).
    split.
    - intros H0 H1. pose proof (reads_fun _ _ _ _ H0 H1). done.
    - intros Hn. destruct H01; [done|done]. }
  assert (∀ p, in_bounds w h p → marked (label_grid a) p ↔ holds (interior a) p)
    as Hlabeled.
  { intros p Hp. split.
    - intros (v & Hv & Hv0). destruct (Hok p Hp) as (v' & Hv' & _ & Himp).
      rewrite (reads_fun _ _ _ _ Hv Hv') in Hv0. auto.
    - apply Hpre. by apply elem_of_cells. }
  split_and!.
  - intros p Hp. unfold is_opaque, is_exterior, in_component.
    destruct (decide (ndarray.getitem (transparent a) p.2 p.1 = Done true))
      as [Ht|Ht]; fold (holds (transparent a) p) in Ht.
    + destruct (Hchar p Hp) as [[H1|H0] _].
      * right. left. split_and!; [tauto|done|by exists 1|].
        intros k [[Hk _] Hr].
        assert (marked (label_grid a) p) as Hm by (exists k; split; [done|lia]).
        apply Hlabeled, Hint in Hm as [_ H0]; [|done..].
        pose proof (reads_fun _ _ _ _ H0 H1). done.
      * right. right. split_and!; [tauto| |].
        { intros [_ Hm]. by apply (Hunmarked p Hp). }
        assert (holds (interior a) p) as Hi by (by apply Hint).
        apply Hlabeled in Hi as (v & Hv & Hv0); [|done].
        destruct (Hok p Hp) as (v' & Hv' & Hrange & _).
        rewrite <- (reads_fun _ _ _ _ Hv Hv') in Hrange.
        exists v. split; [split; [lia|done]|].
        intros k' [_ Hk']. by eapply reads_fun.
    + left. split_and!; [done|tauto|].
      intros k [[Hk _] Hr].
      assert (marked (label_grid a) p) as Hm by (exists k; split; [done|lia]).
      apply Hlabeled, Hint in Hm as [? _]; done.
  - intros p Hp. rewrite (Hint p Hp), (Hunmarked p Hp). done.
  - done.
  - intros k Hk.
    destruct (lookup_lt_is_Some_2 (labeler_output a) (Z.to_nat (k - 1)))
      as [c Hc]; [lia|].
    destruct (Hdesc _ _ Hc) as (_ & _ & (p & Hp & Hr & _) & _).
    exists p. split; [done|]. by replace k with (Z.of_nat (Z.to_nat (k - 1)) + 1) by lia.
  - intros p q Hp Hq Hip Hiq. split.
    + intros Hpq. apply Hlabeled in Hip as (v & Hv & Hv0); [|done].
      exists v. split; [done|]. by eapply labels_closed_connected.
    + intros (k & Hk & Hk'). apply Hlabeled in Hip as (v & Hv & Hv0); [|done].
      pose proof (reads_fun _ _ _ _ Hk Hv) as ->.
      exact (Hconn p q v Hp Hq Hv Hv0 Hk').
  - rewrite Htotal. f_equal. apply Permutation_length, NoDup_Permutation.
    + apply NoDup_filter, NoDup_cells.
    + apply NoDup_filter, NoDup_cells.
    + intros p. rewrite elem_of_cells_marked by done.
      unfold cells_holding. rewrite list_elem_of_filter, elem_of_cells.
      fold (holds (interior a) p). split.
      * intros [Hp Hm]. split; [|done]. by apply Hlabeled.
      * intros [Hi Hp]. split; [done|]. by apply Hlabeled.
Qed.

Lemma interior_labels_partition_witness :
  ∃ a, detect_cutout 15 notch_image = Done a
    ∧ let w := 3 in
      let h := 5 in
      (∀ p, in_bounds w h p →
         (is_opaque a p ∧ ¬ is_exterior a p ∧ ∀ k, ¬ in_component a k p)
         ∨ (¬ is_opaque a p ∧ is_exterior a p ∧ ∀ k, ¬ in_component a k p)
         ∨ (¬ is_opaque a p ∧ ¬ is_exterior a p
            ∧ ∃ k, in_component a k p ∧ ∀ k', in_component a k' p → k' = k))
      ∧ (∀ p, in_bounds w h p →
           holds (interior a) p ↔ holds (transparent a) p ∧ ¬ marked (visited a) p)
      ∧ (∀ p, in_bounds w h p → marked (label_grid a) p ↔ holds (interior a) p)
      ∧ (∀ k, 1 ≤ k ≤ Z.of_nat (length (labeler_output a)) →
           ∃ p, in_bounds w h p ∧ reads (label_grid a) p k)
      ∧ (∀ p q, in_bounds w h p → in_bounds w h q →
           holds (interior a) p → holds (interior a) q →
           connected w h (interior a) p q
           ↔ ∃ k, reads (label_grid a) p k ∧ reads (label_grid a) q k)
      ∧ total_area (labeler_output a)
        = Z.of_nat (length (cells_holding w h (interior a))).
Proof.
  eexists. split; [vm_compute; reflexivity|].
  apply (interior_labels_partition 16 5 15 notch_image);
    [exact notch_image_wf|vm_compute; reflexivity].
Defined.

(** The cells in row-major order read the flattened array. *)
Lemma cells_concat {A} (a : ndarray.t A) h w :
  0 ≤ w → 0 ≤ h → ndarray.shape a h w →
  Forall2 (λ p v, ndarray.getitem a p.2 p.1 = Done v) (cells w h) (concat a).
Proof.
  intros Hw Hh Hs.
  assert (∀ l : list (list A), concat l = l ≫= id) as ->.
  { induction l as [|r l IH]; [done|]. cbn. by rewrite IH. }
  unfold cells. apply Forall2_bind, Forall2_same_length_lookup_2.
  { rewrite length_seqZ. by destruct Hs as [-> _]. }
  intros i y row Hy Hrow. apply lookup_seqZ in Hy as [-> Hi].
  assert (∀ xs : list Z, xs ≫= (λ x, [(x, 0 + Z.of_nat i)])
                         = (λ x, (x, 0 + Z.of_nat i)) <$> xs) as ->.
  { induction xs as [|x xs IH]; [done|]. cbn. by rewrite IH. }
  apply Forall2_fmap_l, Forall2_same_length_lookup_2.
  { rewrite length_seqZ. symmetry. by eapply shape_row. }
  intros j x v Hx Hv. apply lookup_seqZ in Hx as [-> Hj]. cbn.
  destruct (getitem_in a h w (0 + Z.of_nat i) (0 + Z.of_nat j) Hs)
    as (row' & v' & Hrow' & Hv' & ->); [lia|lia|].
  replace (Z.to_nat (0 + Z.of_nat i)) with i in Hrow' by lia.
  replace (Z.to_nat (0 + Z.of_nat j)) with j in Hv' by lia.
  unfold id in *. congruence.
Qed.

(** [count_labeled] counts the entries of the array equal to [k]. *)
Lemma count_labeled_concat w h lab k :
  0 ≤ w → 0 ≤ h → ndarray.shape lab h w →
  count_labeled w h lab k
  = Z.of_nat (length (filter (λ v, v = k) (concat lab))).
Proof.
  intros Hw Hh Hs. unfold count_labeled, cells_labeled. f_equal.
  induction (cells_concat lab h w Hw Hh Hs) as [|p v ps vs Hpv _ IH]; [done|].
  rewrite !filter_cons, Hpv.
  destruct (decide (Done v = Done k)) as [[= ->]|Hne].
  - rewrite decide_True by done. cbn. by rewrite IH.
  - rewrite decide_False by congruence. done.
Qed.

(** C4: the entry of label [k + 1] has as area the number of cells that
    carry the label and as box the tight rectangle around them, so that
    [1 <= area <= width * height]. *)
Theorem component_area_and_box threshold limit fuel img a :
  well_formed img → analyse threshold limit fuel img = Done a →
  ∀ k c, labeler_output a !! k = Some c →
    describes (size img).1 (size img).2 (label_grid a) (Z.of_nat k + 1) c
    ∧ c_area c
      = Z.of_nat (length (filter (λ v, v = Z.of_nat k + 1) (concat (label_grid a))))
    ∧ 1 ≤ c_area c ≤ c_w c * c_h c.
Proof.
  intros Hwf Hrun k c Hc. pose proof (analyse_sound _ _ _ _ _ Hwf Hrun) as Hok.
  destruct Hok as (_ & _ & _ & _ & _ & _ & Hscan & _).
  destruct Hscan as (Hs & _ & _ & _ & _ & _ & _ & Hdesc & _).
  destruct Hwf as (Hw & Hh & _).
  pose proof (Hdesc k c Hc) as Hd. split; [done|]. split.
  - destruct Hd as [-> _]. by apply count_labeled_concat.
  - by eapply describes_area_bounds.
Qed.

Lemma component_area_and_box_witness :
  ∃ a, detect_cutout 25 ring5 = Done a
    ∧ ∀ k c, labeler_output a !! k = Some c →
        describes 5 5 (label_grid a) (Z.of_nat k + 1) c
        ∧ c_area c
          = Z.of_nat (length (filter (λ v, v = Z.of_nat k + 1)
                                (concat (label_grid a))))
        ∧ 1 ≤ c_area c ≤ c_w c * c_h c.
Proof.
  eexists. split; [vm_compute; reflexivity|].
  apply (component_area_and_box 16 5 25 ring5); [|vm_compute; reflexivity].
  apply image_of_rows_wf; [lia|lia|done|]. split; [reflexivity|repeat constructor].
Defined.

(** Scenario 3: the 3x3 hole of a 5x5 ring. *)
Example detect_cutout_ring5 :
  labeler_output <$> detect_cutout 25 ring5 = Done [Component 9 1 1 3 3].
Proof. vm_compute. reflexivity. Qed.

(** Scenario 4: two separate interior pixels. *)
Example detect_cutout_two_dots :
  labeler_output <$> detect_cutout 25 two_dots
  = Done [Component 1 1 1 1 1; Component 1 3 3 1 1].
Proof. vm_compute. reflexivity. Qed.

(** C5: the reported list is sorted by area, largest first, and is a
    rearrangement of the labeler's list; the report has [min limit count]
    hole entries (limit 5 in the script), the [i]-th carrying rank [i + 1]
    and the area, origin, width and height of the [i]-th sorted entry, and
    each is printed as one line: line [i + 1] of the report, after the
    [Found] line, reads
    ["  Hole <i + 1>: area=<area>, x=<x>, y=<y>, w=<width>, h=<height>"]
    for the [i]-th sorted entry, and there is no further line. *)
Theorem report_sorted_and_limited (limit : nat) (comps : list component) :
  non_increasing (report limit comps).1
  ∧ (report limit comps).1 ≡ₚ comps
  ∧ length (hole_entries limit (report limit comps).1)
    = (limit `min` length comps)%nat
  ∧ (∀ i c, (i < limit)%nat → (report limit comps).1 !! i = Some c →
       hole_entries limit (report limit comps).1 !! i = Some (Z.of_nat i + 1, c))
  ∧ (report limit comps).2
    = ("Found " +:+ pretty (Z.of_nat (length comps)) +:+ " interior holes")
      :: (hole_line <$> hole_entries limit (report limit comps).1)
  ∧ hole_line (1, Component 9 1 1 3 3) = "  Hole 1: area=9, x=1, y=1, w=3, h=3"
  ∧ (∀ fuel img a, detect_cutout fuel img = Done a →
       components a = (report 5 (labeler_output a)).1
       ∧ tail (stdout a) = (report 5 (labeler_output a)).2)
  ∧ (∀ rank area x y cw ch,
       hole_line (rank, Component area x y cw ch)
       = "  Hole " +:+ pretty rank +:+ ": area=" +:+ pretty area
         +:+ ", x=" +:+ pretty x +:+ ", y=" +:+ pretty y
         +:+ ", w=" +:+ pretty cw +:+ ", h=" +:+ pretty ch)
  ∧ length (report limit comps).2 = S (limit `min` length comps)
  ∧ (∀ i area x y cw ch, (i < limit)%nat →
       (report limit comps).1 !! i = Some (Component area x y cw ch) →
       (report limit comps).2 !! S i
       = Some ("  Hole " +:+ pretty (Z.of_nat i + 1) +:+ ": area=" +:+ pretty area
               +:+ ", x=" +:+ pretty x +:+ ", y=" +:+ pretty y
               +:+ ", w=" +:+ pretty cw +:+ ", h=" +:+ pretty ch))
  ∧ (∀ i, (report limit comps).2 !! S i = None
          ↔ (limit ≤ i)%nat ∨ (length comps ≤ i)%nat)
  ∧ (∀ fuel img a, detect_cutout fuel img = Done a →
       length (stdout a) = S (S (5 `min` length (labeler_output a)))
       ∧ stdout a !! 1%nat
         = Some ("Found " +:+ pretty (Z.of_nat (length (labeler_output a)))
                 +:+ " interior holes")
       ∧ (∀ i area x y cw ch, (i < 5)%nat →
            components a !! i = Some (Component area x y cw ch) →
            stdout a !! S (S i)
            = Some ("  Hole " +:+ pretty (Z.of_nat i + 1)
                    +:+ ": area=" +:+ pretty area
                    +:+ ", x=" +:+ pretty x +:+ ", y=" +:+ pretty y
                    +:+ ", w=" +:+ pretty cw +:+ ", h=" +:+ pretty ch))).
Proof.
  pose proof (sort_by_area_perm comps) as Hperm.
  assert (∀ fuel img a, detect_cutout fuel img = Done a →
            components a = sort_by_area (labeler_output a)
            ∧ tail (stdout a) = (report 5 (labeler_output a)).2
            ∧ length (stdout a) = S (length (report 5 (labeler_output a)).2))
    as Hrun.
  { intros fuel img a. unfold detect_cutout, analyse.
    destruct (size img) as [w h].
    intros (vis & _ & ([[lab label] cs] & _ & [= <-])%bind_Done_inv)%bind_Done_inv.
    done. }
  split_and!.
  - apply sort_by_area_sorted.
  - done.
  - unfold report. cbn [fst]. by rewrite length_hole_entries, Hperm.
  - intros i c. apply lookup_hole_entries.
  - unfold report. cbn [fst snd]. by rewrite (Permutation_length Hperm).
  - reflexivity.
  - intros fuel img a Ha. by destruct (Hrun fuel img a Ha) as (-> & -> & _).
  - reflexivity.
  - apply length_report.
  - intros i area x y cw ch Hi Hc.
    exact (lookup_report_hole limit comps i _ Hi Hc).
  - intros i. rewrite lookup_ge_None, length_report. lia.
  - intros fuel img a Ha. destruct (Hrun fuel img a Ha) as (Hsort & Hout & Hlen).
    assert (∀ i, stdout a !! S i = (report 5 (labeler_output a)).2 !! i) as Hline.
    { intros i. rewrite <- Hout. by destruct (stdout a). }
    split_and!.
    + by rewrite Hlen, length_report.
    + by rewrite Hline, lookup_report_found.
    + intros i area x y cw ch Hi Hc. rewrite Hline. rewrite Hsort in Hc.
      exact (lookup_report_hole 5 _ i _ Hi Hc).
Qed.

(** ** Grids with no cell *)

Lemma flood_loop_empty_queue w h T ds fuel vis :
  flood_loop w h T ds fuel (vis, []) = Done (vis, []).
Proof. by destruct fuel. Qed.

Lemma label_interior_no_cells w h I fuel :
  w ≤ 0 ∨ h ≤ 0 → label_interior w h I fuel = Done (ndarray.zeros h w, 0, []).
Proof. intros Hwh. rewrite label_interior_cells, cells_empty by done. done. Qed.

(** What the run does on a grid with no cell. *)
Lemma analyse_no_cells threshold limit fuel img :
  well_formed img →
  ((size img).1 = 0 → (size img).2 ≤ 2 →
     ∃ a, analyse threshold limit fuel img = Done a
       ∧ visited a = ndarray.zeros (size img).2 0
       ∧ label_grid a = ndarray.zeros (size img).2 0
       ∧ labeler_output a = [] ∧ components a = []
       ∧ stdout a = [ "Dimensions: 0x" +:+ pretty (size img).2;
                      "Found 0 interior holes" ])
  ∧ ((size img).2 = 0 → 0 < (size img).1 →
       analyse threshold limit fuel img = Raise IndexError)
  ∧ ((size img).1 = 0 → 3 ≤ (size img).2 →
       analyse threshold limit fuel img = Raise IndexError).
Proof.
  intros (Hw & Hh & Hdata & Hsmall). unfold analyse.
  destruct (size img) as [w h]. cbn in *.
  set (T := ndarray.elementwise _ (ndarray.elementwise alpha (data img))).
  assert (ndarray.shape T h w) as HT.
  { unfold T. apply elementwise_shape. by apply elementwise_shape. }
  clearbody T. split_and!.
  - intros -> Hh2. unfold border_flood_fill.
    rewrite seed_border_nothing by lia. cbn.
    rewrite flood_loop_empty_queue. cbn.
    rewrite label_interior_no_cells by lia. cbn.
    eexists. split; [done|]. cbn. unfold hole_entries. rewrite take_nil. done.
  - intros -> Hw'. unfold border_flood_fill.
    rewrite seed_border_no_rows; [done|done|].
    destruct HT as [HT _]. by apply length_zero_iff_nil.
  - intros -> Hh3. unfold border_flood_fill.
    by rewrite seed_border_no_columns.
Qed.

(** C6, as the code has it: with no column and at most two rows (or no
    cell at all) the run succeeds, seeds nothing, leaves an empty visited
    mask and reports zero components. *)
Theorem degenerate_grid_succeeds threshold limit fuel img :
  well_formed img → (size img).1 = 0 → (size img).2 ≤ 2 →
  ∃ a, analyse threshold limit fuel img = Done a
    ∧ seed_border 0 (size img).2 (transparent a) (ndarray.zeros (size img).2 0, [])
      = Done (ndarray.zeros (size img).2 0, [])
    ∧ visited a = ndarray.zeros (size img).2 0
    ∧ concat (visited a) = []
    ∧ labeler_output a = [] ∧ components a = []
    ∧ stdout a = [ "Dimensions: 0x" +:+ pretty (size img).2;
                   "Found 0 interior holes" ].
Proof.
  intros Hwf Hw Hh.
  destruct (analyse_no_cells threshold limit fuel img Hwf) as (Hok & _).
  destruct (Hok Hw Hh) as (a & Hrun & Hvis & _ & Hout & Hcomps & Hstd).
  exists a. split_and!; try done.
  - by apply seed_border_nothing.
  - rewrite Hvis. unfold ndarray.zeros. cbn.
    induction (Z.to_nat (size img).2) as [|n IH]; [done|]. cbn. done.
Qed.

Lemma no_columns_image_wf : well_formed no_columns_image.
Proof. split_and!; cbn; [lia|lia| |done]. split; [done|]. repeat constructor. Qed.

Lemma degenerate_grid_succeeds_witness :
  ∃ a, analyse 16 5 0 no_columns_image = Done a
    ∧ seed_border 0 2 (transparent a) (ndarray.zeros 2 0, [])
      = Done (ndarray.zeros 2 0, [])
    ∧ visited a = ndarray.zeros 2 0
    ∧ concat (visited a) = []
    ∧ labeler_output a = [] ∧ components a = []
    ∧ stdout a = [ "Dimensions: 0x" +:+ pretty 2; "Found 0 interior holes" ].
Proof.
  apply (degenerate_grid_succeeds 16 5 0 no_columns_image);
    [exact no_columns_image_wf|reflexivity|cbn; lia].
Defined.

Lemma no_rows_image_wf : well_formed no_rows_image.
Proof. split_and!; cbn; [lia|lia| |done]. split; [done|]. constructor. Qed.

Lemma no_columns_image3_wf : well_formed no_columns_image3.
Proof. split_and!; cbn; [lia|lia| |done]. split; [done|]. repeat constructor. Qed.

(** C6 fails as stated: with no row and at least one column, and with no
    column and at least three rows, the seeding loops index outside the
    mask and the run raises [IndexError]. *)
Lemma degenerate_grid_raises :
  (well_formed no_rows_image
   ∧ (size no_rows_image).2 = 0
   ∧ ∀ fuel, detect_cutout fuel no_rows_image = Raise IndexError)
  ∧ (well_formed no_columns_image3
     ∧ (size no_columns_image3).1 = 0
     ∧ ∀ fuel, detect_cutout fuel no_columns_image3 = Raise IndexError).
Proof.
  split.
  - split; [exact no_rows_image_wf|]. split; [reflexivity|]. intros fuel. reflexivity.
  - split; [exact no_columns_image3_wf|]. split; [reflexivity|]. intros fuel. reflexivity.
Qed.

(** ** Order of seeding and of traversal *)

(** C7: the visited mask does not depend on the order in which the border
    pixels are seeded, on how often each is offered, or on the order in
    which the four neighbours are examined; in particular the double
    seeding of the scans (on grids one cell wide or high) gives the mask
    of seeding each border pixel once. *)
Theorem flood_order_independent w h T cands ds fuel :
  0 < w → 0 < h → ndarray.shape T h w → w * h ≤ Z.of_nat fuel →
  (∀ p, p ∈ cands ↔ on_border w h p) → ds ≡ₚ dirs →
  ∃ visited,
    border_flood_fill w h T fuel = Done visited
    ∧ flood_from w h T cands ds fuel = Done visited
    ∧ flood_from w h T (remove_dups (border_scan w h)) dirs fuel = Done visited.
Proof.
  intros Hw Hh HT Hfuel Hcands Hds.
  assert (∀ cands' ds',
            (∀ p, p ∈ cands' ↔ on_border w h p) → (∀ d, d ∈ ds' ↔ d ∈ dirs) →
            ∃ vis, flood_from w h T cands' ds' fuel = Done vis
                   ∧ ndarray.shape vis h w
                   ∧ ∀ p, in_bounds w h p →
                       (reads vis p 1 ∨ reads vis p 0)
                       ∧ (reads vis p 1
                          ↔ ∃ s, on_border w h s ∧ connected w h T s p)) as Hany.
  { intros cands' ds' Hc' Hd'.
    destruct (flood_from_spec w h T cands' ds' fuel)
      as [[_ Hlt]|(vis & Hrun & Hs & Hchar)]; [lia|lia|done| |done|lia|].
    { intros c Hc. by apply Hc' in Hc as [? _]. }
    exists vis. split_and!; [done..|].
    intros p Hp. destruct (Hchar p Hp) as [H01 Hiff]. split; [done|].
    rewrite Hiff. split; intros (s & Hs' & Hconn); exists s; split; try done;
      by apply Hc'. }
  assert (∀ v1 v2 : ndarray.t Z,
            ndarray.shape v1 h w → ndarray.shape v2 h w →
            (∀ p, in_bounds w h p →
               (reads v1 p 1 ∨ reads v1 p 0)
               ∧ (reads v1 p 1 ↔ ∃ s, on_border w h s ∧ connected w h T s p)) →
            (∀ p, in_bounds w h p →
               (reads v2 p 1 ∨ reads v2 p 0)
               ∧ (reads v2 p 1 ↔ ∃ s, on_border w h s ∧ connected w h T s p)) →
            v1 = v2) as Hsame.
  { intros v1 v2 Hs1 Hs2 H1 H2. apply (shape_ext v1 v2 h w); [lia|lia|done|done|].
    intros x y Hx Hy.
    destruct (H1 (x, y)) as [Hb1 Hi1]; [by split|].
    destruct (H2 (x, y)) as [Hb2 Hi2]; [by split|].
    unfold reads in *. cbn in *.
    destruct Hb1 as [Hb1|Hb1], Hb2 as [Hb2|Hb2]; try congruence.
    - apply Hi1, Hi2 in Hb1. congruence.
    - apply Hi2, Hi1 in Hb2. congruence. }
  destruct (Hany (border_scan w h) dirs) as (vis & Hrun & Hs & Hchar); [|done|].
  { intros p. by apply elem_of_border_scan. }
  exists vis. split_and!.
  - by rewrite border_flood_fill_scan.
  - destruct (Hany cands ds) as (vis' & Hrun' & Hs' & Hchar'); [done| |].
    { intros d. by rewrite Hds. }
    by rewrite (Hsame vis vis' Hs Hs' Hchar Hchar').
  - destruct (Hany (remove_dups (border_scan w h)) dirs)
      as (vis' & Hrun' & Hs' & Hchar'); [|done|].
    { intros p. rewrite elem_of_remove_dups. by apply elem_of_border_scan. }
    by rewrite (Hsame vis vis' Hs Hs' Hchar Hchar').
Qed.

Example border_scan_column :
  border_scan 1 3 = [(0, 0); (0, 2); (0, 1); (0, 1)].
Proof. reflexivity. Qed.

Lemma flood_order_independent_witness :
  ∃ visited,
    border_flood_fill 1 3 column 3 = Done visited
    ∧ flood_from 1 3 column (reverse (border_scan 1 3)) (reverse dirs) 3
      = Done visited
    ∧ flood_from 1 3 column (remove_dups (border_scan 1 3)) dirs 3 = Done visited.
Proof.
  apply (flood_order_independent 1 3 column (reverse (border_scan 1 3))
           (reverse dirs) 3); [lia|lia| |cbn; lia| |].
  - split; [reflexivity|]. repeat constructor.
  - intros p. rewrite elem_of_reverse. apply elem_of_border_scan; lia.
  - apply reverse_Permutation.
Defined.

(** ** Determinism *)

(** C8: the result is a function of the grid of alpha values, the
    threshold and the limit: two completed runs on grids of one size and
    the same alpha values yield the same analysis, hence the same
    component lists, labels and report. *)
Theorem analysis_deterministic threshold limit fuel fuel' img img' a a' :
  size img' = size img →
  ndarray.elementwise alpha (data img') = ndarray.elementwise alpha (data img) →
  analyse threshold limit fuel img = Done a →
  analyse threshold limit fuel' img' = Done a' →
  a' = a
  ∧ labeler_output a' = labeler_output a
  ∧ components a' = components a
  ∧ label_grid a' = label_grid a
  ∧ stdout a' = stdout a.
Proof.
  intros Hsize Halpha Hrun Hrun'.
  assert (analyse threshold limit fuel' img = Done a') as Hrun''.
  { rewrite <- Hrun'. unfold analyse. by rewrite Hsize, Halpha. }
  pose proof (analyse_fuel_irrelevant _ _ _ _ _ _ _ Hrun Hrun'') as ->.
  done.
Qed.

Lemma analysis_deterministic_witness :
  ∃ a a', detect_cutout 25 ring5 = Done a
    ∧ detect_cutout 40 ring5_red = Done a'
    ∧ a' = a
    ∧ labeler_output a' = labeler_output a
    ∧ components a' = components a
    ∧ label_grid a' = label_grid a
    ∧ stdout a' = stdout a.
Proof.
  eexists _, _. split; [vm_compute; reflexivity|].
  split; [vm_compute; reflexivity|].
  apply (analysis_deterministic 16 5 25 40 ring5 ring5_red);
    [reflexivity|reflexivity|vm_compute; reflexivity|vm_compute; reflexivity].
Defined.

(** ** Termination *)

(** The border fill pops each marked cell once. *)
Lemma border_dequeued_spec w h T fuel st :
  0 < w → 0 < h → ndarray.shape T h w → w * h ≤ Z.of_nat fuel →
  seed_border w h T (ndarray.zeros h w, []) = Done st →
  ∃ vis, flood_loop w h T dirs fuel st = Done (vis, [])
    ∧ NoDup (flood_dequeued w h T dirs fuel st)
    ∧ Z.of_nat (length (flood_dequeued w h T dirs fuel st)) ≤ w * h
    ∧ ∀ p, in_bounds w h p →
        p ∈ flood_dequeued w h T dirs fuel st ↔ marked vis p.
Proof.
  intros Hw Hh HT Hfuel Hseed. rewrite seed_border_scan in Hseed.
  destruct (seed_all_spec w h T (border_scan w h) HT) as (vis0 & Q & Hrun & Hinv).
  { intros c Hc. by apply elem_of_border_scan in Hc as [? _]. }
  rewrite Hrun in Hseed. injection Hseed as <-.
  assert (0 ≤ w) as Hw0 by lia. assert (0 ≤ h) as Hh0 by lia.
  destruct (flood_loop_spec w h T Hw0 Hh0 HT _ dirs fuel [] vis0 Q (λ d, reflexivity _) Hinv)
    as [[_ Hlt]|(vis & Hloop & Hinv')]; [cbn in Hlt; lia|].
  exists vis. cbn in Hinv'. destruct Hinv' as (Hcore & _). cbn in Hcore.
  rewrite app_nil_r in Hcore.
  pose proof (flood_core_bound w h T Hw0 Hh0 _ _ _ Hcore) as Hbound.
  destruct Hcore as (Hs & Hrd & Hnd & _).
  split_and!; [done..|].
  intros p Hp. specialize (Hrd p Hp). case_bool_decide as Hmem.
  - split; [intros _; by exists 1|done].
  - split; [done|]. intros (v & Hv & Hv0).
    by rewrite (reads_fun _ _ _ _ Hv Hrd) in Hv0.
Qed.


(** C9: each queue empties within [w * h] dequeues: with that much fuel
    the border fill and every component fill of the labelling scan return,
    the run never runs out of fuel, and on a grid with at least one cell it
    runs to completion; the border fill dequeues each marked cell once, no
    cell twice, and the component fills dequeue at most [w * h] cells in
    all ([area] counts the dequeues of a fill). *)
Theorem flood_fills_terminate w h fuel :
  0 ≤ w → 0 ≤ h → w * h < 2 ^ 31 → w * h ≤ Z.of_nat fuel →
  (∀ T, ndarray.shape T h w → 0 < w → 0 < h →
     ∃ visited, border_flood_fill w h T fuel = Done visited)
  ∧ (∀ T st, ndarray.shape T h w → 0 < w → 0 < h →
       seed_border w h T (ndarray.zeros h w, []) = Done st →
       ∃ visited, flood_loop w h T dirs fuel st = Done (visited, [])
         ∧ NoDup (flood_dequeued w h T dirs fuel st)
         ∧ Z.of_nat (length (flood_dequeued w h T dirs fuel st)) ≤ w * h
         ∧ ∀ p, in_bounds w h p →
             p ∈ flood_dequeued w h T dirs fuel st ↔ marked visited p)
  ∧ (∀ I, ndarray.shape I h w →
       ∃ lab label comps,
         label_interior w h I fuel = Done (lab, label, comps)
         ∧ total_area comps ≤ w * h)
  ∧ (∀ threshold limit pixels, ndarray.shape pixels h w →
       analyse threshold limit fuel (Image (w, h) pixels) ≠ OutOfFuel
       ∧ (0 < w → 0 < h →
          ∃ a, analyse threshold limit fuel (Image (w, h) pixels) = Done a)).
Proof.
  intros Hw Hh Hsmall Hfuel. split_and!.
  - intros T HT Hw' Hh'. by apply border_flood_fill_total.
  - intros T st HT Hw' Hh' Hseed. by apply border_dequeued_spec.
  - intros I HI.
    destruct (label_interior_spec w h I Hw Hh HI Hsmall fuel Hfuel)
      as ([[lab label] comps] & Hrun & Hinv).
    exists lab, label, comps. split; [done|].
    destruct Hinv as (_ & _ & _ & _ & _ & _ & _ & _ & _ & ->).
    rewrite <- length_cells by done. apply inj_le, length_filter.
  - intros threshold limit pixels Hpx.
    assert (well_formed (Image (w, h) pixels)) as Hwf by done.
    assert (0 < w → 0 < h →
            ∃ a, analyse threshold limit fuel (Image (w, h) pixels) = Done a) as Hpos.
    { intros Hw' Hh'. by apply analyse_total. }
    split; [|done].
    destruct (decide (0 < w ∧ 0 < h)) as [[Hw' Hh']|Hdeg].
    + destruct (Hpos Hw' Hh') as [a ->]. done.
    + destruct (analyse_no_cells threshold limit fuel _ Hwf) as (H1 & H2 & H3).
      cbn in *. destruct (decide (w = 0)) as [Hw0|Hw0].
      * destruct (decide (h ≤ 2)) as [Hh2|Hh2].
        -- destruct (H1 Hw0 Hh2) as (a & -> & _). done.
        -- rewrite H3 by lia. done.
      * rewrite H2 by lia. done.
Qed.

Lemma flood_fills_terminate_witness :
  (∀ T, ndarray.shape T 5 3 → 0 < 3 → 0 < 5 →
     ∃ visited, border_flood_fill 3 5 T 15 = Done visited)
  ∧ (∀ T st, ndarray.shape T 5 3 → 0 < 3 → 0 < 5 →
       seed_border 3 5 T (ndarray.zeros 5 3, []) = Done st →
       ∃ visited, flood_loop 3 5 T dirs 15 st = Done (visited, [])
         ∧ NoDup (flood_dequeued 3 5 T dirs 15 st)
         ∧ Z.of_nat (length (flood_dequeued 3 5 T dirs 15 st)) ≤ 3 * 5
         ∧ ∀ p, in_bounds 3 5 p →
             p ∈ flood_dequeued 3 5 T dirs 15 st ↔ marked visited p)
  ∧ (∀ I, ndarray.shape I 5 3 →
       ∃ lab label comps,
         label_interior 3 5 I 15 = Done (lab, label, comps)
         ∧ total_area comps ≤ 3 * 5)
  ∧ (∀ threshold limit pixels, ndarray.shape pixels 5 3 →
       analyse threshold limit 15 (Image (3, 5) pixels) ≠ OutOfFuel
       ∧ (0 < 3 → 0 < 5 →
          ∃ a, analyse threshold limit 15 (Image (3, 5) pixels) = Done a)).
Proof.
  apply (flood_fills_terminate 3 5 15); [lia|lia|done|cbn; lia].
Defined.

(** One dequeue too few: the border fill of a fully transparent 2x2 grid
    runs out of fuel after three dequeues. *)
Example border_flood_fill_needs_fuel :
  border_flood_fill 2 2 [ [tr; tr]; [tr; tr] ] 3 = OutOfFuel
  ∧ border_flood_fill 2 2 [ [tr; tr]; [tr; tr] ] 4 = Done [ [1; 1]; [1; 1] ].
Proof. split; reflexivity. Qed.

(** ** Order of the report among equal areas *)

Lemma first_index_of_label w h lab n k :
  labels_ordered (cells w h) lab n → 1 ≤ k ≤ n →
  ∃ i p, first_index w h lab k = Some i
         ∧ cells w h !! i = Some p ∧ reads lab p k
         ∧ ∀ j q, (j < i)%nat → cells w h !! j = Some q →
                  ∃ v, reads lab q v ∧ v < k.
Proof.
  intros Hord Hk. destruct (Hord k Hk) as (i & p & Hi & Hp & Hbefore).
  exists i, p. split_and!; [|done..].
  unfold first_index.
  assert (list_find (λ p, ndarray.getitem lab p.2 p.1 = Done k) (cells w h)
          = Some (i, p)) as ->; [|done].
  apply list_find_Some. split_and!; [done..|].
  intros j q Hq Hj Hqk. destruct (Hbefore j q Hj Hq) as (v & Hv & Hlt).
  pose proof (reads_fun _ _ _ _ Hv Hqk). lia.
Qed.

(** C10: the sort is stable, so the entries of one area are reported in
    the order of the labeler's list; that list is in label order (entry [k]
    describes label [k + 1]), and labels are given in row-major order of
    the first cell of each component. *)
Theorem equal_areas_in_scan_order threshold limit fuel img a :
  well_formed img → analyse threshold limit fuel img = Done a →
  let w := (size img).1 in
  let h := (size img).2 in
  (∀ v, filter (λ c, c_area c = v) (components a)
        = filter (λ c, c_area c = v) (labeler_output a))
  ∧ (∀ k c, labeler_output a !! k = Some c →
       describes w h (label_grid a) (Z.of_nat k + 1) c)
  ∧ (∀ j k, 1 ≤ j → j < k → k ≤ Z.of_nat (length (labeler_output a)) →
       ∃ ij ik, first_index w h (label_grid a) j = Some ij
                ∧ first_index w h (label_grid a) k = Some ik
                ∧ (ij < ik)%nat)
  ∧ tail (tail (stdout a)) = hole_line <$> hole_entries limit (components a).
Proof.
  intros Hwf Hrun w h. pose proof (analyse_sound _ _ _ _ _ Hwf Hrun) as Hok.
  destruct Hok as (_ & _ & _ & _ & _ & _ & Hscan & Hsort & Hout).
  fold w h in Hscan.
  destruct Hscan as (_ & _ & _ & _ & _ & _ & _ & Hdesc & Hord & _).
  split_and!.
  - intros v. rewrite Hsort. apply sort_by_area_stable.
  - done.
  - intros j k Hj Hjk Hk.
    destruct (first_index_of_label w h _ _ j Hord) as (ij & pj & Hfj & Hcj & Hrj & Hbj);
      [lia|].
    destruct (first_index_of_label w h _ _ k Hord) as (ik & pk & Hfk & Hck & Hrk & Hbk);
      [lia|].
    exists ij, ik. split_and!; [done..|].
    destruct (decide (ij < ik)%nat) as [|Hge]; [done|]. exfalso.
    destruct (decide (ij = ik)) as [->|Hne].
    + assert (pj = pk) as -> by congruence.
      pose proof (reads_fun _ _ _ _ Hrj Hrk). lia.
    + destruct (Hbj ik pk) as (v & Hv & Hlt); [lia|done|].
      pose proof (reads_fun _ _ _ _ Hv Hrk). lia.
  - rewrite Hout, Hsort. done.
Qed.

Lemma three_holes_wf : well_formed three_holes.
Proof.
  apply image_of_rows_wf; [lia|lia|done|]. split; [reflexivity|repeat constructor].
Qed.

Example detect_cutout_three_holes :
  (λ a, (labeler_output a, components a)) <$> detect_cutout 35 three_holes
  = Done ([Component 1 1 1 1 1; Component 2 3 1 1 2; Component 1 5 1 1 1],
          [Component 2 3 1 1 2; Component 1 1 1 1 1; Component 1 5 1 1 1]).
Proof. vm_compute. reflexivity. Qed.

Lemma equal_areas_in_scan_order_witness :
  ∃ a, detect_cutout 35 three_holes = Done a
    ∧ let w := 7 in
      let h := 5 in
      (∀ v, filter (λ c, c_area c = v) (components a)
            = filter (λ c, c_area c = v) (labeler_output a))
      ∧ (∀ k c, labeler_output a !! k = Some c →
           describes w h (label_grid a) (Z.of_nat k + 1) c)
      ∧ (∀ j k, 1 ≤ j → j < k → k ≤ Z.of_nat (length (labeler_output a)) →
           ∃ ij ik, first_index w h (label_grid a) j = Some ij
                    ∧ first_index w h (label_grid a) k = Some ik
                    ∧ (ij < ik)%nat)
      ∧ tail (tail (stdout a)) = hole_line <$> hole_entries 5 (components a).
Proof.
  eexists. split; [vm_compute; reflexivity|].
  apply (equal_areas_in_scan_order 16 5 35 three_holes);
    [exact three_holes_wf|vm_compute; reflexivity].
Defined.

(** ** Further properties of the run *)

(** Scenario 1 and scenario 2: a fully opaque and a fully transparent
    4x4 image. *)
Definition solid4 : image := image_of_rows 4 4
  [ [op; op; op; op];
    [op; op; op; op];
    [op; op; op; op];
    [op; op; op; op] ].

Definition clear4 : image := image_of_rows 4 4
  [ [tr; tr; tr; tr];
    [tr; tr; tr; tr];
    [tr; tr; tr; tr];
    [tr; tr; tr; tr] ].

Lemma solid4_wf : well_formed solid4.
Proof.
  apply image_of_rows_wf; [lia|lia|done|]. split; [reflexivity|repeat constructor].
Qed.

Lemma clear4_wf : well_formed clear4.
Proof.
  apply image_of_rows_wf; [lia|lia|done|]. split; [reflexivity|repeat constructor].
Qed.

(** A labeled cell is transparent, not visited and off the border. *)
Lemma labeled_is_interior threshold limit img a p k :
  well_formed img → analysis_ok threshold limit img a →
  in_bounds (size img).1 (size img).2 p → reads (label_grid a) p k → k ≠ 0 →
  holds (transparent a) p ∧ reads (visited a) p 0
  ∧ ¬ on_border (size img).1 (size img).2 p
  ∧ 1 ≤ k ≤ Z.of_nat (length (labeler_output a)).
Proof.
  intros Hwf Hok Hin Hk Hk0.
  pose proof Hok as (_ & _ & _ & _ & _ & Hint & Hscan & _).
  destruct Hscan as (_ & Hlok & _).
  destruct (Hlok p Hin) as (v & Hv & Hrange & Himp).
  pose proof (reads_fun _ _ _ _ Hk Hv) as ->.
  destruct (Hint p Hin) as [Hi _]. destruct (Hi (Himp Hk0)) as [HT H0].
  split_and!; [done|done| |lia|lia].
  intros Hb. destruct (border_labels_zero _ _ _ _ p Hwf Hok Hb) as [Hz _].
  pose proof (reads_fun _ _ _ _ Hv Hz). done.
Qed.

(** Without a labeled cell there is no component, and the report says so. *)
Lemma no_label_no_component threshold limit img a :
  analysis_ok threshold limit img a →
  (∀ p, in_bounds (size img).1 (size img).2 p → reads (label_grid a) p 0) →
  labeler_output a = [] ∧ components a = []
  ∧ stdout a = [ "Dimensions: " +:+ pretty (size img).1 +:+ "x"
                   +:+ pretty (size img).2;
                 "Found 0 interior holes" ].
Proof.
  intros Hok Hzero.
  assert (labeler_output a = []) as Hnone.
  { destruct (labeler_output a) as [|c comps] eqn:Hc; [done|]. exfalso.
    pose proof Hok as (_ & _ & _ & _ & _ & _ & Hscan & _).
    destruct Hscan as (_ & _ & _ & _ & _ & _ & _ & Hdesc & _).
    destruct (Hdesc 0%nat c) as (_ & _ & (p & Hin & Hr & _) & _); [by rewrite Hc|].
    pose proof (reads_fun _ _ _ _ Hr (Hzero p Hin)). done. }
  destruct Hok as (_ & _ & _ & _ & _ & _ & _ & Hsort & Hout).
  split_and!; [done|by rewrite Hsort, Hnone|].
  rewrite Hout, Hnone. unfold report, hole_entries. cbn. by rewrite take_nil.
Qed.

(** X1: on a grid with no row and at least one column, or with no column
    and at least three rows, the seeding loops index outside the mask and
    the run raises [IndexError]. *)
Theorem empty_axis_raises threshold limit fuel img :
  well_formed img →
  ((size img).2 = 0 ∧ 0 < (size img).1) ∨ ((size img).1 = 0 ∧ 3 ≤ (size img).2) →
  analyse threshold limit fuel img = Raise IndexError.
Proof.
  intros Hwf Hdeg.
  destruct (analyse_no_cells threshold limit fuel img Hwf) as (_ & Hrows & Hcols).
  destruct Hdeg as [[? ?]|[? ?]]; auto.
Qed.

Lemma empty_axis_raises_witness :
  analyse 16 5 9 no_columns_image3 = Raise IndexError
  ∧ analyse 16 5 9 no_rows_image = Raise IndexError.
Proof.
  split.
  - apply (empty_axis_raises 16 5 9 no_columns_image3);
      [exact no_columns_image3_wf|right; cbn; lia].
  - apply (empty_axis_raises 16 5 9 no_rows_image);
      [exact no_rows_image_wf|left; cbn; lia].
Defined.

(** X2: a grid at most two cells wide or at most two cells high has no
    interior hole: every cell is on the border, no cell is labeled and the
    report finds 0 holes. *)
Theorem thin_grid_has_no_hole threshold limit fuel img a :
  well_formed img → analyse threshold limit fuel img = Done a →
  (size img).1 ≤ 2 ∨ (size img).2 ≤ 2 →
  (∀ p, in_bounds (size img).1 (size img).2 p → reads (label_grid a) p 0)
  ∧ labeler_output a = [] ∧ components a = []
  ∧ stdout a = [ "Dimensions: " +:+ pretty (size img).1 +:+ "x"
                   +:+ pretty (size img).2;
                 "Found 0 interior holes" ].
Proof.
  intros Hwf Hrun Hthin. pose proof (analyse_sound _ _ _ _ _ Hwf Hrun) as Hok.
  assert (∀ p, in_bounds (size img).1 (size img).2 p → reads (label_grid a) p 0)
    as Hzero.
  { intros p Hin. apply (border_labels_zero _ _ _ _ p Hwf Hok).
    split; [done|]. destruct Hin as [? ?]. lia. }
  split; [done|]. by eapply no_label_no_component.
Qed.

(** A grid of two rows. *)
Definition two_rows : image := image_of_rows 3 2 [ [tr; tr; tr]; [tr; op; tr] ].

Lemma two_rows_wf : well_formed two_rows.
Proof.
  apply image_of_rows_wf; [lia|lia|done|]. split; [reflexivity|repeat constructor].
Qed.

Lemma thin_grid_has_no_hole_witness :
  ∃ a, detect_cutout 6 two_rows = Done a
    ∧ (∀ p, in_bounds 3 2 p → reads (label_grid a) p 0)
    ∧ labeler_output a = [] ∧ components a = []
    ∧ stdout a = [ "Dimensions: " +:+ pretty 3 +:+ "x" +:+ pretty 2;
                   "Found 0 interior holes" ].
Proof.
  eexists. split; [vm_compute; reflexivity|].
  apply (thin_grid_has_no_hole 16 5 6 two_rows);
    [exact two_rows_wf|vm_compute; reflexivity|right; cbn; lia].
Defined.

(** X3: the bounding box of every reported hole stays clear of the border
    rows and columns, so its area is at most [(w - 2) * (h - 2)]. *)
Theorem hole_box_clear_of_border threshold limit fuel img a c :
  well_formed img → analyse threshold limit fuel img = Done a →
  c ∈ components a →
  1 ≤ c_x c ∧ c_x c + c_w c ≤ (size img).1 - 1
  ∧ 1 ≤ c_y c ∧ c_y c + c_h c ≤ (size img).2 - 1
  ∧ 1 ≤ c_w c ∧ 1 ≤ c_h c
  ∧ c_area c ≤ ((size img).1 - 2) * ((size img).2 - 2).
Proof.
  intros Hwf Hrun Hc. pose proof (analyse_sound _ _ _ _ _ Hwf Hrun) as Hok.
  pose proof Hok as (_ & _ & _ & _ & _ & _ & Hscan & Hsort & _).
  destruct Hscan as (_ & _ & _ & _ & _ & _ & _ & Hdesc & _).
  rewrite Hsort, sort_by_area_perm in Hc.
  apply list_elem_of_lookup in Hc as [k Hk].
  pose proof (Hdesc k c Hk) as Hd.
  pose proof (describes_area_bounds _ _ _ _ _ Hd) as Harea.
  destruct Hd as (_ & Hbox & (p1 & Hin1 & Hr1 & Hx0) & (p2 & Hin2 & Hr2 & Hx1)
                  & (p3 & Hin3 & Hr3 & Hy0) & (p4 & Hin4 & Hr4 & Hy1)).
  pose proof (Hbox p1 Hin1 Hr1) as Hbox1.
  assert (∀ p, in_bounds (size img).1 (size img).2 p →
               reads (label_grid a) p (Z.of_nat k + 1) →
               1 ≤ p.1 ≤ (size img).1 - 2 ∧ 1 ≤ p.2 ≤ (size img).2 - 2) as Hclear.
  { intros p Hin Hr.
    destruct (labeled_is_interior _ _ _ _ p _ Hwf Hok Hin Hr) as (_ & _ & Hnb & _);
      [lia|].
    unfold on_border, in_bounds in Hnb. destruct Hin as [? ?]. lia. }
  pose proof (Hclear p1 Hin1 Hr1). pose proof (Hclear p2 Hin2 Hr2).
  pose proof (Hclear p3 Hin3 Hr3). pose proof (Hclear p4 Hin4 Hr4).
  split_and!; try lia. nia.
Qed.

Lemma hole_box_clear_of_border_witness :
  ∃ a, detect_cutout 25 ring5 = Done a
    ∧ 1 ≤ c_x (Component 9 1 1 3 3)
    ∧ c_x (Component 9 1 1 3 3) + c_w (Component 9 1 1 3 3) ≤ 5 - 1
    ∧ 1 ≤ c_y (Component 9 1 1 3 3)
    ∧ c_y (Component 9 1 1 3 3) + c_h (Component 9 1 1 3 3) ≤ 5 - 1
    ∧ 1 ≤ c_w (Component 9 1 1 3 3) ∧ 1 ≤ c_h (Component 9 1 1 3 3)
    ∧ c_area (Component 9 1 1 3 3) ≤ (5 - 2) * (5 - 2).
Proof.
  eexists. split; [vm_compute; reflexivity|].
  eapply (hole_box_clear_of_border 16 5 25 ring5 _ (Component 9 1 1 3 3));
    [|vm_compute; reflexivity|by left].
  apply image_of_rows_wf; [lia|lia|done|]. split; [reflexivity|repeat constructor].
Defined.

(** X4: a hole is enclosed: every 4-neighbour of a cell of component [k]
    is inside the grid and is either opaque, and then carries no label, or
    a transparent cell of the same component; whatever label the neighbour
    carries is [0] or [k], so it is never a cell of another component, and
    it is never exterior transparency. *)
Theorem hole_is_enclosed threshold limit fuel img a p q k :
  well_formed img → analyse threshold limit fuel img = Done a →
  in_bounds (size img).1 (size img).2 p →
  reads (label_grid a) p k → 1 ≤ k → adjacent p q →
  in_bounds (size img).1 (size img).2 q
  ∧ (is_opaque a q ∨ reads (label_grid a) q k)
  ∧ ¬ is_exterior a q
  ∧ (is_opaque a q → reads (label_grid a) q 0)
  ∧ (reads (label_grid a) q k → holds (transparent a) q)
  ∧ (∀ j, reads (label_grid a) q j → j = 0 ∨ j = k)
  ∧ (∀ j, j ≠ k → ¬ in_component a j q).
Proof.
  intros Hwf Hrun Hin Hk Hk1 Hadj.
  pose proof (analyse_sound _ _ _ _ _ Hwf Hrun) as Hok.
  destruct (labeled_is_interior _ _ _ _ p k Hwf Hok Hin Hk) as (HTp & H0p & Hnb & _);
    [lia|].
  assert (in_bounds (size img).1 (size img).2 q) as Hq.
  { unfold on_border, in_bounds in Hnb. unfold adjacent in Hadj.
    destruct Hin as [? ?]. split; lia. }
  pose proof Hok as (_ & _ & _ & Hchar & _ & Hint & Hscan & _).
  destruct Hscan as (Hslab & _ & Hcl & _).
  assert (holds (transparent a) q → reads (visited a) q 0) as Hq0.
  { intros HTq. destruct (Hchar q Hq) as [[H1|H0] Hiff]; [|done]. exfalso.
    apply Hiff in H1 as (s & Hs & Hconn).
    assert (reads (visited a) p 1) as H1p.
    { apply (Hchar p Hin). exists s. split; [done|].
      eapply connected_step; [exact Hconn|by apply adjacent_sym|done|done]. }
    pose proof (reads_fun _ _ _ _ H1p H0p). done. }
  assert (holds (transparent a) q → reads (label_grid a) q k) as Hsame.
  { intros HTq. apply (Hcl p q k); [done|done|done|done|lia|].
    apply Hint; [done|]. auto. }
  assert (∀ j, reads (label_grid a) q j → j ≠ 0 → holds (transparent a) q)
    as Hlabeled.
  { intros j Hj Hj0.
    by destruct (labeled_is_interior _ _ _ _ q j Hwf Hok Hq Hj Hj0) as [HTq _]. }
  assert (∀ j, reads (label_grid a) q j → j = 0 ∨ j = k) as Hlabels.
  { intros j Hj. destruct (decide (j = 0)) as [->|Hj0]; [by left|right].
    exact (reads_fun _ _ _ _ Hj (Hsame (Hlabeled j Hj Hj0))). }
  split_and!; [done| | | | |done|].
  - unfold is_opaque.
    destruct (decide (ndarray.getitem (transparent a) q.2 q.1 = Done true))
      as [HTq|HTq]; fold (holds (transparent a) q) in HTq; [right|by left].
    by apply Hsame.
  - intros [HTq (v & Hv & Hv0)].
    pose proof (reads_fun _ _ _ _ Hv (Hq0 HTq)). done.
  - intros Hop. destruct (reads_total _ _ _ q Hslab Hq) as [j Hj].
    destruct (decide (j = 0)) as [->|Hj0]; [done|].
    destruct Hop. by apply (Hlabeled j).
  - intros Hqk. apply (Hlabeled k); [done|lia].
  - intros j Hjk [Hj1 Hj]. destruct (Hlabels j Hj); lia.
Qed.

Lemma hole_is_enclosed_witness :
  ∃ a, detect_cutout 25 ring5 = Done a
    ∧ (in_bounds 5 5 (0, 1)
       ∧ (is_opaque a (0, 1) ∨ reads (label_grid a) (0, 1) 1)
       ∧ ¬ is_exterior a (0, 1)
       ∧ (is_opaque a (0, 1) → reads (label_grid a) (0, 1) 0)
       ∧ (reads (label_grid a) (0, 1) 1 → holds (transparent a) (0, 1))
       ∧ (∀ j, reads (label_grid a) (0, 1) j → j = 0 ∨ j = 1)
       ∧ (∀ j, j ≠ 1 → ¬ in_component a j (0, 1)))
    ∧ (in_bounds 5 5 (2, 1)
       ∧ (is_opaque a (2, 1) ∨ reads (label_grid a) (2, 1) 1)
       ∧ ¬ is_exterior a (2, 1)
       ∧ (is_opaque a (2, 1) → reads (label_grid a) (2, 1) 0)
       ∧ (reads (label_grid a) (2, 1) 1 → holds (transparent a) (2, 1))
       ∧ (∀ j, reads (label_grid a) (2, 1) j → j = 0 ∨ j = 1)
       ∧ (∀ j, j ≠ 1 → ¬ in_component a j (2, 1)))
    ∧ is_opaque a (0, 1)
    ∧ reads (label_grid a) (2, 1) 1.
Proof.
  eexists. split; [vm_compute; reflexivity|].
  assert (well_formed ring5) as Hwf.
  { apply image_of_rows_wf; [lia|lia|done|].
    split; [reflexivity|repeat constructor]. }
  split; [|split; [|split; by vm_compute]].
  - eapply (hole_is_enclosed 16 5 25 ring5 _ (1, 1) (0, 1) 1);
      [exact Hwf|vm_compute; reflexivity|cbn; unfold in_bounds; cbn; lia
      |reflexivity|lia|unfold adjacent; cbn; lia].
  - eapply (hole_is_enclosed 16 5 25 ring5 _ (1, 1) (2, 1) 1);
      [exact Hwf|vm_compute; reflexivity|cbn; unfold in_bounds; cbn; lia
      |reflexivity|lia|unfold adjacent; cbn; lia].
Defined.

Lemma length_le_total_area l :
  (∀ c, c ∈ l → 1 ≤ c_area c) → Z.of_nat (length l) ≤ total_area l.
Proof.
  induction l as [|c l IH]; intros Hpos; [done|]. cbn.
  assert (1 ≤ c_area c) by (apply Hpos; by left).
  assert (Z.of_nat (length l) ≤ total_area l).
  { apply IH. intros d Hd. apply Hpos. by right. }
  unfold total_area in *. lia.
Qed.

(** X5: the second line printed is [Found <n> interior holes], where [n]
    is the number of components the labeler produced (the sort neither
    drops nor adds one); [n] is at most the number of interior cells, and
    the interior cells are at most the cells off the border, so the count
    printed is at most [max(0, w - 2) * max(0, h - 2)]. *)
Theorem hole_count_bound threshold limit fuel img a :
  well_formed img → analyse threshold limit fuel img = Done a →
  length (components a) = length (labeler_output a)
  ∧ Z.of_nat (length (components a)) ≤ total_area (labeler_output a)
  ∧ total_area (labeler_output a)
    ≤ Z.max 0 ((size img).1 - 2) * Z.max 0 ((size img).2 - 2)
  ∧ (∃ n : nat,
       stdout a !! 1%nat
       = Some ("Found " +:+ pretty (Z.of_nat n) +:+ " interior holes")
       ∧ n = length (labeler_output a)
       ∧ n = length (components a)
       ∧ Z.of_nat n ≤ total_area (labeler_output a)
       ∧ Z.of_nat n ≤ Z.max 0 ((size img).1 - 2) * Z.max 0 ((size img).2 - 2)).
Proof.
  intros Hwf Hrun. pose proof (analyse_sound _ _ _ _ _ Hwf Hrun) as Hok.
  pose proof Hok as (_ & _ & _ & _ & _ & _ & Hscan & Hsort & Hout).
  destruct Hscan as (Hs & _ & _ & _ & _ & _ & _ & Hdesc & _ & Htotal).
  assert (length (components a) = length (labeler_output a)) as Hlen.
  { rewrite Hsort. apply Permutation_length, sort_by_area_perm. }
  assert (Z.of_nat (length (labeler_output a)) ≤ total_area (labeler_output a))
    as Hcount.
  { apply length_le_total_area.
    intros c [k Hk]%list_elem_of_lookup.
    pose proof (describes_area_bounds _ _ _ _ _ (Hdesc k c Hk)). lia. }
  assert (total_area (labeler_output a)
          ≤ Z.max 0 ((size img).1 - 2) * Z.max 0 ((size img).2 - 2)) as Harea.
  { rewrite Htotal.
    set (f := λ p : pixel, (p.1 - 1, p.2 - 1)).
    rewrite <- (length_fmap f).
    apply NoDup_in_bounds_length; [lia|lia| |].
    + apply NoDup_fmap_2_strong; [|apply NoDup_filter, NoDup_cells].
      intros [x1 y1] [x2 y2] _ _ [= ??]. f_equal; lia.
    + intros q (p & -> & Hp)%list_elem_of_fmap.
      apply elem_of_cells_marked in Hp as [Hin (v & Hv & Hv0)]; [|done].
      destruct (labeled_is_interior _ _ _ _ p v Hwf Hok Hin Hv Hv0)
        as (_ & _ & Hnb & _).
      unfold on_border, in_bounds in Hnb. destruct Hin as [? ?].
      unfold in_bounds, f. cbn. lia. }
  split_and!; [done|by rewrite Hlen|done|].
  exists (length (labeler_output a)). split_and!; [|done|done|done|lia].
  rewrite Hout, lookup_cons_ne_0, Nat.pred_succ by done.
  apply lookup_report_found.
Qed.

Lemma hole_count_bound_witness :
  ∃ a, detect_cutout 35 three_holes = Done a
    ∧ (length (components a) = length (labeler_output a)
       ∧ Z.of_nat (length (components a)) ≤ total_area (labeler_output a)
       ∧ total_area (labeler_output a) ≤ Z.max 0 (7 - 2) * Z.max 0 (5 - 2)
       ∧ (∃ n : nat,
            stdout a !! 1%nat
            = Some ("Found " +:+ pretty (Z.of_nat n) +:+ " interior holes")
            ∧ n = length (labeler_output a)
            ∧ n = length (components a)
            ∧ Z.of_nat n ≤ total_area (labeler_output a)
            ∧ Z.of_nat n ≤ Z.max 0 (7 - 2) * Z.max 0 (5 - 2)))
    ∧ stdout a !! 1%nat = Some "Found 3 interior holes".
Proof.
  eexists. split; [vm_compute; reflexivity|]. split; [|vm_compute; reflexivity].
  apply (hole_count_bound 16 5 35 three_holes);
    [exact three_holes_wf|vm_compute; reflexivity].
Defined.

(** The mask at a cell is the comparison of its alpha with the threshold. *)
Lemma transparent_iff_alpha threshold (pixels : ndarray.t rgba) h w p :
  ndarray.shape pixels h w → in_bounds w h p →
  ∃ row px,
    pixels !! Z.to_nat p.2 = Some row ∧ row !! Z.to_nat p.1 = Some px
    ∧ ndarray.getitem pixels p.2 p.1 = Done px
    ∧ (holds (ndarray.elementwise (λ v, bool_decide (v < threshold))
                (ndarray.elementwise alpha pixels)) p
       ↔ alpha px < threshold).
Proof.
  intros Hs [Hx Hy].
  destruct (getitem_in pixels h w p.2 p.1 Hs Hx Hy) as (row & px & Hrow & Hpx & Hget).
  exists row, px. split_and!; [done..|].
  unfold holds.
  erewrite getitem_elementwise;
    [|by apply elementwise_shape|done|done|by eapply getitem_elementwise].
  split.
  - intros [= Hb]. by apply bool_decide_eq_true in Hb.
  - intros Hlt. by rewrite bool_decide_eq_true_2.
Qed.

(** The entries of an array are what it reads at the cells in bounds. *)
Lemma entry_reads a h w (row : list Z) v :
  ndarray.shape a h w → row ∈ a → v ∈ row →
  ∃ p, in_bounds w h p ∧ reads a p v.
Proof.
  intros Hs [i Hi]%list_elem_of_lookup [j Hj]%list_elem_of_lookup.
  pose proof Hs as [Hlen _].
  pose proof (lookup_lt_Some _ _ _ Hi) as Hilt.
  pose proof (lookup_lt_Some _ _ _ Hj) as Hjlt.
  pose proof (shape_row _ _ _ _ _ Hs Hi) as Hrl.
  exists (Z.of_nat j, Z.of_nat i).
  assert (in_bounds w h (Z.of_nat j, Z.of_nat i)) as Hin
    by (unfold in_bounds; cbn; lia).
  split; [done|]. destruct Hin as [Hx Hy]. cbn in Hx, Hy.
  destruct (getitem_in a h w (Z.of_nat i) (Z.of_nat j) Hs Hx Hy)
    as (row' & v' & Hrow' & Hv' & Hget).
  rewrite Nat2Z.id in Hrow', Hv'. unfold reads. cbn. congruence.
Qed.

(** X6: on an image without a transparent pixel (every alpha at least the
    threshold) nothing is visited, nothing is labeled and the report finds
    0 holes. *)
Theorem opaque_image_has_no_hole threshold limit fuel img a :
  well_formed img → analyse threshold limit fuel img = Done a →
  Forall (Forall (λ px, threshold ≤ alpha px)) (data img) →
  (∀ p, in_bounds (size img).1 (size img).2 p →
     reads (visited a) p 0 ∧ reads (label_grid a) p 0)
  ∧ labeler_output a = [] ∧ components a = []
  ∧ stdout a = [ "Dimensions: " +:+ pretty (size img).1 +:+ "x"
                   +:+ pretty (size img).2;
                 "Found 0 interior holes" ].
Proof.
  intros Hwf Hrun Hall. pose proof (analyse_sound _ _ _ _ _ Hwf Hrun) as Hok.
  pose proof Hok as (Htr & _ & _ & Hchar & _ & Hint & Hscan & _).
  destruct Hscan as (_ & Hlok & _).
  pose proof Hwf as (_ & _ & Hdata & _).
  assert (∀ p, in_bounds (size img).1 (size img).2 p → ¬ holds (transparent a) p)
    as Hopaque.
  { intros p Hin. rewrite Htr.
    destruct (transparent_iff_alpha threshold _ _ _ p Hdata Hin)
      as (row & px & Hrow & Hpx & _ & ->).
    rewrite Forall_lookup in Hall. pose proof (Hall _ _ Hrow) as Hr.
    rewrite Forall_lookup in Hr. pose proof (Hr _ _ Hpx). lia. }
  assert (∀ p, in_bounds (size img).1 (size img).2 p →
               reads (visited a) p 0 ∧ reads (label_grid a) p 0) as Hzero.
  { intros p Hin. split.
    - destruct (Hchar p Hin) as [[H1|H0] Hiff]; [|done]. exfalso.
      apply Hiff in H1 as (s & _ & Hconn).
      apply connected_ends in Hconn as (_ & _ & _ & HTp).
      by apply (Hopaque p Hin).
    - destruct (Hlok p Hin) as (v & Hv & _ & Himp).
      destruct (decide (v = 0)) as [->|Hne]; [done|]. exfalso.
      apply (Hopaque p Hin). by apply Hint, Himp. }
  split; [done|]. eapply no_label_no_component; [done|].
  intros p Hin. by apply Hzero.
Qed.

Lemma opaque_image_has_no_hole_witness :
  ∃ a, detect_cutout 16 solid4 = Done a
    ∧ (∀ p, in_bounds 4 4 p → reads (visited a) p 0 ∧ reads (label_grid a) p 0)
    ∧ labeler_output a = [] ∧ components a = []
    ∧ stdout a = [ "Dimensions: " +:+ pretty 4 +:+ "x" +:+ pretty 4;
                   "Found 0 interior holes" ].
Proof.
  eexists. split; [vm_compute; reflexivity|].
  apply (opaque_image_has_no_hole 16 5 16 solid4);
    [exact solid4_wf|vm_compute; reflexivity|].
  cbn. repeat constructor; cbn; lia.
Defined.

(** In a mask that is true everywhere a row is one path. *)
Lemma row_connected w h T y (n : nat) :
  (∀ p, in_bounds w h p → holds T p) → 0 ≤ y < h → Z.of_nat n < w →
  connected w h T (0, y) (Z.of_nat n, y).
Proof.
  intros Hall Hy. induction n as [|n IH]; intros Hn.
  - apply connected_refl; [|apply Hall]; unfold in_bounds; cbn; lia.
  - assert (in_bounds w h (Z.of_nat (S n), y)) as Hin
      by (unfold in_bounds; cbn; lia).
    eapply connected_step; [apply IH; lia| |done|by apply Hall].
    unfold adjacent. cbn. lia.
Qed.

(** X7: on an image without an opaque pixel (every alpha below the
    threshold) every pixel is visited as exterior, nothing is labeled and
    the report finds 0 holes. *)
Theorem transparent_image_is_exterior threshold limit fuel img a :
  well_formed img → analyse threshold limit fuel img = Done a →
  Forall (Forall (λ px, alpha px < threshold)) (data img) →
  (∀ p, in_bounds (size img).1 (size img).2 p →
     reads (visited a) p 1 ∧ reads (label_grid a) p 0)
  ∧ labeler_output a = [] ∧ components a = []
  ∧ stdout a = [ "Dimensions: " +:+ pretty (size img).1 +:+ "x"
                   +:+ pretty (size img).2;
                 "Found 0 interior holes" ].
Proof.
  intros Hwf Hrun Hall. pose proof (analyse_sound _ _ _ _ _ Hwf Hrun) as Hok.
  pose proof Hok as (Htr & _ & _ & Hchar & _ & Hint & Hscan & _).
  destruct Hscan as (_ & Hlok & _).
  pose proof Hwf as (_ & _ & Hdata & _).
  assert (∀ p, in_bounds (size img).1 (size img).2 p → holds (transparent a) p)
    as Hclear.
  { intros p Hin. rewrite Htr.
    destruct (transparent_iff_alpha threshold _ _ _ p Hdata Hin)
      as (row & px & Hrow & Hpx & _ & ->).
    rewrite Forall_lookup in Hall. pose proof (Hall _ _ Hrow) as Hr.
    rewrite Forall_lookup in Hr. exact (Hr _ _ Hpx). }
  assert (∀ p, in_bounds (size img).1 (size img).2 p →
               reads (visited a) p 1 ∧ reads (label_grid a) p 0) as Hall1.
  { intros p Hin.
    assert (reads (visited a) p 1) as H1.
    { apply (Hchar p Hin). exists (0, p.2). destruct Hin as [Hx Hy]. split.
      - unfold on_border, in_bounds. cbn. lia.
      - replace p with (Z.of_nat (Z.to_nat p.1), p.2) at 2
          by (destruct p; cbn in *; f_equal; lia).
        apply row_connected; [done|done|lia]. }
    split; [done|].
    destruct (Hlok p Hin) as (v & Hv & _ & Himp).
    destruct (decide (v = 0)) as [->|Hne]; [done|]. exfalso.
    apply Himp, Hint in Hne as [_ H0]; [|done].
    pose proof (reads_fun _ _ _ _ H1 H0). done. }
  split; [done|]. eapply no_label_no_component; [done|].
  intros p Hin. by apply Hall1.
Qed.

Lemma transparent_image_is_exterior_witness :
  ∃ a, detect_cutout 16 clear4 = Done a
    ∧ (∀ p, in_bounds 4 4 p → reads (visited a) p 1 ∧ reads (label_grid a) p 0)
    ∧ labeler_output a = [] ∧ components a = []
    ∧ stdout a = [ "Dimensions: " +:+ pretty 4 +:+ "x" +:+ pretty 4;
                   "Found 0 interior holes" ].
Proof.
  eexists. split; [vm_compute; reflexivity|].
  apply (transparent_image_is_exterior 16 5 16 clear4);
    [exact clear4_wf|vm_compute; reflexivity|].
  cbn. repeat constructor; cbn; lia.
Defined.

(** X8: with the script's threshold, a pixel is opaque iff its alpha is
    at least 16; such a pixel is never visited and never labeled, so every
    visited or labeled pixel has an alpha below 16. *)
Theorem classes_follow_alpha fuel img a p px :
  well_formed img → detect_cutout fuel img = Done a →
  in_bounds (size img).1 (size img).2 p →
  ndarray.getitem (data img) p.2 p.1 = Done px →
  (is_opaque a p ↔ 16 ≤ alpha px)
  ∧ (16 ≤ alpha px → reads (visited a) p 0 ∧ reads (label_grid a) p 0)
  ∧ (marked (visited a) p ∨ marked (label_grid a) p → alpha px < 16).
Proof.
  intros Hwf Hrun Hin Hpx. pose proof (analyse_sound _ _ _ _ _ Hwf Hrun) as Hok.
  pose proof Hok as (Htr & _ & _ & Hchar & _ & Hint & Hscan & _).
  destruct Hscan as (_ & Hlok & _).
  pose proof Hwf as (_ & _ & Hdata & _).
  destruct (transparent_iff_alpha 16 _ _ _ p Hdata Hin)
    as (row & px' & _ & _ & Hget & Hiff).
  assert (px' = px) as -> by congruence. rewrite <- Htr in Hiff.
  assert (16 ≤ alpha px → reads (visited a) p 0 ∧ reads (label_grid a) p 0) as Hop.
  { intros Hge. split.
    - destruct (Hchar p Hin) as [[H1|H0] Hc]; [|done]. exfalso.
      apply Hc in H1 as (s & _ & Hconn).
      apply connected_ends in Hconn as (_ & _ & _ & HTp). apply Hiff in HTp. lia.
    - destruct (Hlok p Hin) as (v & Hv & _ & Himp).
      destruct (decide (v = 0)) as [->|Hne]; [done|]. exfalso.
      apply Himp, Hint in Hne as [HTp _]; [|done]. apply Hiff in HTp. lia. }
  split_and!; [|done|].
  - unfold is_opaque. rewrite Hiff. lia.
  - intros Hm. destruct (decide (alpha px < 16)) as [|Hge]; [done|]. exfalso.
    destruct Hop as [H0 Hl0]; [lia|].
    destruct Hm as [(v & Hv & Hv0)|(v & Hv & Hv0)].
    + pose proof (reads_fun _ _ _ _ Hv H0). done.
    + pose proof (reads_fun _ _ _ _ Hv Hl0). done.
Qed.

Lemma classes_follow_alpha_witness :
  ∃ a, detect_cutout 25 ring5 = Done a
    ∧ (is_opaque a (0, 0) ↔ 16 ≤ alpha opaque_px)
    ∧ (16 ≤ alpha opaque_px →
       reads (visited a) (0, 0) 0 ∧ reads (label_grid a) (0, 0) 0)
    ∧ (marked (visited a) (0, 0) ∨ marked (label_grid a) (0, 0) →
       alpha opaque_px < 16).
Proof.
  eexists. split; [vm_compute; reflexivity|].
  eapply (classes_follow_alpha 25 ring5 _ (0, 0) opaque_px);
    [|vm_compute; reflexivity|unfold in_bounds; cbn; lia|reflexivity].
  apply image_of_rows_wf; [lia|lia|done|]. split; [reflexivity|repeat constructor].
Defined.

(** X9: the arrays keep the shape (h, w) of the image, and no stored
    value leaves the range of its dtype: [visited] holds only 0 and 1,
    [labeled] only 0 and the labels 1..n of the n components, with n below
    2^31. *)
Theorem stored_values_in_range threshold limit fuel img a :
  well_formed img → analyse threshold limit fuel img = Done a →
  ndarray.shape (transparent a) (size img).2 (size img).1
  ∧ ndarray.shape (visited a) (size img).2 (size img).1
  ∧ ndarray.shape (interior a) (size img).2 (size img).1
  ∧ ndarray.shape (label_grid a) (size img).2 (size img).1
  ∧ (∀ row v, row ∈ visited a → v ∈ row → v = 0 ∨ v = 1)
  ∧ (∀ row v, row ∈ label_grid a → v ∈ row →
       0 ≤ v ≤ Z.of_nat (length (labeler_output a)))
  ∧ Z.of_nat (length (labeler_output a)) ≤ (size img).1 * (size img).2
  ∧ Z.of_nat (length (labeler_output a)) < 2 ^ 31.
Proof.
  intros Hwf Hrun. pose proof (analyse_sound _ _ _ _ _ Hwf Hrun) as Hok.
  destruct Hok as (_ & HT & Hvis & Hchar & HI & _ & Hscan & _).
  destruct Hscan as (Hlab & Hlok & _ & _ & _ & _ & Hle & _).
  destruct Hwf as (Hw & Hh & _ & Hsmall).
  rewrite length_cells in Hle by done.
  split_and!; [done|done|done|done| | |done|lia].
  - intros row v Hrow Hv.
    destruct (entry_reads _ _ _ row v Hvis Hrow Hv) as (p & Hin & Hr).
    destruct (Hchar p Hin) as [[H1|H0] _].
    + right. by eapply reads_fun.
    + left. by eapply reads_fun.
  - intros row v Hrow Hv.
    destruct (entry_reads _ _ _ row v Hlab Hrow Hv) as (p & Hin & Hr).
    destruct (Hlok p Hin) as (v' & Hv' & Hrange & _).
    by rewrite (reads_fun _ _ _ _ Hr Hv').
Qed.

Lemma stored_values_in_range_witness :
  ∃ a, detect_cutout 35 three_holes = Done a
    ∧ ndarray.shape (transparent a) 5 7
    ∧ ndarray.shape (visited a) 5 7
    ∧ ndarray.shape (interior a) 5 7
    ∧ ndarray.shape (label_grid a) 5 7
    ∧ (∀ row v, row ∈ visited a → v ∈ row → v = 0 ∨ v = 1)
    ∧ (∀ row v, row ∈ label_grid a → v ∈ row →
         0 ≤ v ≤ Z.of_nat (length (labeler_output a)))
    ∧ Z.of_nat (length (labeler_output a)) ≤ 7 * 5
    ∧ Z.of_nat (length (labeler_output a)) < 2 ^ 31.
Proof.
  eexists. split; [vm_compute; reflexivity|].
  apply (stored_values_in_range 16 5 35 three_holes);
    [exact three_holes_wf|vm_compute; reflexivity].
Defined.

(** ** Further properties of the border fill *)

Lemma seed_enqueues T x y vis Q vis' Q' :
  seed T x y (vis, Q) = Done (vis', Q') →
  Q' = Q ∨ (Q' = Q ++ [(x, y)] ∧ holds T (x, y)).
Proof.
  unfold seed, holds. cbn.
  destruct (ndarray.getitem T y x) as [[]| |]; cbn; try done.
  - destruct (ndarray.getitem vis y x) as [v| |]; cbn; try done.
    case_bool_decide.
    + destruct (ndarray.setitem vis y x 1) as [vis1| |]; cbn; try done.
      intros [= <- <-]. by right.
    + intros [= <- <-]. by left.
  - intros [= <- <-]. by left.
Qed.

(** Seeding from any in-bounds candidates queues the transparent ones. *)
Lemma seed_all_queue w h T (cands : list pixel) :
  ndarray.shape T h w → (∀ c, c ∈ cands → in_bounds w h c) →
  ∃ vis Q,
    for_ cands (λ p, seed T p.1 p.2) (ndarray.zeros h w, []) = Done (vis, Q)
    ∧ flood_core w h T (λ p, p ∈ cands) Q vis
    ∧ (∀ p, p ∈ Q ↔ p ∈ cands ∧ holds T p).
Proof.
  intros HT Hc.
  destruct (for_invariant
    (λ pre (st : flood_state),
       flood_core w h T (λ p, p ∈ cands) st.2 st.1
       ∧ (∀ s, s ∈ pre → holds T s → s ∈ st.2)
       ∧ (∀ p, p ∈ st.2 → p ∈ pre ∧ holds T p))
    cands (λ p, seed T p.1 p.2) (ndarray.zeros h w, []))
    as ([vis Q] & Hrun & Hcore & Hseeds & Hfrom).
  - split_and!; [apply flood_core_zeros| |].
    + intros s Hs. by apply elem_of_nil in Hs.
    + intros p Hp. by apply elem_of_nil in Hp.
  - intros pre [x y] post [vis Q] -> (Hcore & Hseeds & Hfrom). cbn in *.
    destruct (seed_spec w h T HT (λ p, p ∈ pre ++ (x, y) :: post) Q vis Q x y Hcore)
      as (vis' & extra & Hrun & Hcore' & Hnew).
    + apply Hc. apply elem_of_app. right. by left.
    + apply elem_of_app. right. by left.
    + eexists. split; [exact Hrun|]. cbn. split_and!; [done| |].
      * intros s [Hs|Hs]%elem_of_app Hh.
        -- apply elem_of_app. left. by apply Hseeds.
        -- apply list_elem_of_singleton in Hs as ->. by apply Hnew.
      * intros p Hp.
        destruct (seed_enqueues _ _ _ _ _ _ _ Hrun) as [Heq|[Heq Hh]];
          rewrite Heq in Hp.
        -- destruct (Hfrom p Hp) as [? ?]. split; [|done].
           apply elem_of_app. by left.
        -- apply elem_of_app in Hp as [Hp|Hp].
           ++ destruct (Hfrom p Hp) as [? ?]. split; [|done].
              apply elem_of_app. by left.
           ++ apply list_elem_of_singleton in Hp as ->. split; [|done].
              apply elem_of_app. right. by left.
  - exists vis, Q. cbn in *. split_and!; [done..|].
    intros p. split; [by apply Hfrom|]. intros [? ?]. by apply Hseeds.
Qed.

(** X10: when the two seeding loops are done, the queue holds exactly the
    transparent border pixels, each once (also where the scans offer a
    pixel twice), and exactly these are marked visited. *)
Theorem seeding_enqueues_transparent_border w h T :
  0 < w → 0 < h → ndarray.shape T h w →
  ∃ visited queue,
    seed_border w h T (ndarray.zeros h w, []) = Done (visited, queue)
    ∧ NoDup queue
    ∧ (∀ p, p ∈ queue ↔ on_border w h p ∧ holds T p)
    ∧ (∀ p, in_bounds w h p → marked visited p ↔ p ∈ queue).
Proof.
  intros Hw Hh HT.
  assert (∀ c, c ∈ border_scan w h → in_bounds w h c) as Hcin.
  { intros c Hc. by apply elem_of_border_scan in Hc as [? _]. }
  destruct (seed_all_queue w h T (border_scan w h) HT Hcin)
    as (vis & Q & Hrun & Hcore & HQ).
  exists vis, Q. rewrite seed_border_scan. split; [done|].
  destruct Hcore as (Hs & Hrd & Hnd & _).
  split_and!; [done| |].
  - intros p. rewrite HQ, elem_of_border_scan by done. done.
  - intros p Hin. specialize (Hrd p Hin). case_bool_decide as Hmem.
    + split; [done|]. intros _. by exists 1.
    + split; [|done]. intros (v & Hv & Hv0).
      by rewrite (reads_fun _ _ _ _ Hv Hrd) in Hv0.
Qed.

Lemma seeding_enqueues_transparent_border_witness :
  ∃ visited queue,
    seed_border 1 3 column (ndarray.zeros 3 1, []) = Done (visited, queue)
    ∧ NoDup queue
    ∧ (∀ p, p ∈ queue ↔ on_border 1 3 p ∧ holds column p)
    ∧ (∀ p, in_bounds 1 3 p → marked visited p ↔ p ∈ queue).
Proof.
  apply (seeding_enqueues_transparent_border 1 3 column); [lia|lia|].
  split; [reflexivity|]. repeat constructor.
Defined.

Example seed_border_column :
  seed_border 1 3 column (ndarray.zeros 3 1, [])
  = Done ([ [0]; [1]; [0] ], [(0, 1)]).
Proof. reflexivity. Qed.

(** X11: one neighbour visit of the border fill never fails, whatever the
    centre and the offset (the bounds test guards both array reads); it
    never clears or changes a mark; and it appends a pixel to the queue
    only if that pixel is in bounds, transparent and was unmarked, marking
    it at the same time. *)
Theorem visit_neighbor_step w h T cx cy d vis Q :
  ndarray.shape T h w → ndarray.shape vis h w →
  ∃ vis' Q',
    visit_neighbor w h T cx cy d (vis, Q) = Done (vis', Q')
    ∧ ndarray.shape vis' h w
    ∧ (∀ p v, in_bounds w h p → reads vis p v → v ≠ 0 → reads vis' p v)
    ∧ ((vis' = vis ∧ Q' = Q)
       ∨ (Q' = Q ++ [(cx + d.1, cy + d.2)]
          ∧ in_bounds w h (cx + d.1, cy + d.2)
          ∧ holds T (cx + d.1, cy + d.2)
          ∧ reads vis (cx + d.1, cy + d.2) 0
          ∧ reads vis' (cx + d.1, cy + d.2) 1)).
Proof.
  intros HT Hs. unfold visit_neighbor. cbn.
  set (nx := cx + d.1). set (ny := cy + d.2).
  destruct (decide (in_bounds w h (nx, ny))) as [Hin|Hout].
  - pose proof Hin as [Hx Hy]. cbn in Hx, Hy.
    rewrite !bool_decide_eq_true_2 by done. cbn.
    destruct (getitem_is_Done vis h w ny nx Hs Hx Hy) as [v Hv]. rewrite Hv. cbn.
    case_bool_decide as Hv0; cbn; [subst v|exists vis, Q; split_and!; [done|done|by auto|by left]].
    destruct (getitem_is_Done T h w ny nx HT Hx Hy) as [t Ht]. rewrite Ht. cbn.
    destruct t; [|exists vis, Q; split_and!; [done|done|by auto|by left]].
    destruct (setitem_in vis h w ny nx 1 Hs Hx Hy) as (row & _ & Hset).
    rewrite Hset. cbn. eexists _, _. split; [done|]. split_and!.
    + eapply setitem_shape; eauto.
    + intros p u [Hpx Hpy] Hu Hu0. unfold reads in *.
      erewrite getitem_setitem_ne; [exact Hu|exact Hs|exact Hx|exact Hy|done|done|
                                     |exact Hset].
      intros Heq. destruct p as [px py]. injection Heq as -> ->. cbn in Hu.
      congruence.
    + right. split_and!; [done..|].
      unfold reads. cbn. eapply getitem_setitem_eq; eauto.
  - assert (bool_decide (0 ≤ nx < w) && bool_decide (0 ≤ ny < h) = false) as ->.
    { apply andb_false_iff. unfold in_bounds in Hout. cbn in Hout.
      destruct (decide (0 ≤ nx < w)); [right|left];
        apply bool_decide_eq_false_2; tauto. }
    exists vis, Q. split_and!; [done|done|by auto|by left].
Qed.

Lemma visit_neighbor_step_witness :
  ∃ vis' Q',
    visit_neighbor 3 5 notch 1 0 (0, 1) (ndarray.zeros 5 3, []) = Done (vis', Q')
    ∧ ndarray.shape vis' 5 3
    ∧ (∀ p v, in_bounds 3 5 p → reads (ndarray.zeros 5 3) p v → v ≠ 0 →
         reads vis' p v)
    ∧ ((vis' = ndarray.zeros 5 3 ∧ Q' = [])
       ∨ (Q' = [] ++ [(1 + (0, 1).1, 0 + (0, 1).2)]
          ∧ in_bounds 3 5 (1 + (0, 1).1, 0 + (0, 1).2)
          ∧ holds notch (1 + (0, 1).1, 0 + (0, 1).2)
          ∧ reads (ndarray.zeros 5 3) (1 + (0, 1).1, 0 + (0, 1).2) 0
          ∧ reads vis' (1 + (0, 1).1, 0 + (0, 1).2) 1)).
Proof.
  apply (visit_neighbor_step 3 5 notch 1 0 (0, 1) (ndarray.zeros 5 3) []);
    [exact notch_shape|apply zeros_shape].
Defined.

(** ** Further properties of the labelling *)

(** X12: one neighbour visit of a component fill, for a label in the
    int32 range, never fails, whatever the centre and the offset; it never
    changes a label already given; and it appends a pixel to the queue only
    if that pixel is in bounds, in the mask and was unlabeled, giving it
    the label at the same time. *)
Theorem label_neighbor_step w h I label cx cy d lab Q :
  ndarray.shape I h w → ndarray.shape lab h w → - 2 ^ 31 ≤ label < 2 ^ 31 →
  ∃ lab' Q',
    label_neighbor w h I label cx cy d (lab, Q) = Done (lab', Q')
    ∧ ndarray.shape lab' h w
    ∧ (∀ p v, in_bounds w h p → reads lab p v → v ≠ 0 → reads lab' p v)
    ∧ ((lab' = lab ∧ Q' = Q)
       ∨ (Q' = Q ++ [(cx + d.1, cy + d.2)]
          ∧ in_bounds w h (cx + d.1, cy + d.2)
          ∧ holds I (cx + d.1, cy + d.2)
          ∧ reads lab (cx + d.1, cy + d.2) 0
          ∧ reads lab' (cx + d.1, cy + d.2) label)).
Proof.
  intros HI Hs Hlabel. unfold label_neighbor. cbn.
  set (nx := cx + d.1). set (ny := cy + d.2).
  destruct (decide (in_bounds w h (nx, ny))) as [Hin|Hout].
  - pose proof Hin as [Hx Hy]. cbn in Hx, Hy.
    rewrite !bool_decide_eq_true_2 by done. cbn.
    destruct (getitem_is_Done I h w ny nx HI Hx Hy) as [i Hi]. rewrite Hi. cbn.
    destruct i; [|exists lab, Q; split_and!; [done|done|by auto|by left]].
    destruct (getitem_is_Done lab h w ny nx Hs Hx Hy) as [v Hv]. rewrite Hv. cbn.
    case_bool_decide as Hv0; cbn; [subst v|exists lab, Q; split_and!; [done|done|by auto|by left]].
    destruct (setitem_in lab h w ny nx label Hs Hx Hy) as (row & _ & Hset).
    unfold setitem_int32. rewrite bool_decide_eq_true_2 by done.
    rewrite Hset. cbn. eexists _, _. split; [done|]. split_and!.
    + eapply setitem_shape; eauto.
    + intros p u [Hpx Hpy] Hu Hu0. unfold reads in *.
      erewrite getitem_setitem_ne; [exact Hu|exact Hs|exact Hx|exact Hy|done|done|
                                     |exact Hset].
      intros Heq. destruct p as [px py]. injection Heq as -> ->. cbn in Hu.
      congruence.
    + right. split_and!; [done..|].
      unfold reads. cbn. eapply getitem_setitem_eq; eauto.
  - assert (bool_decide (0 ≤ nx < w) && bool_decide (0 ≤ ny < h) = false) as ->.
    { apply andb_false_iff. unfold in_bounds in Hout. cbn in Hout.
      destruct (decide (0 ≤ nx < w)); [right|left];
        apply bool_decide_eq_false_2; tauto. }
    exists lab, Q. split_and!; [done|done|by auto|by left].
Qed.

Lemma label_neighbor_step_witness :
  ∃ lab' Q',
    label_neighbor 3 5 notch 7 1 0 (0, 1) (ndarray.zeros 5 3, []) = Done (lab', Q')
    ∧ ndarray.shape lab' 5 3
    ∧ (∀ p v, in_bounds 3 5 p → reads (ndarray.zeros 5 3) p v → v ≠ 0 →
         reads lab' p v)
    ∧ ((lab' = ndarray.zeros 5 3 ∧ Q' = [])
       ∨ (Q' = [] ++ [(1 + (0, 1).1, 0 + (0, 1).2)]
          ∧ in_bounds 3 5 (1 + (0, 1).1, 0 + (0, 1).2)
          ∧ holds notch (1 + (0, 1).1, 0 + (0, 1).2)
          ∧ reads (ndarray.zeros 5 3) (1 + (0, 1).1, 0 + (0, 1).2) 0
          ∧ reads lab' (1 + (0, 1).1, 0 + (0, 1).2) 7)).
Proof.
  apply (label_neighbor_step 3 5 notch 7 1 0 (0, 1) (ndarray.zeros 5 3) []);
    [exact notch_shape|apply zeros_shape|lia].
Defined.

(** X13: the labelling scan works on any boolean mask, not only on the
    interior mask of a run: it labels exactly the cells of the mask, gives
    two cells one label iff a path of 4-connected mask cells joins them
    (components may touch the border), and lists for label [k + 1], at
    index [k], the number of its cells and their tight bounding box. *)
Theorem label_interior_components w h I fuel :
  0 ≤ w → 0 ≤ h → w * h < 2 ^ 31 → ndarray.shape I h w →
  w * h ≤ Z.of_nat fuel →
  ∃ lab comps,
    label_interior w h I fuel = Done (lab, Z.of_nat (length comps), comps)
    ∧ ndarray.shape lab h w
    ∧ (∀ p, in_bounds w h p → marked lab p ↔ holds I p)
    ∧ (∀ p k, in_bounds w h p → reads lab p k →
         0 ≤ k ≤ Z.of_nat (length comps))
    ∧ (∀ p q, in_bounds w h p → in_bounds w h q → holds I p → holds I q →
         connected w h I p q ↔ ∃ k, reads lab p k ∧ reads lab q k)
    ∧ (∀ k c, comps !! k = Some c →
         describes w h lab (Z.of_nat k + 1) c ∧ 1 ≤ c_area c ≤ c_w c * c_h c)
    ∧ total_area comps = Z.of_nat (length (cells_holding w h I)).
Proof.
  intros Hw Hh Hsmall HI Hfuel.
  destruct (label_interior_spec w h I Hw Hh HI Hsmall fuel Hfuel)
    as ([[lab label] comps] & Hrun & Hinv).
  destruct Hinv as (Hs & Hok & Hcl & Hconn & Hpre & Hlen & _ & Hdesc & _ & Htotal).
  subst label. exists lab, comps. split; [done|]. split; [done|].
  assert (∀ p, in_bounds w h p → marked lab p ↔ holds I p) as Hlabeled.
  { intros p Hp. split.
    - intros (v & Hv & Hv0). destruct (Hok p Hp) as (v' & Hv' & _ & Himp).
      rewrite (reads_fun _ _ _ _ Hv Hv') in Hv0. auto.
    - apply Hpre. by apply elem_of_cells. }
  split_and!.
  - done.
  - intros p k Hp Hk. destruct (Hok p Hp) as (v & Hv & Hrange & _).
    by rewrite (reads_fun _ _ _ _ Hk Hv).
  - intros p q Hp Hq Hip Hiq. split.
    + intros Hpq. apply Hlabeled in Hip as (v & Hv & Hv0); [|done].
      exists v. split; [done|]. by eapply labels_closed_connected.
    + intros (k & Hk & Hk'). apply Hlabeled in Hip as (v & Hv & Hv0); [|done].
      pose proof (reads_fun _ _ _ _ Hk Hv) as ->.
      exact (Hconn p q v Hp Hq Hv Hv0 Hk').
  - intros k c Hc. pose proof (Hdesc k c Hc) as Hd. split; [done|].
    by eapply describes_area_bounds.
  - rewrite Htotal. f_equal. apply Permutation_length, NoDup_Permutation.
    + apply NoDup_filter, NoDup_cells.
    + apply NoDup_filter, NoDup_cells.
    + intros p. rewrite elem_of_cells_marked by done.
      unfold cells_holding. rewrite list_elem_of_filter, elem_of_cells.
      fold (holds I p). split.
      * intros [Hp Hm]. split; [|done]. by apply Hlabeled.
      * intros [Hi Hp]. split; [done|]. by apply Hlabeled.
Qed.

Lemma label_interior_components_witness :
  ∃ lab comps,
    label_interior 3 5 notch 15 = Done (lab, Z.of_nat (length comps), comps)
    ∧ ndarray.shape lab 5 3
    ∧ (∀ p, in_bounds 3 5 p → marked lab p ↔ holds notch p)
    ∧ (∀ p k, in_bounds 3 5 p → reads lab p k →
         0 ≤ k ≤ Z.of_nat (length comps))
    ∧ (∀ p q, in_bounds 3 5 p → in_bounds 3 5 q → holds notch p → holds notch q →
         connected 3 5 notch p q ↔ ∃ k, reads lab p k ∧ reads lab q k)
    ∧ (∀ k c, comps !! k = Some c →
         describes 3 5 lab (Z.of_nat k + 1) c ∧ 1 ≤ c_area c ≤ c_w c * c_h c)
    ∧ total_area comps = Z.of_nat (length (cells_holding 3 5 notch)).
Proof.
  apply (label_interior_components 3 5 notch 15);
    [lia|lia|done|exact notch_shape|cbn; lia].
Defined.

(** On the mask itself the labelling finds both regions of [notch], the
    first touching the top border. *)
Example label_interior_notch :
  label_interior 3 5 notch 15
  = Done ([ [0; 1; 0]; [0; 1; 0]; [0; 0; 0]; [0; 2; 0]; [0; 0; 0] ], 2,
          [Component 2 1 0 1 2; Component 1 1 3 1 1]).
Proof. reflexivity. Qed.

(** X14: when no border pixel is transparent, nothing is visited and
    every transparent pixel belongs to a hole: the labeled cells are the
    transparent cells and the areas sum to their number. *)
Theorem opaque_border_makes_holes threshold limit fuel img a :
  well_formed img → analyse threshold limit fuel img = Done a →
  (∀ p, on_border (size img).1 (size img).2 p → ¬ holds (transparent a) p) →
  (∀ p, in_bounds (size img).1 (size img).2 p →
     reads (visited a) p 0
     ∧ (marked (label_grid a) p ↔ holds (transparent a) p))
  ∧ total_area (labeler_output a)
    = Z.of_nat (length (cells_holding (size img).1 (size img).2 (transparent a))).
Proof.
  intros Hwf Hrun Hborder. pose proof (analyse_sound _ _ _ _ _ Hwf Hrun) as Hok.
  destruct Hok as (_ & _ & _ & Hchar & _ & Hint & Hscan & _).
  destruct Hscan as (Hs & Hlok & _ & _ & Hpre & _ & _ & _ & _ & Htotal).
  assert (∀ p, in_bounds (size img).1 (size img).2 p → reads (visited a) p 0) as H0.
  { intros p Hin. destruct (Hchar p Hin) as [[H1|H0] Hiff]; [|done]. exfalso.
    apply Hiff in H1 as (s & Hs' & Hconn).
    apply connected_ends in Hconn as (_ & HTs & _). by apply (Hborder s). }
  assert (∀ p, in_bounds (size img).1 (size img).2 p →
               marked (label_grid a) p ↔ holds (transparent a) p) as Hlab.
  { intros p Hin. split.
    - intros (v & Hv & Hv0). destruct (Hlok p Hin) as (v' & Hv' & _ & Himp).
      rewrite (reads_fun _ _ _ _ Hv Hv') in Hv0.
      apply Himp, Hint in Hv0 as [? _]; done.
    - intros HT. apply Hpre; [by apply elem_of_cells|]. apply Hint; auto. }
  split; [by auto|].
  rewrite Htotal. f_equal. apply Permutation_length, NoDup_Permutation.
  - apply NoDup_filter, NoDup_cells.
  - apply NoDup_filter, NoDup_cells.
  - intros p. rewrite elem_of_cells_marked by done.
    unfold cells_holding. rewrite list_elem_of_filter, elem_of_cells.
    fold (holds (transparent a) p). split.
    + intros [Hp Hm]. split; [|done]. by apply Hlab.
    + intros [Hi Hp]. split; [done|]. by apply Hlab.
Qed.

Lemma opaque_border_makes_holes_witness :
  ∃ a, detect_cutout 25 ring5 = Done a
    ∧ (∀ p, in_bounds 5 5 p →
         reads (visited a) p 0
         ∧ (marked (label_grid a) p ↔ holds (transparent a) p))
    ∧ total_area (labeler_output a)
      = Z.of_nat (length (cells_holding 5 5 (transparent a))).
Proof.
  eexists. split; [vm_compute; reflexivity|].
  apply (opaque_border_makes_holes 16 5 25 ring5);
    [|vm_compute; reflexivity|].
  - apply image_of_rows_wf; [lia|lia|done|]. split; [reflexivity|repeat constructor].
  - intros [x y] [[Hx Hy] Hb] HT. cbn in *.
    assert (x = 0 ∨ x = 1 ∨ x = 2 ∨ x = 3 ∨ x = 4) as Hxs by lia.
    assert (y = 0 ∨ y = 1 ∨ y = 2 ∨ y = 3 ∨ y = 4) as Hys by lia.
    unfold holds in HT. cbn in HT.
    destruct Hxs as [->|[->|[->|[->| ->]]]], Hys as [->|[->|[->|[->| ->]]]];
      try lia; vm_compute in HT; congruence.
Defined.

(** ** Further properties of the report *)

(** X15: the holes reported are the largest: no component left out of the
    report has a larger area than a reported one, and reported and left-out
    components together are the labeler's components.  The lines printed
    are the [Found] line with the number of all components, then, in
    order, one line
    ["  Hole <i + 1>: area=<area>, x=<x>, y=<y>, w=<width>, h=<height>"]
    for the [i]-th of the reported (the first [limit] sorted) components,
    and nothing else. *)
Theorem reported_holes_are_largest (limit : nat) (comps : list component) :
  (∀ c d, c ∈ take limit (report limit comps).1 →
          d ∈ drop limit (report limit comps).1 → c_area d ≤ c_area c)
  ∧ take limit (report limit comps).1 ++ drop limit (report limit comps).1
    ≡ₚ comps
  ∧ (hole_entries limit (report limit comps).1).*2
    = take limit (report limit comps).1
  ∧ length (report limit comps).2 = S (limit `min` length comps)
  ∧ (report limit comps).2 !! 0%nat
    = Some ("Found " +:+ pretty (Z.of_nat (length comps)) +:+ " interior holes")
  ∧ (∀ i, (report limit comps).2 !! S i
          = (λ c, "  Hole " +:+ pretty (Z.of_nat i + 1)
                  +:+ ": area=" +:+ pretty (c_area c)
                  +:+ ", x=" +:+ pretty (c_x c) +:+ ", y=" +:+ pretty (c_y c)
                  +:+ ", w=" +:+ pretty (c_w c) +:+ ", h=" +:+ pretty (c_h c))
            <$> take limit (report limit comps).1 !! i).
Proof.
  pose proof (sort_by_area_sorted comps) as Hsorted.
  pose proof (sort_by_area_perm comps) as Hperm.
  split_and!.
  - unfold report. cbn [fst].
    intros c d [i Hi]%list_elem_of_lookup [j Hj]%list_elem_of_lookup.
    apply lookup_take_Some in Hi as [Hi Hlt]. rewrite lookup_drop in Hj.
    apply (Hsorted i (limit + j)%nat); [lia|done|done].
  - unfold report. cbn [fst]. by rewrite take_drop.
  - unfold report, hole_entries. cbn [fst]. apply list_eq. intros i.
    rewrite list_lookup_fmap, list_lookup_imap.
    by destruct (take limit (sort_by_area comps) !! i).
  - apply length_report.
  - apply lookup_report_found.
  - intros i.
    destruct (take limit (report limit comps).1 !! i) as [c|] eqn:Hc.
    + apply lookup_take_Some in Hc as [Hc Hi].
      by rewrite (lookup_report_hole limit comps i c Hi Hc).
    + apply lookup_ge_None in Hc. rewrite length_take in Hc.
      unfold report in Hc. cbn [fst] in Hc.
      rewrite (Permutation_length Hperm) in Hc.
      pose proof (length_report limit comps) as Hlen.
      rewrite (proj2 (lookup_ge_None _ _)); [done|lia].
Qed.
